(** * ui-explorer: the crawl loop and the link checker, embedded in Rocq

    The development follows [src/core/Explorer.ts] (class [Explorer]),
    [src/core/types.ts] and [src/validators/BrokenLinksValidator.ts], with
    the two escaping functions of the report writers in [src/cli.ts].

    The browser, the backend adapters and the other validators are external
    collaborators of the explorer.  They are gathered in a record of
    operations over an abstract world [W]; every operation either returns a
    value or throws, and always returns the world it leaves behind.  The
    explorer's own fields ([visited], [queue], [graph], the events it emits)
    are threaded explicitly next to that world.

    Wall-clock readings ([Date.now()]: timestamps and durations) are left
    out of the records: no property below depends on them. *)

From Stdlib Require Import ZArith String Ascii List Lia Permutation Sorted.
From Stdlib Require DecimalString.
From stdpp Require Import base option gmap sets list strings.

Open Scope string_scope.
Open Scope Z_scope.

#[local] Set Warnings "-clear-no-such-hyp".

(** ** Values thrown by JavaScript code *)

Inductive Thrown :=
| ErrorObj (name message : string)   (* [instanceof Error] *)
| NonError (repr : string).          (* any other thrown value *)

Inductive Res (A : Type) :=
| Ok (a : A)
| Throw (e : Thrown).
Arguments Ok {A} a.
Arguments Throw {A} e.

Definition is_ok {A} (r : Res A) : bool :=
  match r with Ok _ => true | Throw _ => false end.

(** ** JavaScript idioms used by the source *)

(** [s || d] on strings: the empty string is falsy. *)
Definition str_or (s : option string) (d : string) : string :=
  match s with
  | Some v => if String.eqb v "" then d else v
  | None => d
  end.

(** [n || d] on numbers: [undefined] and [0] are falsy.  (Numbers are
    integers here; [NaN], falsy too, has no counterpart.) *)
Definition num_or (n : option Z) (d : Z) : Z :=
  match n with
  | Some v => if v =? 0 then d else v
  | None => d
  end.

(** Truthiness of an optional string / number / boolean. *)
Definition truthy_str (s : option string) : option string :=
  match s with
  | Some v => if String.eqb v "" then None else Some v
  | None => None
  end.

Definition truthy_num (n : option Z) : option Z :=
  match n with
  | Some v => if v =? 0 then None else Some v
  | None => None
  end.

Definition truthy_bool (b : option bool) : bool :=
  match b with Some true => true | _ => false end.

(** [String.prototype.includes]. *)
Fixpoint includes (hay needle : string) : bool :=
  String.prefix needle hay ||
  match hay with
  | EmptyString => false
  | String _ rest => includes rest needle
  end.

(** [Array.prototype.slice(0, n)]: a negative [n] counts from the end. *)
Definition slice0 {A} (n : Z) (l : list A) : list A :=
  if n <? 0
  then take (Z.to_nat (Z.of_nat (length l) + n)) l
  else take (Z.to_nat n) l.

(** [String(n)] for an integer [n] (below [1e21] in absolute value, where
    JavaScript still prints every digit). *)
Definition string_of_Z (z : Z) : string :=
  DecimalString.NilZero.string_of_int (Z.to_int z).

(** A regular expression object of the configuration: which object it is,
    its source and its flags.  With the [g] or [y] flag, [test] starts at
    the object's [lastIndex] and moves it, so the object carries state from
    one call to the next.  The engine is the JavaScript runtime's and is a
    parameter of the models below. *)
Record RegExp := { re_object : nat; re_source : string; re_flags : string }.

(** [string | RegExp] *)
Inductive Pattern :=
| PatString (s : string)
| PatRegExp (r : RegExp).

(** [p.toString()], also what a template literal prints for [p] *)
Definition pattern_toString (p : Pattern) : string :=
  match p with
  | PatString s => s
  | PatRegExp r => "/" ++ re_source r ++ "/" ++ re_flags r
  end.

(** [p] is truthy: a RegExp object always is, a string when not empty. *)
Definition truthy_pattern (p : option Pattern) : option Pattern :=
  match p with
  | Some (PatString s) => if String.eqb s "" then None else Some (PatString s)
  | Some (PatRegExp r) => Some (PatRegExp r)
  | None => None
  end.

(** ** Data model ([src/core/types.ts]) *)

Inductive ViewportName := mobile | tablet | desktop.

Definition DEFAULT_VIEWPORTS (v : ViewportName) : Z * Z :=
  match v with
  | mobile => (375, 667)
  | tablet => (768, 1024)
  | desktop => (1280, 720)
  end.

Record AppState := {
  state_id : string;
  state_url : string;
  state_title : string;
  state_domFingerprint : string;
  state_viewport : ViewportName;
  state_screenshot : option string
}.

Definition set_screenshot (path : string) (s : AppState) : AppState :=
  {| state_id := state_id s; state_url := state_url s;
     state_title := state_title s;
     state_domFingerprint := state_domFingerprint s;
     state_viewport := state_viewport s;
     state_screenshot := Some path |}.

Inductive ActionType :=
| click | fill | select | check | uncheck | keypress | upload | hover.

(** [Action]; a [DiscoveredAction] is passed around as an [Action] and its
    extra fields ([visible], [enabled]) are kept here. *)
Record Action := {
  action_type : ActionType;
  action_selector : string;
  action_label : string;
  action_value : option string;
  action_role : option string;
  action_destructive : bool;
  action_visible : bool;
  action_enabled : bool
}.

Record ActionMatcher := {
  match_selector : option string;
  match_text : option Pattern;
  match_role : option string;
  match_context : option Pattern
}.

Record SetupStep := {
  step_fill : option string;
  step_click : option string;
  step_select : option string;
  step_value : option string;
  step_waitFor : option string;
  step_delay : option Z;
  step_optional : option bool
}.

Inductive DbChange := ch_insert | ch_update | ch_delete | ch_unchanged.

Definition DbChange_toString (c : DbChange) : string :=
  match c with
  | ch_insert => "insert" | ch_update => "update"
  | ch_delete => "delete" | ch_unchanged => "unchanged"
  end.

Record DatabaseExpectation := {
  db_table : string;
  db_change : DbChange;
  db_where : option (list (string * string));
  db_count : option Z;
  db_values : option (list (string * string))
}.

Record ApiExpectation := {
  api_endpoint : Pattern;
  api_method : option string;
  api_status : option (list Z)
}.

Record UiExpectation := {
  ui_visible : option (list string);
  ui_hidden : option (list string);
  ui_text : option (list (string * Pattern));
  ui_url : option Pattern;
  ui_title : option Pattern
}.

Record ServiceExpectation := {
  svc_adapter : string;
  svc_action : string;
  svc_expects : list (string * string)
}.

Record ActionExpectation := {
  exp_database : option DatabaseExpectation;
  exp_api : option ApiExpectation;
  exp_ui : option UiExpectation;
  exp_service : option ServiceExpectation
}.

(** The single-level [followUp] schema is configuration that
    [Explorer.ts] never reads; it is kept as its matcher and expectations. *)
Record ActionSchema := {
  schema_match : ActionMatcher;
  schema_setup : option (list SetupStep);
  schema_expects : option (list ActionExpectation);
  schema_destructive : bool;
  schema_followUp : option (ActionMatcher * list ActionExpectation);
  schema_description : option string
}.

Inductive VerificationType := v_database | v_api | v_ui | v_service.

Record VerificationResult := {
  passed : bool;
  message : string;
  vtype : VerificationType;
  expected : option string;
  actual : option string
}.

Inductive IssueSeverity := critical | serious | moderate | minor.

Inductive IssueType :=
| i_accessibility | i_responsive | i_console | i_network
| i_database | i_api | i_service | i_functional.

(** A value of an issue's free-form [details] record. *)
Inductive Detail :=
| DNull
| DStr (s : string)
| DNum (n : Z)
| DBool (b : bool)
| DStrs (l : list string).

Record Issue := {
  issue_type : IssueType;
  issue_severity : IssueSeverity;
  issue_rule : string;
  issue_description : string;
  issue_elements : option (list string);
  issue_helpUrl : option string;
  issue_viewport : option ViewportName;
  issue_details : list (string * Detail)
}.

Record ValidatorResult := {
  validator : string;
  vr_issues : list Issue
}.

Record StateTransition := {
  tr_fromState : string;
  tr_toState : string;
  tr_action : Action;
  tr_viewport : ViewportName;
  tr_verifications : list VerificationResult
}.

Record StateNode := {
  node_state : AppState;
  node_issues : list Issue;
  node_transitions : list StateTransition
}.

Record ExplorationTask := {
  task_url : string;
  task_path : list Action;
  task_depth : Z;
  task_viewport : ViewportName
}.

Record ActionResult := {
  ar_action : Action;
  ar_fromState : string;
  ar_toState : string;
  ar_success : bool;
  ar_verifications : list VerificationResult
}.

(** ** Configuration ([ExplorerConfig], after [mergeConfig]) *)

(** A string, a number or a boolean.  A number is any JavaScript number
    (fractions, exponents, [NaN]); the models only ever print it, so it is
    given by the text [String(n)] prints for it. *)
Inductive Prim :=
| PrimStr (s : string)
| PrimNum (printed : string)
| PrimBool (b : bool).

(** [String(v)] *)
Definition String_of (p : Prim) : string :=
  match p with
  | PrimStr s => s
  | PrimNum printed => printed
  | PrimBool true => "true"
  | PrimBool false => "false"
  end.

(** A test-data entry is a constant or a generator function; a generator is
    run by the environment ([callGenerator] below), keyed by its name. *)
Inductive TestDataValue := TDValue (p : Prim) | TDGenerator.

Record ExplorationLimits := {
  maxDepth : option Z;
  maxStates : option Z;
  maxActionsPerState : option Z;
  timeout : option Z;
  viewports : option (list ViewportName);
  waitForNetworkIdle : option bool;
  actionDelay : option Z
}.

Record ConsoleConfig := {
  console_enabled : bool;
  console_failOnError : option bool;
  console_ignorePatterns : option (list Pattern)
}.

Record ValidatorConfig := {
  accessibility_enabled : option bool;
  responsive_enabled : option bool;
  console_config : option ConsoleConfig
}.

Record OutputConfig := {
  output_dir : option string;
  output_screenshots : option bool;
  output_screenshotFormat : option string
}.

Record ExplorerConfig := {
  baseUrl : string;
  startUrls : option (list string);
  actionSchemas : option (list ActionSchema);
  testData : option (gmap string TestDataValue);
  validators : option ValidatorConfig;
  exploration : option ExplorationLimits;
  ignore : option (list string);
  output : option OutputConfig
}.

(** [this.config.exploration?.field] *)
Definition limit {A} (f : ExplorationLimits -> option A) (c : ExplorerConfig)
  : option A :=
  match exploration c with Some l => f l | None => None end.

(** ** Events and the explorer's own state *)

Inductive ExplorerEvent :=
| EvStart
| EvStateDiscovered (s : AppState)
| EvStateVisited (s : AppState) (issues : list Issue)
| EvActionStart (a : Action) (fromState : string)
| EvActionComplete (r : ActionResult)
| EvActionError (a : Action) (e : Thrown)
| EvValidationComplete (results : list ValidatorResult)
| EvProgress (nvisited nqueued nissues : nat)
| EvComplete
| EvError (e : Thrown).

(** The fields of [Explorer] that the crawl mutates.  [events] is the
    sequence of events handed to the registered handlers, oldest first
    ([emit] swallows whatever a handler throws). *)
Record Core := {
  visited : gset string;
  queue : list ExplorationTask;
  states : gmap string StateNode;        (* graph.states *)
  startStates : list string;             (* graph.startStates *)
  events : list ExplorerEvent
}.

Definition set_visited (v : gset string) (c : Core) : Core :=
  {| visited := v; queue := queue c; states := states c;
     startStates := startStates c; events := events c |}.
Definition set_queue (q : list ExplorationTask) (c : Core) : Core :=
  {| visited := visited c; queue := q; states := states c;
     startStates := startStates c; events := events c |}.
Definition set_states (m : gmap string StateNode) (c : Core) : Core :=
  {| visited := visited c; queue := queue c; states := m;
     startStates := startStates c; events := events c |}.
Definition set_startStates (l : list string) (c : Core) : Core :=
  {| visited := visited c; queue := queue c; states := states c;
     startStates := l; events := events c |}.
Definition set_events (l : list ExplorerEvent) (c : Core) : Core :=
  {| visited := visited c; queue := queue c; states := states c;
     startStates := startStates c; events := l |}.

(** The state right after the constructor. *)
Definition new_core : Core :=
  {| visited := ∅; queue := []; states := ∅; startStates := []; events := [] |}.

(** ** A state monad with exceptions

    A computation takes the current state and returns either a value or a
    thrown error, with the state reached: a throw keeps every mutation made
    before it, as in JavaScript. *)

Section Monad.
Context {Σ : Type}.

Definition M (A : Type) : Type := Σ -> Res A * Σ.

Definition ret {A} (a : A) : M A := fun s => (Ok a, s).

Definition throw {A} (e : Thrown) : M A := fun s => (Throw e, s).

Definition bind {A B} (m : M A) (k : A -> M B) : M B :=
  fun s =>
    match m s with
    | (Ok a, s') => k a s'
    | (Throw e, s') => (Throw e, s')
    end.

(** [try { m } catch (e) { h e }] *)
Definition try_catch {A} (m : M A) (h : Thrown -> M A) : M A :=
  fun s =>
    match m s with
    | (Ok a, s') => (Ok a, s')
    | (Throw e, s') => h e s'
    end.

(** [try { m } finally { f }] *)
Definition try_finally {A} (m : M A) (f : M unit) : M A :=
  fun s =>
    match m s with
    | (r, s') =>
        match f s' with
        | (Ok _, s'') => (r, s'')
        | (Throw e, s'') => (Throw e, s'')
        end
    end.

(** [for (const x of l) { body x }] *)
Fixpoint for_of {A} (l : list A) (body : A -> M unit) : M unit :=
  match l with
  | [] => ret tt
  | x :: rest => bind (body x) (fun _ => for_of rest body)
  end.

(** [if (c) { m }] *)
Definition when (c : bool) (m : M unit) : M unit :=
  if c then m else ret tt.

(** [if (o) { m o }] for an optional value *)
Definition when_some {A} (o : option A) (m : A -> M unit) : M unit :=
  match o with Some a => m a | None => ret tt end.
End Monad.

Declare Scope js_scope.
Delimit Scope js_scope with js.
Notation "'let*' x ':=' m 'in' k" :=
  (bind m (fun x => k))
  (at level 10, x pattern, m at level 100, k at level 200) : js_scope.
Notation "m ';;' k" :=
  (bind m (fun _ => k))
  (at level 100, k at level 200, right associativity) : js_scope.
Open Scope js_scope.

(** ** Testing a pattern

    [typeof p === 'string' ? new RegExp(p) : p] followed by [.test(s)].
    For a string the constructor may throw a SyntaxError; the object it
    makes is fresh, without the [g] or [y] flag, and is dropped after the
    test, so the outcome depends on the source, the [i] flag and the text
    only.  A RegExp object of the configuration is tested as it is: its
    [lastIndex] is part of the state. *)
Section Patterns.
Context {Σ : Type}.
(** [new RegExp(source)], [new RegExp(source, 'i')]: the error thrown, if
    any *)
Variable regexSyntaxError : string -> option Thrown.
(** [test] on the object just made from a source, with the [i] flag or
    without *)
Variable regexMatch : string -> bool -> string -> bool.
(** [test] on an object of the configuration *)
Variable regexTest : RegExp -> string -> Σ -> bool * Σ.

Definition testPattern (ignoreCase : bool) (p : Pattern) (text : string)
  : @M Σ bool :=
  match p with
  | PatString source =>
      match regexSyntaxError source with
      | Some e => throw e
      | None => ret (regexMatch source ignoreCase text)
      end
  | PatRegExp r =>
      fun s => let (b, s') := regexTest r text s in (Ok b, s')
  end.

(** [patterns.some((p) => regex(p).test(text))], and the loop that returns
    at the first pattern that matches: the patterns after it are not
    tested. *)
Fixpoint somePattern (patterns : list Pattern) (text : string) : @M Σ bool :=
  match patterns with
  | [] => ret false
  | p :: rest =>
      let* found := testPattern false p text in
      if found then ret true else somePattern rest text
  end.

End Patterns.

(** ** The environment of the explorer

    What the explorer calls but does not define: Playwright's page, the
    state manager, action discovery, the adapter registry and the two
    validator classes.  [W] is the state of that outside world (browser
    session and backends), [Page] a page handle, [Snapshot] what the
    adapters capture. *)

Inductive WaitUntil := wu_load | wu_networkidle.

Record GotoOptions := {
  goto_timeout : option Z;
  goto_waitUntil : WaitUntil
}.

(** A call on [page.locator(selector).first()], with its [timeout]. *)
Inductive LocatorCall :=
| LWaitForVisible
| LClick
| LFill (value : string)
| LSelectOption (value : string)
| LCheck
| LUncheck
| LHover
| LPress (key : string).

(** The other calls on a page. *)
Inductive PageCall :=
| PWaitForTimeout (ms : Z)
| PWaitForSelector (selector : string) (timeout : Z)
| PClick (selector : string) (timeout : Z)
| PFill (selector value : string) (timeout : Z)
| PSelectOption (selector value : string) (timeout : Z)
| PWaitForLoadState (state : WaitUntil)
| PScreenshot (path : string) (fullPage : bool)
| PClose.

Record ConsoleError := { ce_message : string; ce_url : string }.

(** The second argument of [adapter.verify]. *)
Inductive VerifyExpects :=
| ExpectsDatabase (d : DatabaseExpectation)
| ExpectsRecord (r : list (string * string)).

Record Env {W Page Snapshot : Type} := {
  (** the regular expressions of the runtime, as in [testPattern]; the
      [lastIndex] of the configuration's RegExp objects is part of [W] *)
  regexSyntaxError : string -> option Thrown;
  regexMatch : string -> bool -> string -> bool;
  regexTest : RegExp -> string -> W -> bool * W;
  (** [context.newPage()] *)
  newPage : W -> Res Page * W;
  setViewportSize : Page -> Z * Z -> W -> Res unit * W;
  goto : Page -> string -> GotoOptions -> W -> Res unit * W;
  (** [page.url()] *)
  pageUrl : Page -> W -> string;
  (** [page.locator(selector).first().call({ timeout })] *)
  locatorCall : Page -> string -> LocatorCall -> Z -> W -> Res unit * W;
  (** [page.locator(selector).first().isVisible()] *)
  isVisible : Page -> string -> W -> Res bool * W;
  pageCall : Page -> PageCall -> W -> Res unit * W;
  (** [stateManager.captureState(page, viewport, adapters.getAll())] *)
  captureState : Page -> ViewportName -> W -> Res AppState * W;
  (** [adapters.get(name)]: the [verify] method of a registered adapter *)
  adapters_get :
    string -> option (string -> VerifyExpects -> W -> Res VerificationResult * W);
  (** [adapters.captureAllStates()] *)
  captureAllStates : W -> Res Snapshot * W;
  accessibilityValidate : Page -> ViewportName -> W -> Res ValidatorResult * W;
  responsiveValidate : Page -> ViewportName -> W -> Res ValidatorResult * W;
  discoverActions : Page -> option (list string) -> W -> Res (list Action) * W;
  prioritizeActions : list Action -> list Action;
  (** [this.consoleErrors], filled by the context's console listener *)
  consoleErrors : W -> list ConsoleError;
  clearConsoleErrors : W -> W;
  (** calling the generator function stored under a test-data key *)
  callGenerator : string -> W -> Res Prim * W;
  (** what [testData[key]] finds when the object has no property of its
      own under [key] but inherits one from [Object.prototype] ([toString],
      [constructor], [__proto__], ...): the text that [String(v())] gives
      for a function [v], called without a receiver, or [String(v)]
      otherwise, or the error thrown; [None] when nothing is inherited *)
  inheritedMember : string -> option (Res string);
  (** launching the browser and connecting the adapters; closing them *)
  initialize : W -> Res unit * W;
  cleanup : W -> Res unit * W
}.
Arguments Env : clear implicits.

(** The whole state: the explorer's fields and the world outside. *)
Record ExState {W : Type} := { core : Core; world : W }.
Arguments ExState : clear implicits.

(** ** The explorer ([src/core/Explorer.ts]) *)

Section Explorer.
Context {W Page Snapshot : Type}.
Variable env : Env W Page Snapshot.
Variable config : ExplorerConfig.

Abbreviation St := (ExState W).
Abbreviation Crawl := (@M St).

(** An awaited call into the environment. *)
Definition call {A} (op : W -> Res A * W) : Crawl A :=
  fun s =>
    match op (world s) with
    | (r, w) => (r, {| core := core s; world := w |})
    end.

(** A synchronous read of the environment, such as [page.url()]. *)
Definition observe {A} (f : W -> A) : Crawl A :=
  fun s => (Ok (f (world s)), s).

(** Reading and updating the explorer's own fields. *)
Definition get {A} (f : Core -> A) : Crawl A :=
  fun s => (Ok (f (core s)), s).

Definition update (f : Core -> Core) : Crawl unit :=
  fun s => (Ok tt, {| core := f (core s); world := world s |}).

Definition emit (ev : ExplorerEvent) : Crawl unit :=
  update (fun c => set_events (events c ++ [ev]) c).

(** Testing a pattern, with the runtime of the environment. *)
Definition regexTestIn (r : RegExp) (text : string) (s : St) : bool * St :=
  let (b, w) := regexTest env r text (world s) in
  (b, {| core := core s; world := w |}).

Definition patternTest (ignoreCase : bool) (p : Pattern) (text : string)
  : Crawl bool :=
  testPattern (regexSyntaxError env) (regexMatch env) regexTestIn
    ignoreCase p text.

Definition patternSome (patterns : list Pattern) (text : string)
  : Crawl bool :=
  somePattern (regexSyntaxError env) (regexMatch env) regexTestIn
    patterns text.

(** *** [executeAction] *)
Definition executeAction (page : Page) (action : Action) : Crawl unit :=
  let t := num_or (limit timeout config) 10000 in
  let locator c := call (locatorCall env page (action_selector action) c t) in
  locator LWaitForVisible ;;
  match action_type action with
  | click => locator LClick
  | fill => locator (LFill (str_or (action_value action) ""))
  | select => locator (LSelectOption (str_or (action_value action) ""))
  | check => locator LCheck
  | uncheck => locator LUncheck
  | hover => locator LHover
  | keypress => locator (LPress (str_or (action_value action) "Enter"))
  | upload => locator LClick           (* default: *)
  end.

(** *** [replayPath]: the first failing action ends the replay ([break]) *)
Fixpoint replayPath (page : Page) (path : list Action) : Crawl unit :=
  match path with
  | [] => ret tt
  | action :: rest =>
      let* continue :=
        try_catch
          (executeAction page action ;;
           call (pageCall env page (PWaitForTimeout 100)) ;;
           ret true)
          (fun _ => ret false) in
      if continue then replayPath page rest else ret tt
  end.

(** *** [resolveTestData]

    [value.replace(/\{\{testData\.(\w+)\}\}/g, callback)].  A match starts
    with the literal prefix, takes the longest run of word characters, which
    may not be empty, and needs the two closing braces right after it. *)
Definition is_word_char (c : ascii) : bool :=
  let n := nat_of_ascii c in
  ((48 <=? n) && (n <=? 57) || (65 <=? n) && (n <=? 90) ||
   (97 <=? n) && (n <=? 122) || (n =? 95))%nat.

Fixpoint take_word (s : string) : string * string :=
  match s with
  | String c rest =>
      if is_word_char c
      then let (w, r) := take_word rest in (String c w, r)
      else (EmptyString, s)
  | EmptyString => (EmptyString, EmptyString)
  end.

Definition placeholder_prefix : string := "{{testData.".

(** The key of a placeholder starting at the head of [s], and the length
    of the matched text. *)
Definition match_placeholder (s : string) : option (string * nat) :=
  if String.prefix placeholder_prefix s then
    let (key, after) :=
      take_word (String.substring 11 (String.length s - 11) s) in
    if String.eqb key "" then None
    else if String.prefix "}}" after
         then Some (key, (11 + String.length key + 2)%nat)
         else None
  else None.

(** The replacement callback. *)
Definition replacement (table : gmap string TestDataValue)
    (matched key : string) : Crawl string :=
  match table !! key with
  | Some TDGenerator =>
      let* v := call (callGenerator env key) in ret (String_of v)
  | Some (TDValue p) => ret (String_of p)
  | None =>
      (* not a property of the object itself: the prototype chain *)
      match inheritedMember env key with
      | Some (Ok printed) => ret printed
      | Some (Throw e) => throw e
      | None => ret matched
      end
  end.

(** [skip] counts the characters of a match still to be dropped. *)
Fixpoint replace_placeholders (table : gmap string TestDataValue)
    (skip : nat) (s : string) : Crawl string :=
  match s with
  | EmptyString => ret EmptyString
  | String c rest =>
      match skip with
      | S k => replace_placeholders table k rest
      | O =>
          match match_placeholder s with
          | Some (key, len) =>
              let* v := replacement table (String.substring 0 len s) key in
              let* r := replace_placeholders table (len - 1) rest in
              ret (v ++ r)
          | None =>
              let* r := replace_placeholders table 0 rest in
              ret (String c r)
          end
      end
  end.

Definition resolveTestData (value : string) : Crawl string :=
  match testData config with
  | None => ret value
  | Some table => replace_placeholders table 0 value
  end.

(** *** [executeSetup] *)

(** The body of the [try] block: the calls one step asks for. *)
Definition runSetupStep (page : Page) (step : SetupStep) : Crawl unit :=
  when_some (truthy_num (step_delay step))
    (fun d => call (pageCall env page (PWaitForTimeout d))) ;;
  when_some (truthy_str (step_waitFor step))
    (fun sel => call (pageCall env page (PWaitForSelector sel 5000))) ;;
  when_some (truthy_str (step_click step))
    (fun sel => call (pageCall env page (PClick sel 5000))) ;;
  when_some (truthy_str (step_fill step))
    (fun sel =>
       let* value := resolveTestData (str_or (step_value step) "") in
       call (pageCall env page (PFill sel value 5000))) ;;
  when_some (truthy_str (step_select step))
    (fun sel =>
       let* value := resolveTestData (str_or (step_value step) "") in
       call (pageCall env page (PSelectOption sel value 5000))).

Definition executeSetup (page : Page) (steps : list SetupStep) : Crawl unit :=
  for_of steps
    (fun step =>
       try_catch (runSetupStep page step)
         (fun error =>
            if truthy_bool (step_optional step) then ret tt
            else throw error)).

(** *** [findMatchingSchema]

    The body of the loop over [config.actionSchemas], for one schema:
    [false] stands for [continue], [true] for reaching [return schema]. *)
Definition schemaMatches (schema : ActionSchema) (action : Action)
    (page : Page) : Crawl bool :=
  let m := schema_match schema in
  (* Check selector *)
  if match truthy_str (match_selector m) with
     | Some sel => negb (includes (action_selector action) sel)
     | None => false
     end
  then ret false
  else
    (* Check text *)
    let* textFails :=
      match truthy_pattern (match_text m) with
      | Some p =>
          let* found := patternTest true p (action_label action) in
          ret (negb found)
      | None => ret false
      end in
    if textFails then ret false
    (* Check role *)
    else if match truthy_str (match_role m) with
            | Some r => negb (bool_decide (action_role action = Some r))
            | None => false
            end
    then ret false
    else
      (* Check context (URL) *)
      let* contextFails :=
        match truthy_pattern (match_context m) with
        | Some p =>
            let* url := observe (pageUrl env page) in
            let* found := patternTest false p url in
            ret (negb found)
        | None => ret false
        end in
      ret (negb contextFails).

Fixpoint findMatchingSchema_loop (schemas : list ActionSchema)
    (action : Action) (page : Page) : Crawl (option ActionSchema) :=
  match schemas with
  | [] => ret None
  | schema :: rest =>
      let* matched := schemaMatches schema action page in
      if matched then ret (Some schema)
      else findMatchingSchema_loop rest action page
  end.

Definition findMatchingSchema (action : Action) (page : Page)
  : Crawl (option ActionSchema) :=
  match actionSchemas config with
  | None => ret None
  | Some schemas => findMatchingSchema_loop schemas action page
  end.

(** *** Loops that push onto a local array *)
Fixpoint collect {A B} (l : list A) (results : list B)
    (body : A -> Crawl (list B)) : Crawl (list B) :=
  match l with
  | [] => ret results
  | x :: rest =>
      let* pushed := body x in
      collect rest (results ++ pushed) body
  end.

(** *** [verifyUiExpectations]

    The result that one selector of [ui.visible] pushes, in the [try] or in
    the [catch]; the same for [ui.hidden] and for [ui.url]. *)
Definition checkVisible (page : Page) (selector : string)
  : Crawl VerificationResult :=
  try_catch
    (let* isVis := call (isVisible env page selector) in
     ret {| passed := isVis;
            message := if isVis
                       then "Element " ++ selector ++ " is visible"
                       else "Element " ++ selector ++ " is not visible";
            vtype := v_ui;
            expected := Some "visible";
            actual := Some (if isVis then "visible" else "hidden") |})
    (fun _ =>
       ret {| passed := false;
              message := "Element " ++ selector ++ " not found";
              vtype := v_ui; expected := None; actual := None |}).

Definition checkHidden (page : Page) (selector : string)
  : Crawl VerificationResult :=
  try_catch
    (let* isVis := call (isVisible env page selector) in
     ret {| passed := negb isVis;
            message := if isVis
                       then "Element " ++ selector ++ " is still visible"
                       else "Element " ++ selector ++ " is hidden";
            vtype := v_ui;
            expected := Some "hidden";
            actual := Some (if isVis then "visible" else "hidden") |})
    (fun _ =>
       (* Element not found = hidden *)
       ret {| passed := true;
              message := "Element " ++ selector ++ " is not present";
              vtype := v_ui; expected := None; actual := None |}).

(** [new RegExp(ui.url)] is not inside a [try]. *)
Definition checkUrl (page : Page) (p : Pattern)
  : Crawl VerificationResult :=
  let* currentUrl := observe (pageUrl env page) in
  let* matches := patternTest false p currentUrl in
  ret {| passed := matches;
         message := if matches
                    then "URL matches " ++ pattern_toString p
                    else "URL " ++ currentUrl ++ " does not match "
                           ++ pattern_toString p;
         vtype := v_ui;
         expected := Some (pattern_toString p);
         actual := Some currentUrl |}.

(** [results.push(await check)] *)
Definition push {A} (check : Crawl A) : Crawl (list A) :=
  let* result := check in ret [result].

Definition verifyUiExpectations (page : Page) (ui : UiExpectation)
  : Crawl (list VerificationResult) :=
  let results := [] in
  (* Check visible elements *)
  let* results :=
    match ui_visible ui with
    | Some selectors =>
        collect selectors results (fun selector => push (checkVisible page selector))
    | None => ret results
    end in
  (* Check hidden elements *)
  let* results :=
    match ui_hidden ui with
    | Some selectors =>
        collect selectors results (fun selector => push (checkHidden page selector))
    | None => ret results
    end in
  (* Check URL *)
  let* results :=
    match truthy_pattern (ui_url ui) with
    | Some p => let* r := push (checkUrl page p) in ret (results ++ r)%list
    | None => ret results
    end in
  ret results.

(** *** [verifyExpectations] *)

Definition apiNotImplemented : VerificationResult :=
  {| passed := true;
     message := "API verification not yet implemented";
     vtype := v_api; expected := None; actual := None |}.

(** The body of the loop: what one expectation pushes onto [results]. *)
Definition verifyExpectation (page : Page) (expectation : ActionExpectation)
  : Crawl (list VerificationResult) :=
  (* Database expectations *)
  let* r_db :=
    match exp_database expectation with
    | Some database =>
        match adapters_get env "supabase" with
        | Some verify =>
            push (call (verify (DbChange_toString (db_change database))
                          (ExpectsDatabase database)))
        | None => ret []
        end
    | None => ret []
    end in
  (* UI expectations *)
  let* r_ui :=
    match exp_ui expectation with
    | Some ui => verifyUiExpectations page ui
    | None => ret []
    end in
  (* API expectations *)
  let r_api :=
    match exp_api expectation with
    | Some _ => [apiNotImplemented]
    | None => []
    end in
  (* Service expectations *)
  let* r_svc :=
    match exp_service expectation with
    | Some service =>
        match adapters_get env (svc_adapter service) with
        | Some verify =>
            push (call (verify (svc_action service)
                          (ExpectsRecord (svc_expects service))))
        | None => ret []
        end
    | None => ret []
    end in
  ret (r_db ++ r_ui ++ r_api ++ r_svc)%list.

Definition verifyExpectations (expects : list ActionExpectation)
    (page : Page) (_preBackendState : Snapshot)
  : Crawl (list VerificationResult) :=
  collect expects [] (verifyExpectation page).

(** *** [runValidators] *)
Definition consoleIssue (viewport : ViewportName) (failOnError : option bool)
    (error : ConsoleError) : Issue :=
  {| issue_type := i_console;
     issue_severity := if truthy_bool failOnError then serious else moderate;
     issue_rule := "no-console-errors";
     issue_description :=
       "Console error: " ++ String.substring 0 200 (ce_message error);
     issue_elements := None;
     issue_helpUrl := None;
     issue_viewport := Some viewport;
     issue_details := [("message", DStr (ce_message error));
                       ("url", DStr (ce_url error))] |}.

(** [ignorePatterns.some(...)] for one console error *)
Definition shouldIgnore (patterns : option (list Pattern))
    (error : ConsoleError) : Crawl bool :=
  patternSome (default [] patterns) (ce_message error).

Definition runValidators (page : Page) (viewport : ViewportName)
  : Crawl (list Issue) :=
  let issues := [] in
  (* Accessibility *)
  let* issues :=
    if truthy_bool (validators config ≫= accessibility_enabled) then
      let* result := call (accessibilityValidate env page viewport) in
      emit (EvValidationComplete [result]) ;;
      ret (issues ++ vr_issues result)%list
    else ret issues in
  (* Responsive *)
  let* issues :=
    if truthy_bool (validators config ≫= responsive_enabled) then
      let* result := call (responsiveValidate env page viewport) in
      emit (EvValidationComplete [result]) ;;
      ret (issues ++ vr_issues result)%list
    else ret issues in
  (* Console errors *)
  let* errors := observe (consoleErrors env) in
  let* issues :=
    match validators config ≫= console_config with
    | Some cc =>
        if console_enabled cc && (0 <? length errors)%nat then
          let* issues :=
            collect errors issues
              (fun error =>
                 (* Check ignore patterns *)
                 let* ignored :=
                   shouldIgnore (console_ignorePatterns cc) error in
                 if ignored then ret []
                 else ret [consoleIssue viewport (console_failOnError cc) error]) in
          (* Clear after reporting *)
          call (fun w => (Ok tt, clearConsoleErrors env w)) ;;
          ret issues
        else ret issues
    | None => ret issues
    end in
  ret issues.

(** *** The state graph *)
Definition addStateToGraph (state : AppState) (issues : list Issue)
  : Crawl unit :=
  let node := {| node_state := state; node_issues := issues;
                 node_transitions := [] |} in
  update (fun c => set_states (<[state_id state := node]> (states c)) c) ;;
  (* Track start states *)
  let* n := get (fun c => size (states c)) in
  when (n =? 1)%nat
    (update (fun c => set_startStates (startStates c ++ [state_id state]) c)).

Definition push_transition (t : StateTransition) (node : StateNode) : StateNode :=
  {| node_state := node_state node; node_issues := node_issues node;
     node_transitions := node_transitions node ++ [t] |}.

Definition addTransitionToGraph (fromState toState : string) (action : Action)
    (viewport : ViewportName) (verifications : list VerificationResult)
  : Crawl unit :=
  let transition :=
    {| tr_fromState := fromState; tr_toState := toState; tr_action := action;
       tr_viewport := viewport; tr_verifications := verifications |} in
  let* node := get (fun c => states c !! fromState) in
  when_some node
    (fun node =>
       update (fun c =>
         set_states (<[fromState := push_transition transition node]> (states c)) c)).

(** [getAllIssues]: the loop only uses the length of this list.  (A
    JavaScript [Map] iterates in insertion order, the finite map in key
    order.) *)
Definition getAllIssues (c : Core) : list Issue :=
  concat (map (fun kv => node_issues (snd kv)) (map_to_list (states c))).

(** [getAllVerifications] *)
Definition getAllVerifications (c : Core) : list VerificationResult :=
  concat
    (map (fun kv => concat (map tr_verifications (node_transitions (snd kv))))
       (map_to_list (states c))).

(** [[...new Set(l)]]: the elements of [l] in order, each at its first
    occurrence only. *)
Fixpoint spread_set (seen l : list string) : list string :=
  match l with
  | [] => []
  | x :: rest =>
      if bool_decide (x ∈ seen) then spread_set seen rest
      else x :: spread_set (x :: seen) rest
  end.

(** [buildResult]: the summary.  The duration is read off the clock and is
    left out; the graph, the issues and the verifications of the result are
    [states], [getAllIssues] and [getAllVerifications]. *)
Record ExplorationSummary := {
  statesExplored : nat;
  actionsPerformed : nat;
  issuesFound : nat;
  verificationsPassed : nat;
  verificationsFailed : nat;
  urlsCovered : list string;
  actionsDiscovered : nat;
  actionsExecuted : nat;
  schemasMatched : nat
}.

Definition buildResult (c : Core) : ExplorationSummary :=
  let issues := getAllIssues c in
  let verifications := getAllVerifications c in
  let nodes := map snd (map_to_list (states c)) in
  {| statesExplored := size (states c);
     actionsPerformed :=
       fold_left (fun sum node => sum + length (node_transitions node))%nat
         nodes 0%nat;
     issuesFound := length issues;
     verificationsPassed := length (filter (fun v => passed v) verifications);
     verificationsFailed :=
       length (filter (fun v => negb (passed v)) verifications);
     urlsCovered :=
       spread_set [] (map (fun n => state_url (node_state n)) nodes);
     actionsDiscovered := 0; (* Would need to track this *)
     actionsExecuted :=
       fold_left (fun sum node => sum + length (node_transitions node))%nat
         nodes 0%nat;
     schemasMatched := 0 (* Would need to track this *) |}.

(** *** [exploreAction]

    The [try] block is written in two halves: performing the action up to
    and including the verification of its expectations, then the
    bookkeeping and the way back. *)
Definition performAndVerify (page : Page) (action : Action)
    (task : ExplorationTask) : Crawl (AppState * list VerificationResult) :=
  (* Find matching schema *)
  let* schema := findMatchingSchema action page in
  (* Capture pre-action backend state *)
  let* preBackendState := call (captureAllStates env) in
  (* Execute setup steps if schema has them *)
  when_some (schema ≫= schema_setup) (executeSetup page) ;;
  (* Perform the action *)
  executeAction page action ;;
  (* Wait for any async effects *)
  when (truthy_bool (limit waitForNetworkIdle config))
    (try_catch (call (pageCall env page (PWaitForLoadState wu_networkidle)))
       (fun _ => ret tt)) ;;
  (* Small delay for UI to settle *)
  when_some (truthy_num (limit actionDelay config))
    (fun d => call (pageCall env page (PWaitForTimeout d))) ;;
  (* Capture post-action state *)
  let* toState := call (captureState env page (task_viewport task)) in
  (* Verify expectations *)
  let* verifications :=
    match schema ≫= schema_expects with
    | Some expects => verifyExpectations expects page preBackendState
    | None => ret []
    end in
  ret (toState, verifications).

Definition backtrack (page : Page) (task : ExplorationTask) : Crawl unit :=
  call (goto env page (task_url task)
          {| goto_timeout := None; goto_waitUntil := wu_load |}) ;;
  replayPath page (task_path task).

Definition recordAndBacktrack (page : Page) (fromState : AppState)
    (action : Action) (task : ExplorationTask)
    (toState : AppState) (verifications : list VerificationResult)
  : Crawl unit :=
  (* Record transition *)
  addTransitionToGraph (state_id fromState) (state_id toState) action
    (task_viewport task) verifications ;;
  emit (EvActionComplete
          {| ar_action := action; ar_fromState := state_id fromState;
             ar_toState := state_id toState; ar_success := true;
             ar_verifications := verifications |}) ;;
  (* Queue new state for exploration if not visited *)
  let* seen := get (fun c => bool_decide (state_id toState ∈ visited c)) in
  (if seen then ret tt
   else
     let* url := observe (pageUrl env page) in
     update (fun c =>
       set_queue
         (queue c ++ [ {| task_url := url;
                          task_path := task_path task ++ [action];
                          task_depth := task_depth task + 1;
                          task_viewport := task_viewport task |} ]) c)) ;;
  (* Backtrack to original state *)
  backtrack page task.

(** The [catch] block. *)
Definition recover (page : Page) (action : Action) (task : ExplorationTask)
    (error : Thrown) : Crawl unit :=
  emit (EvActionError action error) ;;
  (* Try to recover by navigating back *)
  try_catch (backtrack page task) (fun _ => ret tt (* Recovery failed *)).

Definition exploreAction (page : Page) (fromState : AppState)
    (action : Action) (task : ExplorationTask) : Crawl unit :=
  emit (EvActionStart action (state_id fromState)) ;;
  try_catch
    (let* (toState, verifications) := performAndVerify page action task in
     recordAndBacktrack page fromState action task toState verifications)
    (recover page action task).

(** *** [exploreTask]

    [this.context] is set by [initialize] before the loop starts and stays
    set until [cleanup], so the guard on it never fires inside the loop. *)
Definition takeScreenshot (page : Page) (state : AppState) : Crawl AppState :=
  if truthy_bool (output config ≫= output_screenshots) then
    let screenshotPath :=
      str_or (output config ≫= output_dir) "." ++ "/screenshots/"
        ++ state_id state ++ "."
        ++ str_or (output config ≫= output_screenshotFormat) "png" in
    try_catch
      (call (pageCall env page (PScreenshot screenshotPath true)) ;;
       ret (set_screenshot screenshotPath state))
      (fun _ => ret state (* Screenshot failed, continue *))
  else ret state.

(** What follows the dedup check for a state seen for the first time. *)
Definition visitState (page : Page) (task : ExplorationTask)
    (state : AppState) : Crawl unit :=
  update (fun c => set_visited ({[ state_id state ]} ∪ visited c) c) ;;
  emit (EvStateDiscovered state) ;;
  (* Take screenshot if enabled *)
  let* state := takeScreenshot page state in
  (* Run validators *)
  let* issues := runValidators page (task_viewport task) in
  (* Add state to graph *)
  addStateToGraph state issues ;;
  emit (EvStateVisited state issues) ;;
  (* Discover actions *)
  let* actions := call (discoverActions env page (ignore config)) in
  let prioritizedActions := prioritizeActions env actions in
  (* Limit actions per state *)
  let maxActions := num_or (limit maxActionsPerState config) 50 in
  let actionsToExplore := slice0 maxActions prioritizedActions in
  (* Explore each action *)
  for_of actionsToExplore
    (fun action => exploreAction page state action task).

(** Navigation, replay and fingerprinting: the part before the dedup
    check. *)
Definition reachState (page : Page) (task : ExplorationTask) : Crawl AppState :=
  (* Set viewport *)
  call (setViewportSize env page (DEFAULT_VIEWPORTS (task_viewport task))) ;;
  (* Navigate to URL *)
  call (goto env page (task_url task)
          {| goto_timeout := Some (num_or (limit timeout config) 10000);
             goto_waitUntil :=
               if truthy_bool (limit waitForNetworkIdle config)
               then wu_networkidle else wu_load |}) ;;
  (* Replay path to reach this state *)
  replayPath page (task_path task) ;;
  (* Capture state *)
  call (captureState env page (task_viewport task)).

Definition exploreTask (task : ExplorationTask) : Crawl unit :=
  let* page := call (newPage env) in
  try_finally
    (try_catch
       (let* state := reachState page task in
        (* Check if already visited *)
        let* seen := get (fun c => bool_decide (state_id state ∈ visited c)) in
        if seen then ret tt
        else visitState page task state)
       (fun _ => ret tt (* Log exploration error but continue *)))
    (call (pageCall env page PClose)).

(** *** The main exploration loop of [explore] *)

(** [this.config.exploration?.maxDepth || 10] and
    [this.config.exploration?.maxStates || 500] *)
Definition depthCap : Z := num_or (limit maxDepth config) 10.
Definition statesCap : Z := num_or (limit maxStates config) 500.

Definition shift (s : St) (rest : list ExplorationTask) : St :=
  {| core := set_queue rest (core s); world := world s |}.

Definition progress : Crawl unit :=
  let* c := get (fun c => c) in
  emit (EvProgress (size (visited c)) (length (queue c))
          (length (getAllIssues c))).

(** One turn of the [while]: what the loop does at its head. *)
Inductive LoopStep :=
| Left (s : St)                          (* the condition fails, or [break] *)
| Skipped (s : St)                       (* [continue]: the task is too deep *)
| Explored (task : ExplorationTask) (r : Res unit) (s : St).
                                         (* [exploreTask task] was awaited *)

Definition loop_step (s : St) : LoopStep :=
  match queue (core s) with
  | [] => Left s
  | task :: rest =>
      (* Check limits *)
      if depthCap <? task_depth task then Skipped (shift s rest)
      else if statesCap <=? Z.of_nat (size (visited (core s)))
      then Left (shift s rest)
      else
        match (exploreTask task ;; progress) (shift s rest) with
        | (r, s') => Explored task r s'
        end
  end.

(** The loop; [fuel] bounds the number of turns, [None] means it ran out. *)
Fixpoint explore_loop (fuel : nat) (s : St) : option (Res unit * St) :=
  match fuel with
  | O => None
  | S fuel' =>
      match loop_step s with
      | Left s' => Some (Ok tt, s')
      | Skipped s' => explore_loop fuel' s'
      | Explored _ (Ok _) s' => explore_loop fuel' s'
      | Explored _ (Throw e) s' => Some (Throw e, s')
      end
  end.

(** The start of [explore]: the start event, [initialize], and one task per
    start URL and viewport. *)
Definition enqueueStartTasks : Crawl unit :=
  let startUrls := default [baseUrl config] (startUrls config) in
  for_of startUrls
    (fun url =>
       for_of (default [desktop] (limit viewports config))
         (fun viewport =>
            update (fun c =>
              set_queue
                (queue c ++ [ {| task_url := url; task_path := [];
                                 task_depth := 0;
                                 task_viewport := viewport |} ]) c))).

Definition explore_start : Crawl unit :=
  call (initialize env) ;;
  (* Add start URLs to queue *)
  enqueueStartTasks.

(** [explore], without the report built from the final graph. *)
Definition explore (fuel : nat) (s : St) : option (Res unit * St) :=
  let s0 := snd (emit EvStart s) in
  let attempt : option (Res unit * St) :=
    match explore_start s0 with
    | (Throw e, s1) => Some (Throw e, s1)
    | (Ok _, s1) =>
        match explore_loop fuel s1 with
        | None => None
        | Some (Ok _, s2) => Some (emit EvComplete s2)
        | Some (Throw e, s2) => Some (Throw e, s2)
        end
    end in
  match attempt with
  | None => None
  | Some (r, s3) =>
      Some (try_finally
              (match r with
               | Ok _ => ret tt
               | Throw e => emit (EvError e) ;; throw e
               end)
              (call (cleanup env)) s3)
  end.

End Explorer.

(** ** The broken-links validator ([src/validators/BrokenLinksValidator.ts]) *)

Module BrokenLinks.

Record BrokenLinksValidatorConfig := {
  enabled : bool;
  checkExternal : bool;
  checkInternal : bool;
  timeout : Z;
  ignorePatterns : list Pattern;
  followRedirects : bool;
  maxRedirects : Z
}.

Definition DEFAULT_CONFIG : BrokenLinksValidatorConfig :=
  {| enabled := true; checkExternal := true; checkInternal := true;
     timeout := 5000; ignorePatterns := []; followRedirects := false;
     maxRedirects := 5 |}.

Record LinkInfo := {
  href : string;
  text : string;
  selector : string;
  isExternal : bool
}.

Record LinkCheckResult := {
  link : LinkInfo;
  status : option Z;
  error : option string;
  redirectChain : list string
}.

(** [fetch]: the request and how it settles. *)
Inductive Method := HEAD | GET.

Record Request := {
  req_url : string;
  req_method : Method;
  req_follow : bool;            (* redirect: 'follow' | 'manual' *)
  req_timeout : Z               (* the abort signal fires after this delay *)
}.

Record Response := {
  resp_status : Z;
  resp_redirected : bool;
  resp_url : string
}.

Inductive FetchOutcome :=
| Resolved (r : Response)
| Rejected (e : Thrown).

(** The double quote of the messages. *)
Definition dq : string := String (ascii_of_nat 34) EmptyString.

Section Validator.
Context {Net : Type}.
(** The network, the runtime's [URL] parser (origin and pathname, or
    nothing when the constructor throws) and its regular expressions, as
    in [testPattern]; the [lastIndex] of the RegExp objects among the
    ignore patterns is kept with the network. *)
Variable fetch : Request -> Net -> FetchOutcome * Net.
Variable parseURL : string -> option (string * string).
Variable regexSyntaxError : string -> option Thrown.
Variable regexMatch : string -> bool -> string -> bool.
Variable regexTest : RegExp -> string -> Net -> bool * Net.
Variable config : BrokenLinksValidatorConfig.

(** The validator's fields and the network it talks to. *)
Record VState := {
  checkedUrls : gmap string LinkCheckResult;
  net : Net
}.

(** *** [shouldCheckLink] *)
Definition regexTestIn (r : RegExp) (text : string) (st : VState)
  : bool * VState :=
  let (b, n) := regexTest r text (net st) in
  (b, {| checkedUrls := checkedUrls st; net := n |}).

Definition shouldCheckLink (currentUrl : string) (l : LinkInfo)
  : @M VState bool :=
  (* Check external/internal settings *)
  if isExternal l && negb (checkExternal config) then ret false
  else if negb (isExternal l) && negb (checkInternal config) then ret false
  else
    (* Check ignore patterns *)
    let* ignored :=
      somePattern regexSyntaxError regexMatch regexTestIn
        (ignorePatterns config) (href l) in
    if ignored then ret false
    (* Skip if same as current page (just an anchor) *)
    else
      ret match parseURL (href l), parseURL currentUrl with
          | Some (lo, lp), Some (po, pp) =>
              if String.eqb lo po && String.eqb lp pp then false else true
          | _, _ => false                       (* Invalid URL *)
          end.

(** [links.filter((link) => this.shouldCheckLink(link, page.url()))] *)
Fixpoint filterLinks (currentUrl : string) (links : list LinkInfo)
  : @M VState (list LinkInfo) :=
  match links with
  | [] => ret []
  | l :: rest =>
      let* keep := shouldCheckLink currentUrl l in
      let* kept := filterLinks currentUrl rest in
      ret (if keep then l :: kept else kept)
  end.

(** *** [checkLink] *)

(** The [catch] block: the text stored in [result.error]. *)
Definition errorText (e : Thrown) : string :=
  match e with
  | ErrorObj name message =>
      if String.eqb name "AbortError" then "Timeout"
      else if includes message "fetch" then "Connection failed"
      else message
  | NonError _ => "Unknown error"
  end.

Definition request (l : LinkInfo) (m : Method) : Request :=
  {| req_url := href l; req_method := m;
     req_follow := followRedirects config; req_timeout := timeout config |}.

(** The path taken on a cache miss: the requests, then the cache update. *)
Definition fetchLink (l : LinkInfo) (st : VState) : LinkCheckResult * VState :=
  let (result, n) :=
    match fetch (request l HEAD) (net st) with
    | (Resolved response, n1) =>
        let chain :=
          (* Track redirects if following *)
          if followRedirects config && resp_redirected response
          then [resp_url response] else [] in
        (* Some servers don't support HEAD, retry with GET for 405 *)
        if resp_status response =? 405 then
          match fetch (request l GET) n1 with
          | (Resolved getResponse, n2) =>
              ({| link := l; status := Some (resp_status getResponse);
                  error := None; redirectChain := chain |}, n2)
          | (Rejected e, n2) =>
              ({| link := l; status := Some (resp_status response);
                  error := Some (errorText e); redirectChain := chain |}, n2)
          end
        else
          ({| link := l; status := Some (resp_status response);
              error := None; redirectChain := chain |}, n1)
    | (Rejected e, n1) =>
        ({| link := l; status := None; error := Some (errorText e);
            redirectChain := [] |}, n1)
    end in
  (* Cache the result *)
  (result, {| checkedUrls := <[href l := result]> (checkedUrls st); net := n |}).

(** [{ ...cached, link }] *)
Definition withLink (cached : LinkCheckResult) (l : LinkInfo) : LinkCheckResult :=
  {| link := l; status := status cached; error := error cached;
     redirectChain := redirectChain cached |}.

Definition checkLink (l : LinkInfo) (st : VState) : LinkCheckResult * VState :=
  (* Check cache first *)
  match checkedUrls st !! href l with
  | Some cached => (withLink cached l, st)
  | None => fetchLink l st
  end.

(** *** [resultToIssue] *)

(** [status && c status]: [null] and [0] are falsy. *)
Definition status_and (st : option Z) (c : Z -> bool) : bool :=
  match st with
  | Some v => negb (v =? 0) && c v
  | None => false
  end.

Definition opt_detail {A} (f : A -> Detail) (o : option A) : Detail :=
  match o with Some a => f a | None => DNull end.

Definition resultToIssue (result : LinkCheckResult) (viewport : ViewportName)
  : option Issue :=
  let l := link result in
  let st := status result in
  (* Determine if this is an issue *)
  if status_and st (fun v => (200 <=? v) && (v <? 400)) then None
  else
    let '(severity, rule, description) :=
      match truthy_str (error result) with
      | Some err =>
          (* Connection/timeout error *)
          if String.eqb err "Timeout" then
            (moderate, "link-timeout",
             "Link timed out after " ++ string_of_Z (timeout config) ++ "ms: "
               ++ dq ++ text l ++ dq)
          else
            (serious, "link-connection-error",
             "Link connection failed: " ++ dq ++ text l ++ dq
               ++ " (" ++ err ++ ")")
      | None =>
          if bool_decide (st = Some 404) then
            (serious, "broken-link-404",
             "Broken link (404 Not Found): " ++ dq ++ text l ++ dq)
          else if status_and st (fun v => 500 <=? v) then
            (critical, "broken-link-server-error",
             "Link returns server error (" ++ string_of_Z (default 0 st) ++ "): "
               ++ dq ++ text l ++ dq)
          else if status_and st (fun v => 400 <=? v) then
            (moderate, "broken-link-client-error",
             "Link returns error (" ++ string_of_Z (default 0 st) ++ "): "
               ++ dq ++ text l ++ dq)
          else
            (minor, "link-unknown-status",
             "Link returned unexpected status: " ++ dq ++ text l ++ dq)
      end in
    Some {| issue_type := i_network;
            issue_severity := severity;
            issue_rule := rule;
            issue_description := description;
            issue_viewport := Some viewport;
            issue_elements := Some [selector l];
            issue_helpUrl :=
              Some "https://developer.mozilla.org/en-US/docs/Web/HTTP/Status";
            issue_details :=
              [("href", DStr (href l));
               ("linkText", DStr (text l));
               ("status", opt_detail DNum st);
               ("error", opt_detail DStr (error result));
               ("isExternal", DBool (isExternal l));
               ("redirectChain", DStrs (redirectChain result))] |}.

(** *** [clearCache] *)
Definition clearCache (st : VState) : VState :=
  {| checkedUrls := ∅; net := net st |}.

(** *** [checkLinksWithConcurrency]

    Each worker is an async function that takes a link from the shared
    queue, awaits [checkLink] and pushes the result.  A call of [checkLink]
    looks the cache up when it starts and settles later; the calls in
    flight settle in an order the code does not control, given here by a
    schedule: the position, among the calls in flight, of the next one to
    settle. *)
Record Job := {
  job_link : LinkInfo;
  job_cached : option LinkCheckResult     (* the cache entry found at the call *)
}.

Record Pool := {
  pool_queue : list LinkInfo;
  pool_inflight : list Job;
  pool_results : list LinkCheckResult;
  pool_state : VState
}.

(** A worker at the head of its [while]: it takes the next link, if any. *)
Definition takeNext (p : Pool) : Pool :=
  match pool_queue p with
  | [] => p
  | l :: rest =>
      {| pool_queue := rest;
         pool_inflight :=
           pool_inflight p ++
             [ {| job_link := l;
                  job_cached := checkedUrls (pool_state p) !! href l |} ];
         pool_results := pool_results p;
         pool_state := pool_state p |}
  end.

(** The call in flight at position [i] (modulo their number) and the others. *)
Definition pick {A} (i : nat) (l : list A) : option (A * list A) :=
  let k := (i mod length l)%nat in
  match l !! k with
  | Some x => Some (x, (take k l ++ drop (S k) l)%list)
  | None => None
  end.

(** A call settles: its result is pushed and its worker goes round its loop. *)
Definition settle (i : nat) (p : Pool) : Pool :=
  match pick i (pool_inflight p) with
  | None => p
  | Some (job, others) =>
      let (result, st) :=
        match job_cached job with
        | Some cached => (withLink cached (job_link job), pool_state p)
        | None => fetchLink (job_link job) (pool_state p)
        end in
      takeNext {| pool_queue := pool_queue p;
                  pool_inflight := others;
                  pool_results := pool_results p ++ [result];
                  pool_state := st |}
  end.

Fixpoint settleAll (n : nat) (schedule : list nat) (p : Pool) : Pool :=
  match n with
  | O => p
  | S n' => settleAll n' (tail schedule) (settle (hd O schedule) p)
  end.

Definition checkLinksWithConcurrency (links : list LinkInfo) (concurrency : nat)
    (schedule : list nat) (st : VState) : list LinkCheckResult * VState :=
  let workers := Nat.min concurrency (length links) in
  let started :=
    Nat.iter workers takeNext
      {| pool_queue := links; pool_inflight := []; pool_results := [];
         pool_state := st |} in
  (* every link settles exactly once *)
  let final := settleAll (length links) schedule started in
  (pool_results final, pool_state final).

(** *** [validate]

    [extracted] is what [extractLinks] reads from the page and [pageUrl]
    is [page.url()]. *)
Definition validate (pageUrl : string) (extracted : list LinkInfo)
    (viewport : ViewportName) (schedule : list nat)
  : @M VState ValidatorResult :=
  if negb (enabled config) then
    ret {| validator := "brokenLinks"; vr_issues := [] |}
  else
    (* Filter links based on configuration *)
    let* linksToCheck := filterLinks pageUrl extracted in
    (* Check each link with concurrency limit to be polite to servers *)
    let* results :=
      fun st =>
        let (results, st') :=
          checkLinksWithConcurrency linksToCheck 5 schedule st in
        (Ok results, st') in
    (* Convert results to issues *)
    let issues :=
      flat_map (fun result =>
                  match resultToIssue result viewport with
                  | Some issue => [issue]
                  | None => []
                  end) results in
    ret {| validator := "brokenLinks"; vr_issues := issues |}.

(** *** [generateReport] *)

Definition nl : string := String (ascii_of_nat 10) EmptyString.

Definition severity_name (s : IssueSeverity) : string :=
  match s with
  | critical => "critical" | serious => "serious"
  | moderate => "moderate" | minor => "minor"
  end.

Definition isLinkIssue (i : Issue) : bool :=
  match issue_type i with
  | i_network =>
      String.prefix "broken-link" (issue_rule i)
      || String.prefix "link-" (issue_rule i)
  | _ => false
  end.

(** [byRule.set(rule, (byRule.get(rule) || []).concat(issue))]: a [Map]
    keeps its keys in the order of their first insertion. *)
Fixpoint addToRule (rule : string) (issue : Issue)
    (byRule : list (string * list Issue)) : list (string * list Issue) :=
  match byRule with
  | [] => [(rule, [issue])]
  | (r, existing) :: rest =>
      if String.eqb r rule then (r, existing ++ [issue])%list :: rest
      else (r, existing) :: addToRule rule issue rest
  end.

Definition groupByRule (linkIssues : list Issue) : list (string * list Issue) :=
  fold_left (fun byRule issue => addToRule (issue_rule issue) issue byRule)
    linkIssues [].

Definition severity_eqb (a b : IssueSeverity) : bool :=
  match a, b with
  | critical, critical | serious, serious
  | moderate, moderate | minor, minor => true
  | _, _ => false
  end.

(** [severities.includes(s)] *)
Definition has_severity (s : IssueSeverity) (l : list IssueSeverity) : bool :=
  existsb (severity_eqb s) l.

Definition worst (severities : list IssueSeverity) : IssueSeverity :=
  if has_severity critical severities then critical
  else if has_severity serious severities then serious
  else if has_severity moderate severities then moderate
  else minor.

(** A field of [issue.details], its truthiness and its text in a template
    literal. *)
Definition detail (key : string) (i : Issue) : option Detail :=
  snd <$> List.find (fun kv => String.eqb (fst kv) key) (issue_details i).

Definition detail_text (d : Detail) : option string :=
  match d with
  | DNull => None
  | DStr s => if String.eqb s "" then None else Some s
  | DNum n => if n =? 0 then None else Some (string_of_Z n)
  | DBool b => if b then Some "true" else None
  | DStrs l => Some (String.concat "," l)
  end.

Definition issueLines (issue : Issue) : string :=
  "- **" ++ severity_name (issue_severity issue) ++ "**: "
    ++ issue_description issue ++ nl
    ++ "  - URL: " ++ default "unknown" (detail "href" issue ≫= detail_text)
    ++ nl
    ++ match detail "status" issue ≫= detail_text with
       | Some t => "  - Status: " ++ t ++ nl
       | None => ""
       end
    ++ match detail "error" issue ≫= detail_text with
       | Some t => "  - Error: " ++ t ++ nl
       | None => ""
       end.

Definition summaryLine (group : string * list Issue) : string :=
  let (rule, ruleIssues) := group in
  "- **" ++ rule ++ "**: " ++ string_of_Z (Z.of_nat (length ruleIssues))
    ++ " issue(s) (" ++ severity_name (worst (map issue_severity ruleIssues))
    ++ ")" ++ nl.

Definition detailSection (group : string * list Issue) : string :=
  let (rule, ruleIssues) := group in
  "### " ++ rule ++ nl ++ nl
    ++ String.concat "" (map issueLines (take 10 ruleIssues))
    ++ (if (10 <? length ruleIssues)%nat
        then "- ... and " ++ string_of_Z (Z.of_nat (length ruleIssues) - 10)
               ++ " more" ++ nl
        else "")
    ++ nl.

Definition generateReport (issues : list Issue) : string :=
  let linkIssues := List.filter isLinkIssue issues in
  if (length linkIssues =? 0)%nat then
    "# Broken Links Report" ++ nl ++ nl ++ "No broken links found."
  else
    let byRule := groupByRule linkIssues in
    "# Broken Links Report" ++ nl ++ nl
      (* Summary by rule *)
      ++ "## Summary" ++ nl ++ nl
      ++ String.concat "" (map summaryLine byRule)
      ++ nl ++ "## Details" ++ nl ++ nl
      ++ String.concat "" (map detailSection byRule).

End Validator.
End BrokenLinks.

(** ** The escaping of the report writers ([src/cli.ts]) *)

Module Cli.

(** [str.replace(/c/g, text)] for a single character [c] and a
    replacement text without [$]. *)
Fixpoint replaceAll (c : ascii) (text : string) (str : string) : string :=
  match str with
  | EmptyString => EmptyString
  | String d rest =>
      if Ascii.eqb d c then text ++ replaceAll c text rest
      else String d (replaceAll c text rest)
  end.

Definition quot : ascii := ascii_of_nat 34.
Definition apos : ascii := ascii_of_nat 39.

Definition escapeXml (str : string) : string :=
  replaceAll apos "&apos;"
    (replaceAll quot "&quot;"
       (replaceAll ">" "&gt;"
          (replaceAll "<" "&lt;"
             (replaceAll "&" "&amp;" str)))).

Definition escapeHtml (str : string) : string :=
  replaceAll quot "&quot;"
    (replaceAll ">" "&gt;"
       (replaceAll "<" "&lt;"
          (replaceAll "&" "&amp;" str))).

End Cli.

(** * Vocabulary of the properties *)

Section Keeping.
Context {Σ : Type}.

(** A relation between the state before and the state after holds whatever
    the computation does. *)
Definition keeps (R : Σ -> Σ -> Prop) {A} (m : @M Σ A) : Prop :=
  forall s, R s (snd (m s)).

End Keeping.

Section ExplorerVocabulary.
Context {W Page Snapshot : Type}.
Variable env : Env W Page Snapshot.
Variable config : ExplorerConfig.

Abbreviation St := (ExState W).
Abbreviation Crawl := (@M St).

(** A relation on the explorer's fields, read on whole states. *)
Definition on_core (R : Core -> Core -> Prop) (s s' : St) : Prop :=
  R (core s) (core s').

(** The visited set, the start states and the set of graph nodes are the
    same; the queue, the transitions and the events may differ. *)
Definition same_nodes (c c' : Core) : Prop :=
  visited c' = visited c
  /\ startStates c' = startStates c
  /\ dom (states c') = dom (states c).

(** The effect of visiting a state that is new: its id joins the visited
    set, and either the graph nodes and start states are as before (a
    validator threw before the node was added) or the node is added, and
    its id becomes the start state if the graph was empty. *)
Definition visit_effect (id : string) (c c' : Core) : Prop :=
  visited c' = {[ id ]} ∪ visited c
  /\ (id ∉ dom (states c) ->
      (dom (states c') = dom (states c) /\ startStates c' = startStates c)
      \/ (dom (states c') = {[ id ]} ∪ dom (states c)
          /\ startStates c'
             = if bool_decide (dom (states c) = ∅)
               then (startStates c ++ [id])%list
               else startStates c)).

(** What a result pushed for a selector of [ui.visible] looks like, and for
    a selector of [ui.hidden]. *)
Definition visible_report (selector : string) (r : VerificationResult) : Prop :=
  vtype r = v_ui /\
  ((passed r = true /\ message r = "Element " ++ selector ++ " is visible") \/
   (passed r = false /\ message r = "Element " ++ selector ++ " is not visible") \/
   (passed r = false /\ message r = "Element " ++ selector ++ " not found")).

Definition hidden_report (selector : string) (r : VerificationResult) : Prop :=
  vtype r = v_ui /\
  ((passed r = false /\ message r = "Element " ++ selector ++ " is still visible") \/
   (passed r = true /\ message r = "Element " ++ selector ++ " is hidden") \/
   (passed r = true /\ message r = "Element " ++ selector ++ " is not present")).

(** The result pushed for [ui.url] when the test of the pattern answers
    [matches]. *)
Definition url_report (p : Pattern) (url : string) (matches : bool)
  : VerificationResult :=
  {| passed := matches;
     message := if matches
                then "URL matches " ++ pattern_toString p
                else "URL " ++ url ++ " does not match " ++ pattern_toString p;
     vtype := v_ui;
     expected := Some (pattern_toString p);
     actual := Some url |}.






(** The individual checks the code performs for one expectation, in its
    order: one for [database] when the [supabase] adapter is registered,
    one per selector of [ui.visible] and of [ui.hidden] and one for
    [ui.url], one for [api], one for [service] when its adapter is
    registered. *)
Definition checks_of (page : Page) (e : ActionExpectation)
  : list (Crawl VerificationResult) :=
  (match exp_database e, adapters_get env "supabase" with
   | Some database, Some verify =>
       [call (verify (DbChange_toString (db_change database))
                (ExpectsDatabase database))]
   | _, _ => []
   end
   ++ match exp_ui e with
      | Some ui =>
          map (checkVisible env page) (default [] (ui_visible ui))
          ++ map (checkHidden env page) (default [] (ui_hidden ui))
          ++ match truthy_pattern (ui_url ui) with
             | Some p => [checkUrl env page p]
             | None => []
             end
      | None => []
      end
   ++ match exp_api e with
      | Some _ => [ret apiNotImplemented]
      | None => []
      end
   ++ match exp_service e with
      | Some service =>
          match adapters_get env (svc_adapter service) with
          | Some verify =>
              [call (verify (svc_action service)
                       (ExpectsRecord (svc_expects service)))]
          | None => []
          end
      | None => []
      end)%list.

(** The checks of a list are run one after the other and all return, each
    in the state left by the one before: the results, one per check. *)
Inductive checked {B : Type}
  : list (Crawl B) -> St -> list B -> St -> Prop :=
| checked_nil s : checked [] s [] s
| checked_cons check rest s r s1 rs s2 :
    check s = (Ok r, s1) ->
    checked rest s1 rs s2 ->
    checked (check :: rest) s (r :: rs) s2.

(** Running the checks of a list one after the other and gathering their
    results; the first error ends the run. *)
Fixpoint run_checks {B : Type} (l : list (Crawl B)) : Crawl (list B) :=
  match l with
  | [] => ret []
  | first :: rest =>
      let* r := first in
      let* rs := run_checks rest in
      ret (r :: rs)
  end.

(** *** The loop: the states it goes through *)

Definition state_after (st : @LoopStep W) : St :=
  match st with
  | Left s => s
  | Skipped s => s
  | Explored _ _ s => s
  end.

(** [loop_head s0 s]: started in [s0], the loop is at its head in [s]. *)
Inductive loop_head (s0 : St) : St -> Prop :=
| head_start : loop_head s0 s0
| head_skipped s s' :
    loop_head s0 s -> loop_step env config s = Skipped s' -> loop_head s0 s'
| head_explored s task s' :
    loop_head s0 s -> loop_step env config s = Explored task (Ok tt) s' ->
    loop_head s0 s'.

(** The state in which [explore] enters the loop, for an explorer fresh
    from its constructor in the world [w]. *)
Definition entry (w : W) : St :=
  snd ((emit EvStart ;; explore_start env config)
         {| core := new_core; world := w |}).

(** The start states mirror the graph: none while the graph is empty,
    exactly one afterwards. *)
Definition start_inv (c : Core) : Prop :=
  (dom (states c) = ∅ /\ startStates c = [])
  \/ (dom (states c) ≠ ∅ /\ exists id, startStates c = [id]).

Definition loop_inv (c : Core) : Prop :=
  dom (states c) ⊆ visited c
  /\ Z.of_nat (size (visited c)) <= Z.max 0 (statesCap config)
  /\ start_inv c.

Definition ends_at_empty_queue_or_cap (r : Res unit) (s' : St) : Prop :=
  r = Ok tt ->
  queue (core s') = []
  \/ statesCap config <= Z.of_nat (size (visited (core s'))).

End ExplorerVocabulary.

Section LinkVocabulary.
Import BrokenLinks.
Context {Net : Type}.
Variable fetch : Request -> Net -> FetchOutcome * Net.
Variable config : BrokenLinksValidatorConfig.


(** How bad a severity is. *)
Definition severity_rank (s : IssueSeverity) : nat :=
  match s with critical => 3 | serious => 2 | moderate => 1 | minor => 0 end.

(** The issues of [l] that carry the rule [rule], in the order of [l]. *)
Definition with_rule (rule : string) (l : list Issue) : list Issue :=
  List.filter (fun i => String.eqb (issue_rule i) rule) l.

End LinkVocabulary.

Section EscapeVocabulary.

(** Escaping in one pass: every character is replaced by its entity, or
    kept. *)
Definition xml_entity (c : ascii) : string :=
  if Ascii.eqb c "&" then "&amp;"
  else if Ascii.eqb c "<" then "&lt;"
  else if Ascii.eqb c ">" then "&gt;"
  else if Ascii.eqb c Cli.quot then "&quot;"
  else if Ascii.eqb c Cli.apos then "&apos;"
  else String c EmptyString.

Definition html_entity (c : ascii) : string :=
  if Ascii.eqb c Cli.apos then String c EmptyString else xml_entity c.

Fixpoint escape_each (entity : ascii -> string) (str : string) : string :=
  match str with
  | EmptyString => EmptyString
  | String c rest => entity c ++ escape_each entity rest
  end.

(** The characters of a text. *)
Definition has_char (c : ascii) (str : string) : Prop :=
  In c (list_ascii_of_string str).

End EscapeVocabulary.

(** ** More vocabulary: the queue, the graph and growth *)

Section RunVocabulary.

(** A task queued while exploring [task]: one action further, in the same
    viewport. *)
Definition child_of (task child : ExplorationTask) : Prop :=
  task_depth child = task_depth task + 1
  /\ (exists action, task_path child = (task_path task ++ [action])%list)
  /\ task_viewport child = task_viewport task.

(** The depth of a task is the number of actions to replay. *)
Definition depth_is_path_length (t : ExplorationTask) : Prop :=
  task_depth t = Z.of_nat (length (task_path t)).

(** The depths of a queue do not decrease from head to tail and stay
    within [d .. d + 1]. *)
Definition level_order (d : Z) (q : list ExplorationTask) : Prop :=
  StronglySorted (fun a b => task_depth a <= task_depth b) q
  /\ Forall (fun t => d <= task_depth t <= d + 1) q.

(** Breadth-first order of a queue: level order from the depth of its
    head. *)
Definition breadth_first (q : list ExplorationTask) : Prop :=
  match q with
  | [] => True
  | t :: _ => level_order (task_depth t) q
  end.

(** A node sits under its own id and its transitions start from it. *)
Definition node_wf (id : string) (node : StateNode) : Prop :=
  state_id (node_state node) = id
  /\ Forall (fun t => tr_fromState t = id) (node_transitions node).

Definition graph_wf (c : Core) : Prop :=
  map_Forall node_wf (states c).

(** Nothing is forgotten: the visited set and the set of graph nodes grow,
    the events and the start states are extended at their end. *)
Definition grows (c c' : Core) : Prop :=
  visited c ⊆ visited c'
  /\ dom (states c) ⊆ dom (states c')
  /\ (exists l, events c' = (events c ++ l)%list)
  /\ (exists l, startStates c' = (startStates c ++ l)%list).

End RunVocabulary.

Section StepVocabulary.
Context {W Page Snapshot : Type}.
Variable env : Env W Page Snapshot.
Variable config : ExplorerConfig.

(** The body of the [try] in [replayPath]: one action and the short wait
    after it. *)
Definition replay_step (page : Page) (action : Action) : M unit :=
  executeAction env config page action ;;
  call (pageCall env page (PWaitForTimeout 100)).

(** The keys of the placeholders that occur in a text. *)
Fixpoint placeholder_keys (value : string) : list string :=
  match value with
  | EmptyString => []
  | String _ rest =>
      match match_placeholder value with
      | Some (key, _) => key :: placeholder_keys rest
      | None => placeholder_keys rest
      end
  end.

End StepVocabulary.

(** * A small simulated application

    A concrete world on which the models run: a page that is a counter,
    [goto] resets it, clicking [#next] advances it, and the fingerprint of
    the page is the value of the counter.  The selector [#boom] cannot be
    found, the selector [#gone] makes [isVisible] throw, and the [supabase]
    adapter loses its connection when asked to verify a [delete]. *)

Module Sim.

Record World := {
  counter : nat;
  calls : list string;             (* the calls received, oldest first *)
  cursors : list (nat * nat)       (* the [lastIndex] of the RegExp objects *)
}.

Definition logged (call : string) (w : World) : World :=
  {| counter := counter w; calls := calls w ++ [call];
     cursors := cursors w |}.

Definition moved (n : nat) (w : World) : World :=
  {| counter := n; calls := calls w; cursors := cursors w |}.

(** A small regular-expression engine: a source matches the texts that
    contain it, and the source [(] is malformed.  An object with the [g]
    flag searches from its [lastIndex] and leaves it behind the match, or
    at 0 when there is none. *)
Definition syntaxError (source : string) : option Thrown :=
  if String.eqb source "("
  then Some (ErrorObj "SyntaxError"
               "Invalid regular expression: /(/: Unterminated group")
  else None.

Definition lastIndex (r : RegExp) (w : World) : nat :=
  match List.find (fun kv => Nat.eqb (fst kv) (re_object r)) (cursors w) with
  | Some kv => snd kv
  | None => O
  end.

Definition set_lastIndex (r : RegExp) (i : nat) (w : World) : World :=
  {| counter := counter w; calls := calls w;
     cursors :=
       (re_object r, i)
         :: List.filter (fun kv => negb (Nat.eqb (fst kv) (re_object r)))
              (cursors w) |}.

Definition testObject (r : RegExp) (text : string) (w : World)
  : bool * World :=
  if includes (re_flags r) "g" then
    match String.index (lastIndex r w) (re_source r) text with
    | Some i =>
        (true, set_lastIndex r (i + String.length (re_source r)) w)
    | None => (false, set_lastIndex r 0 w)
    end
  else (includes text (re_source r), w).

Definition fingerprint (vp : ViewportName) (w : World) : AppState :=
  {| state_id := "s" ++ string_of_Z (Z.of_nat (counter w));
     state_url := "http://app/";
     state_title := "app";
     state_domFingerprint := string_of_Z (Z.of_nat (counter w));
     state_viewport := vp;
     state_screenshot := None |}.

Definition next : Action :=
  {| action_type := click; action_selector := "#next";
     action_label := "Next"; action_value := None;
     action_role := Some "button"; action_destructive := false;
     action_visible := true; action_enabled := true |}.

Definition boom : Action :=
  {| action_type := click; action_selector := "#boom";
     action_label := "Boom"; action_value := None;
     action_role := Some "button"; action_destructive := false;
     action_visible := true; action_enabled := true |}.

Definition supabase_verify (action : string) (_ : VerifyExpects) (w : World)
  : Res VerificationResult * World :=
  if String.eqb action "delete"
  then (Throw (ErrorObj "Error" "connection lost"), logged "verify" w)
  else (Ok {| passed := String.eqb action "insert";
              message := "rows checked for " ++ action;
              vtype := v_database; expected := None; actual := None |},
        logged "verify" w).

(** An adapter that always answers. *)
Definition steady_verify (action : string) (_ : VerifyExpects) (w : World)
  : Res VerificationResult * World :=
  (Ok {| passed := String.eqb action "insert";
         message := "rows checked for " ++ action;
         vtype := v_database; expected := None; actual := None |},
   logged "verify" w).

Definition env_with
    (verify : string -> VerifyExpects -> World -> Res VerificationResult * World)
    (offered : list Action) : Env World unit unit :=
  {| regexSyntaxError := syntaxError;
     regexMatch := fun source _ text => includes text source;
     regexTest := testObject;
     newPage := fun w => (Ok tt, logged "newPage" w);
     setViewportSize := fun _ _ w => (Ok tt, w);
     goto := fun _ _ _ w => (Ok tt, moved 0 (logged "goto" w));
     pageUrl := fun _ _ => "http://app/";
     locatorCall := fun _ sel c _ w =>
       if String.eqb sel "#boom"
       then (Throw (ErrorObj "TimeoutError" "element not found"), w)
       else match c with
            | LClick =>
                if String.eqb sel "#next"
                then (Ok tt, moved (S (counter w)) (logged "click" w))
                else (Ok tt, w)
            | _ => (Ok tt, w)
            end;
     isVisible := fun _ sel w =>
       if String.eqb sel "#gone"
       then (Throw (ErrorObj "Error" "page closed"), w)
       else (Ok (String.eqb sel "#shown"), w);
     pageCall := fun _ c w =>
       match c with
       | PClick sel _ =>
           if String.eqb sel "#absent"
           then (Throw (ErrorObj "TimeoutError" "no such element"), w)
           else (Ok tt, logged "setup-click" w)
       | PClose => (Ok tt, logged "close" w)
       | _ => (Ok tt, w)
       end;
     captureState := fun _ vp w => (Ok (fingerprint vp w), w);
     adapters_get := fun name =>
       if String.eqb name "supabase" then Some verify else None;
     captureAllStates := fun w => (Ok tt, w);
     accessibilityValidate := fun _ _ w =>
       (Ok {| validator := "accessibility"; vr_issues := [] |},
        logged "validate" w);
     responsiveValidate := fun _ _ w =>
       (Ok {| validator := "responsive"; vr_issues := [] |},
        logged "validate" w);
     discoverActions := fun _ _ w => (Ok offered, logged "discover" w);
     prioritizeActions := fun l => l;
     consoleErrors := fun _ => [];
     clearConsoleErrors := fun w => w;
     callGenerator := fun _ w => (Ok (PrimStr "generated"), w);
     inheritedMember := fun key =>
       if String.eqb key "toString" then Some (Ok "[object Undefined]")
       else if String.eqb key "constructor" then Some (Ok "[object Object]")
       else if String.eqb key "valueOf"
       then Some (Throw (ErrorObj "TypeError"
                           "Cannot convert undefined or null to object"))
       else None;
     initialize := fun w => (Ok tt, w);
     cleanup := fun w => (Ok tt, w) |}.

Definition env : list Action -> Env World unit unit :=
  env_with supabase_verify.

(** The same application with some of its operations out of order: those
    named in [broken] throw. *)
Definition failing (broken : list string) (offered : list Action)
  : Env World unit unit :=
  let e := env offered in
  let down (name : string) := existsb (String.eqb name) broken in
  let err := ErrorObj "Error" "Target closed" in
  {| regexSyntaxError := regexSyntaxError e;
     regexMatch := regexMatch e;
     regexTest := regexTest e;
     newPage := fun w =>
       if down "newPage" then (Throw err, w) else newPage e w;
     setViewportSize := setViewportSize e;
     goto := goto e;
     pageUrl := pageUrl e;
     locatorCall := locatorCall e;
     isVisible := isVisible e;
     pageCall := fun p c w =>
       match c with
       | PClose => if down "close" then (Throw err, w) else pageCall e p c w
       | _ => pageCall e p c w
       end;
     captureState := captureState e;
     adapters_get := adapters_get e;
     captureAllStates := captureAllStates e;
     accessibilityValidate := fun p vp w =>
       if down "audit" then (Throw err, logged "validate" w)
       else accessibilityValidate e p vp w;
     responsiveValidate := responsiveValidate e;
     discoverActions := discoverActions e;
     prioritizeActions := prioritizeActions e;
     consoleErrors := consoleErrors e;
     clearConsoleErrors := clearConsoleErrors e;
     callGenerator := callGenerator e;
     inheritedMember := inheritedMember e;
     initialize := initialize e;
     cleanup := cleanup e |}.

Definition limits (depth states : option Z) : ExplorationLimits :=
  {| maxDepth := depth; maxStates := states; maxActionsPerState := Some 50;
     timeout := Some 10000; viewports := Some [desktop];
     waitForNetworkIdle := Some false; actionDelay := None |}.

Definition config (depth states : option Z) (schemas : list ActionSchema)
  : ExplorerConfig :=
  {| baseUrl := "http://app/"; startUrls := None;
     actionSchemas := Some schemas; testData := None;
     validators :=
       Some {| accessibility_enabled := Some true;
               responsive_enabled := Some true;
               console_config := None |};
     exploration := Some (limits depth states);
     ignore := Some [];
     output := None |}.






(** Expectations on the page. *)
Definition expect_ui (visible : list string) (url : option Pattern)
  : UiExpectation :=
  {| ui_visible := Some visible; ui_hidden := None; ui_text := None;
     ui_url := url; ui_title := None |}.

Definition fresh : World := {| counter := 0; calls := []; cursors := [] |}.

Definition start : ExState World := {| core := new_core; world := fresh |}.

Definition task0 : ExplorationTask :=
  {| task_url := "http://app/"; task_path := []; task_depth := 0;
     task_viewport := desktop |}.

Definition cfg : ExplorerConfig := config (Some 2) (Some 10) [].

(** The explorer once it has visited the start page, where nothing was
    offered to click. *)
Definition seen : ExState World :=
  snd (exploreTask (env []) cfg task0 start).

(** Expectations on the database. *)
Definition expect_db (change : DbChange) : ActionExpectation :=
  {| exp_database :=
       Some {| db_table := "songs"; db_change := change; db_where := None;
               db_count := None; db_values := None |};
     exp_api := None; exp_ui := None; exp_service := None |}.

(** Setup steps that click an element. *)
Definition click_step (selector : string) (optional : bool) : SetupStep :=
  {| step_fill := None; step_click := Some selector; step_select := None;
     step_value := None; step_waitFor := None; step_delay := None;
     step_optional := Some optional |}.

(** A site with three links for the link checker. *)
Definition link (path : string) : BrokenLinks.LinkInfo :=
  {| BrokenLinks.href := "http://app/" ++ path;
     BrokenLinks.text := path;
     BrokenLinks.selector := "a[href=" ++ path ++ "]";
     BrokenLinks.isExternal := false |}.

Definition response (code : Z) (url : string) : BrokenLinks.Response :=
  {| BrokenLinks.resp_status := code; BrokenLinks.resp_redirected := false;
     BrokenLinks.resp_url := url |}.

Definition fetch (r : BrokenLinks.Request) (n : unit)
  : BrokenLinks.FetchOutcome * unit :=
  let url := BrokenLinks.req_url r in
  if String.eqb url "http://app/missing"
  then (BrokenLinks.Resolved (response 404 url), n)
  else if String.eqb url "http://app/slow"
  then (BrokenLinks.Rejected
          (ErrorObj "AbortError" "This operation was aborted"), n)
  else (BrokenLinks.Resolved (response 200 url), n).

(** Every address is on the one origin; its path is the address itself. *)
Definition parseURL (url : string) : option (string * string) :=
  Some ("http://app", url).

Definition no_links_checked : @BrokenLinks.VState unit :=
  {| BrokenLinks.checkedUrls := ∅; BrokenLinks.net := tt |}.

(** The regular expressions of the link checker: the same engine, on
    objects without flags. *)
Definition matches (source : string) (_ : bool) (text : string) : bool :=
  includes text source.

Definition testPlain (r : RegExp) (text : string) (n : unit) : bool * unit :=
  (includes text (re_source r), n).

(** The default settings with patterns to ignore. *)
Definition ignoring (patterns : list Pattern)
  : BrokenLinks.BrokenLinksValidatorConfig :=
  let d := BrokenLinks.DEFAULT_CONFIG in
  {| BrokenLinks.enabled := BrokenLinks.enabled d;
     BrokenLinks.checkExternal := BrokenLinks.checkExternal d;
     BrokenLinks.checkInternal := BrokenLinks.checkInternal d;
     BrokenLinks.timeout := BrokenLinks.timeout d;
     BrokenLinks.ignorePatterns := patterns;
     BrokenLinks.followRedirects := BrokenLinks.followRedirects d;
     BrokenLinks.maxRedirects := BrokenLinks.maxRedirects d |}.

End Sim.

(** * Properties *)

(** ** Reasoning about computations *)

Section MonadFacts.
Context {Σ : Type}.

Lemma bind_ok {A B} (m : @M Σ A) (k : A -> M B) s a s' :
  m s = (Ok a, s') -> bind m k s = k a s'.
Proof. intros H. unfold bind. now rewrite H. Qed.

Lemma bind_throw {A B} (m : @M Σ A) (k : A -> M B) s e s' :
  m s = (Throw e, s') -> bind m k s = (Throw e, s').
Proof. intros H. unfold bind. now rewrite H. Qed.

Lemma try_catch_ok {A} (m : @M Σ A) h s a s' :
  m s = (Ok a, s') -> try_catch m h s = (Ok a, s').
Proof. intros H. unfold try_catch. now rewrite H. Qed.

Lemma try_catch_throw {A} (m : @M Σ A) h s e s' :
  m s = (Throw e, s') -> try_catch m h s = h e s'.
Proof. intros H. unfold try_catch. now rewrite H. Qed.

Lemma for_of_app {A} (l1 l2 : list A) (body : A -> @M Σ unit) s :
  for_of (l1 ++ l2) body s =
  match for_of l1 body s with
  | (Ok _, s') => for_of l2 body s'
  | (Throw e, s') => (Throw e, s')
  end.
Proof.
  revert s. induction l1 as [|x l1 IH]; intros s; simpl.
  - reflexivity.
  - unfold bind. destruct (body x s) as [[[]|e] s1]; [apply IH | reflexivity].
Qed.

Section Keeps.
Context (R : Σ -> Σ -> Prop) `{!PreOrder R}.

Lemma keeps_ret {A} (a : A) : keeps R (ret a).
Proof. intros s. simpl. reflexivity. Qed.

Lemma keeps_throw {A} e : keeps R (@throw Σ A e).
Proof. intros s. simpl. reflexivity. Qed.

Lemma keeps_bind {A B} (m : M A) (k : A -> M B) :
  keeps R m -> (forall a, keeps R (k a)) -> keeps R (bind m k).
Proof.
  intros Hm Hk s. unfold bind. specialize (Hm s).
  destruct (m s) as [[a|e] s1]; simpl in *; [|assumption].
  etransitivity; [eassumption | apply Hk].
Qed.

Lemma keeps_try_catch {A} (m : M A) h :
  keeps R m -> (forall e, keeps R (h e)) -> keeps R (try_catch m h).
Proof.
  intros Hm Hh s. unfold try_catch. specialize (Hm s).
  destruct (m s) as [[a|e] s1]; simpl in *; [assumption|].
  etransitivity; [eassumption | apply Hh].
Qed.

Lemma keeps_try_finally {A} (m : M A) f :
  keeps R m -> keeps R f -> keeps R (try_finally m f).
Proof.
  intros Hm Hf s. unfold try_finally. specialize (Hm s).
  destruct (m s) as [r s1]. specialize (Hf s1).
  destruct (f s1) as [[[]|e] s2]; simpl in *; etransitivity; eassumption.
Qed.

Lemma keeps_for_of {A} (l : list A) body :
  (forall x, keeps R (body x)) -> keeps R (for_of l body).
Proof.
  intros Hb. induction l as [|x l IH]; simpl.
  - apply keeps_ret.
  - apply keeps_bind; [apply Hb | intros _; apply IH].
Qed.

Lemma keeps_when c (m : M unit) : keeps R m -> keeps R (when c m).
Proof. destruct c; simpl; [trivial | intros _; apply keeps_ret]. Qed.

Lemma keeps_when_some {A} (o : option A) (m : A -> M unit) :
  (forall a, keeps R (m a)) -> keeps R (when_some o m).
Proof. destruct o; simpl; [trivial | intros _; apply keeps_ret]. Qed.

End Keeps.
End MonadFacts.

(** ** Which fields of the explorer an operation can change *)

Section Frames.
Context {W Page Snapshot : Type}.
Variable env : Env W Page Snapshot.
Variable config : ExplorerConfig.

Abbreviation St := (ExState W).
Abbreviation Crawl := (@M St).

#[local] Instance on_core_preorder R `{!PreOrder R} :
  PreOrder (@on_core W R).
Proof.
  split.
  - intros s. unfold on_core. reflexivity.
  - intros a b c Hab Hbc. unfold on_core in *. etransitivity; eassumption.
Qed.

Section AnyRelation.
Context (R : Core -> Core -> Prop) `{!PreOrder R}.

Lemma keeps_call {A} (op : W -> Res A * W) : keeps (@on_core W R) (call op).
Proof.
  intros s. unfold call, on_core. destruct (op (world s)); simpl. reflexivity.
Qed.

Lemma keeps_observe {A} (f : W -> A) : keeps (@on_core W R) (observe f).
Proof. intros s. unfold on_core. simpl. reflexivity. Qed.

Lemma keeps_get {A} (f : Core -> A) : keeps (@on_core W R) (get f).
Proof. intros s. unfold on_core. simpl. reflexivity. Qed.

Lemma keeps_update f : (forall c, R c (f c)) -> keeps (@on_core W R) (update f).
Proof. intros H s. unfold on_core. simpl. apply H. Qed.

(** One step of a proof that a computation keeps a relation. *)
Ltac keeps_step :=
  first
    [ apply keeps_ret | apply keeps_throw | apply keeps_call
    | apply keeps_observe | apply keeps_get
    | apply keeps_bind; [| |intros ?]
    | apply keeps_try_catch; [| |intros ?]
    | apply keeps_for_of; [|intros ?]
    | apply keeps_when
    | apply keeps_when_some; [|intros ?]
    | match goal with
      | |- keeps _ (match ?x with _ => _ end) => destruct x
      | |- keeps _ (let (_, _) := ?x in _) => destruct x
      end ];
  try apply _.

Lemma keeps_executeAction page action :
  keeps (@on_core W R) (executeAction env config page action).
Proof. unfold executeAction. cbv zeta. repeat keeps_step. Qed.

Lemma keeps_replayPath page path :
  keeps (@on_core W R) (replayPath env config page path).
Proof.
  induction path as [|a path IH]; simpl.
  - keeps_step.
  - apply keeps_bind; [apply _ | |].
    + apply keeps_try_catch; [apply _ | | intros ?; keeps_step].
      apply keeps_bind; [apply _ | apply keeps_executeAction | intros _].
      repeat keeps_step.
    + intros []; [apply IH | keeps_step].
Qed.

Lemma keeps_replace_placeholders table s : forall skip,
  keeps (@on_core W R) (replace_placeholders env table skip s).
Proof.
  induction s as [|c s IH]; intros skip; simpl.
  - keeps_step.
  - destruct skip; [|apply IH].
    destruct (match_placeholder (String c s)) as [[key len]|].
    + apply keeps_bind; [apply _ | |].
      * unfold replacement. repeat keeps_step.
      * intros v. apply keeps_bind; [apply _ | apply IH | intros; keeps_step].
    + apply keeps_bind; [apply _ | apply IH | intros; keeps_step].
Qed.

Lemma keeps_resolveTestData value :
  keeps (@on_core W R) (resolveTestData env config value).
Proof.
  unfold resolveTestData. destruct (testData config).
  - apply keeps_replace_placeholders.
  - keeps_step.
Qed.

Lemma keeps_runSetupStep page step :
  keeps (@on_core W R) (runSetupStep env config page step).
Proof.
  unfold runSetupStep.
  repeat first [ apply keeps_resolveTestData | keeps_step ].
Qed.

Lemma keeps_executeSetup page steps :
  keeps (@on_core W R) (executeSetup env config page steps).
Proof.
  unfold executeSetup. apply keeps_for_of; [apply _|]. intros step.
  apply keeps_try_catch; [apply _ | apply keeps_runSetupStep |].
  intros e. destruct (truthy_bool _); keeps_step.
Qed.

Lemma keeps_patternTest ignoreCase p text :
  keeps (@on_core W R) (patternTest env ignoreCase p text).
Proof.
  unfold patternTest, testPattern. destruct p as [source|r].
  - destruct (regexSyntaxError env source); keeps_step.
  - intros s. unfold on_core, regexTestIn.
    destruct (regexTest env r text (world s)). simpl. reflexivity.
Qed.

Lemma keeps_patternSome patterns text :
  keeps (@on_core W R) (patternSome env patterns text).
Proof.
  unfold patternSome. induction patterns as [|p rest IH]; simpl.
  - keeps_step.
  - apply keeps_bind; [apply _ | apply keeps_patternTest |].
    intros []; [keeps_step | exact IH].
Qed.

Lemma keeps_schemaMatches schema action page :
  keeps (@on_core W R) (schemaMatches env schema action page).
Proof.
  unfold schemaMatches. cbv zeta.
  repeat first [ apply keeps_patternTest | keeps_step ].
Qed.

Lemma keeps_findMatchingSchema action page :
  keeps (@on_core W R) (findMatchingSchema env config action page).
Proof.
  unfold findMatchingSchema. destruct (actionSchemas config) as [schemas|];
    [|keeps_step].
  induction schemas as [|schema rest IH]; simpl; [keeps_step|].
  apply keeps_bind; [apply _ | apply keeps_schemaMatches |].
  intros []; [keeps_step | exact IH].
Qed.

Lemma keeps_collect {A B} (l : list A) (body : A -> Crawl (list B)) :
  (forall x, keeps (@on_core W R) (body x)) ->
  forall acc, keeps (@on_core W R) (collect l acc body).
Proof.
  intros Hb. induction l as [|x l IH]; intros acc; simpl.
  - apply keeps_ret; apply _.
  - apply keeps_bind; [apply _ | apply Hb | intros; apply IH].
Qed.

Lemma keeps_verifyUiExpectations page ui :
  keeps (@on_core W R) (verifyUiExpectations env page ui).
Proof.
  unfold verifyUiExpectations, checkUrl, push. cbv zeta.
  repeat first
    [ apply keeps_collect; intros ?; unfold checkVisible, checkHidden
    | apply keeps_patternTest
    | keeps_step ].
Qed.

Lemma keeps_verifyExpectation page e :
  keeps (@on_core W R) (verifyExpectation env page e).
Proof.
  unfold verifyExpectation, push. cbv zeta.
  repeat first [ apply keeps_verifyUiExpectations | keeps_step ].
Qed.

Lemma keeps_verifyExpectations expects page pre :
  keeps (@on_core W R) (verifyExpectations env expects page pre).
Proof.
  unfold verifyExpectations. apply keeps_collect.
  intros e. apply keeps_verifyExpectation.
Qed.

Lemma keeps_performAndVerify page action task :
  keeps (@on_core W R) (performAndVerify env config page action task).
Proof.
  unfold performAndVerify.
  repeat first
    [ apply keeps_findMatchingSchema | apply keeps_executeSetup
    | apply keeps_executeAction | apply keeps_verifyExpectations
    | keeps_step ].
Qed.

Lemma keeps_backtrack page task :
  keeps (@on_core W R) (backtrack env config page task).
Proof.
  unfold backtrack. apply keeps_bind; [apply _ | apply keeps_call |].
  intros _. apply keeps_replayPath.
Qed.

Lemma keeps_reachState page task :
  keeps (@on_core W R) (reachState env config page task).
Proof.
  unfold reachState.
  repeat first [ apply keeps_replayPath | keeps_step ].
Qed.

Lemma keeps_takeScreenshot page state :
  keeps (@on_core W R) (takeScreenshot env config page state).
Proof. unfold takeScreenshot. repeat keeps_step. Qed.

End AnyRelation.
End Frames.

(** ** Properties of the explorer *)

Section ExplorerProps.
Context {W Page Snapshot : Type}.
Variable env : Env W Page Snapshot.
Variable config : ExplorerConfig.

Abbreviation St := (ExState W).
Abbreviation Crawl := (@M St).

(** Operations that only talk to the outside world leave the explorer's
    fields as they were. *)
Lemma reachState_core page task s :
  core (snd (reachState env config page task s)) = core s.
Proof. symmetry. apply (keeps_reachState env config eq page task s). Qed.

Lemma backtrack_core page task s :
  core (snd (backtrack env config page task s)) = core s.
Proof. symmetry. apply (keeps_backtrack env config eq page task s). Qed.

Lemma performAndVerify_core page action task s :
  core (snd (performAndVerify env config page action task s)) = core s.
Proof.
  symmetry. apply (keeps_performAndVerify env config eq page action task s).
Qed.

Lemma call_core {A} (op : W -> Res A * W) (s : St) :
  core (snd (call op s)) = core s.
Proof. unfold call. now destruct (op (world s)). Qed.

(** C3: a dequeued task whose fingerprinted state is already in the visited
    set is discarded.  The whole of [exploreTask] then amounts to opening the
    page, reaching and fingerprinting the state, and closing the page: what
    it returns and the world it leaves are those of closing the page right
    after the fingerprint, so no validator, no action discovery and no
    candidate action ran; and the visited set, the queue, the graph (nodes,
    issues, start states) and the emitted events are unchanged. *)
Theorem exploreTask_visited_state_discards_task
    (task : ExplorationTask) (s : St) (page : Page) (w1 : W)
    (state : AppState) (s2 : St) :
  newPage env (world s) = (Ok page, w1) ->
  reachState env config page task {| core := core s; world := w1 |}
    = (Ok state, s2) ->
  state_id state ∈ visited (core s) ->
  exploreTask env config task s = call (pageCall env page PClose) s2
  /\ core (snd (exploreTask env config task s)) = core s.
Proof.
  intros Hpage Hreach Hseen.
  assert (Hcore : core s2 = core s).
  { pose proof (reachState_core page task {| core := core s; world := w1 |}) as H.
    now rewrite Hreach in H. }
  assert (Heq : exploreTask env config task s
                = call (pageCall env page PClose) s2).
  { unfold exploreTask.
    rewrite (bind_ok _ _ s page {| core := core s; world := w1 |})
      by (unfold call; now rewrite Hpage).
    unfold try_finally, try_catch.
    rewrite (bind_ok _ _ _ state s2 Hreach).
    unfold bind at 1. unfold get at 1. cbv beta iota.
    rewrite Hcore, bool_decide_eq_true_2 by assumption.
    unfold ret at 1.
    destruct (call (pageCall env page PClose) s2) as [[[]|e] s3]; reflexivity. }
  split; [exact Heq|].
  rewrite Heq, call_core. exact Hcore.
Qed.

(** *** Verification of UI expectations *)

Lemma collect_acc {A B} (l : list A) (body : A -> Crawl (list B)) :
  forall acc s,
    collect l acc body s =
    match collect l [] body s with
    | (Ok rs, s') => (Ok (acc ++ rs)%list, s')
    | (Throw e, s') => (Throw e, s')
    end.
Proof.
  induction l as [|x l IH]; intros acc s; simpl.
  - unfold ret. now rewrite app_nil_r.
  - unfold bind. destruct (body x s) as [[r|e] s1]; [|reflexivity].
    rewrite (IH (acc ++ r)%list), (IH r).
    destruct (collect l [] body s1) as [[rs|e] s2]; [|reflexivity].
    now rewrite app_assoc.
Qed.

Lemma collect_cons {A B} (x : A) (l : list A) (body : A -> Crawl (list B)) s :
  collect (x :: l) [] body s =
  match body x s with
  | (Ok r, s1) =>
      match collect l [] body s1 with
      | (Ok rs, s2) => (Ok (r ++ rs)%list, s2)
      | (Throw e, s2) => (Throw e, s2)
      end
  | (Throw e, s1) => (Throw e, s1)
  end.
Proof.
  simpl. unfold bind. destruct (body x s) as [[r|e] s1]; [|reflexivity].
  apply collect_acc.
Qed.

(** A loop that pushes the result of a check that always returns pushes
    one result per element, in order, and leaves the explorer's fields
    alone if the check does. *)
Lemma collect_one_each {A B} (P : A -> B -> Prop) (check : A -> Crawl B) :
  (forall x s, exists r s',
      check x s = (Ok r, s') /\ P x r /\ core s' = core s) ->
  forall l s, exists rs s',
    collect l [] (fun x => push (check x)) s = (Ok rs, s')
    /\ Forall2 P l rs /\ core s' = core s.
Proof.
  intros Hb. induction l as [|x l IH]; intros s.
  - exists [], s. split; [reflexivity | split; [constructor | reflexivity]].
  - rewrite collect_cons.
    destruct (Hb x s) as (r & s1 & Hx & Hr & Hc1).
    assert (Hp : push (check x) s = (Ok [r], s1))
      by (unfold push, bind; now rewrite Hx).
    rewrite Hp.
    destruct (IH s1) as (rs & s2 & -> & Hrs & Hc2).
    exists (r :: rs), s2. split; [reflexivity|].
    split; [now constructor | congruence].
Qed.

Lemma checkVisible_report page selector s :
  exists r s', checkVisible env page selector s = (Ok r, s')
               /\ visible_report selector r /\ core s' = core s.
Proof.
  unfold checkVisible, try_catch, bind, call.
  destruct (isVisible env page selector (world s)) as [[[]|e] w]; simpl;
    eexists _, _; (split; [reflexivity|]); unfold visible_report; simpl;
    (split; [|reflexivity]); auto 6.
Qed.

Lemma checkHidden_report page selector s :
  exists r s', checkHidden env page selector s = (Ok r, s')
               /\ hidden_report selector r /\ core s' = core s.
Proof.
  unfold checkHidden, try_catch, bind, call.
  destruct (isVisible env page selector (world s)) as [[[]|e] w]; simpl;
    eexists _, _; (split; [reflexivity|]); unfold hidden_report; simpl;
    (split; [|reflexivity]); auto 6.
Qed.

(** The two loops over the selectors never throw; what comes after them is
    the test of the URL pattern, which is not protected. *)
Lemma verifyUiExpectations_shape page ui s :
  exists rv rh s2,
    Forall2 visible_report (default [] (ui_visible ui)) rv
    /\ Forall2 hidden_report (default [] (ui_hidden ui)) rh
    /\ core s2 = core s
    /\ verifyUiExpectations env page ui s
       = match truthy_pattern (ui_url ui) with
         | None => (Ok (rv ++ rh)%list, s2)
         | Some p =>
             let url := pageUrl env page (world s2) in
             match patternTest env false p url s2 with
             | (Ok matches, s3) =>
                 (Ok (rv ++ rh ++ [url_report p url matches])%list, s3)
             | (Throw e, s3) => (Throw e, s3)
             end
         end.
Proof.
  unfold verifyUiExpectations. cbv zeta.
  assert (Hv : exists rv s1,
             (match ui_visible ui with
              | Some selectors =>
                  collect selectors []
                    (fun selector => push (checkVisible env page selector))
              | None => ret []
              end) s = (Ok rv, s1)
             /\ Forall2 visible_report (default [] (ui_visible ui)) rv
             /\ core s1 = core s).
  { destruct (ui_visible ui) as [sels|]; simpl.
    - apply (collect_one_each visible_report (checkVisible env page)),
        checkVisible_report.
    - exists [], s. split; [reflexivity | split; [constructor | reflexivity]]. }
  destruct Hv as (rv & s1 & Hv & Hrv & Hc1).
  rewrite (bind_ok _ _ _ _ _ Hv).
  assert (Hh : exists rh s2,
             (match ui_hidden ui with
              | Some selectors =>
                  collect selectors rv
                    (fun selector => push (checkHidden env page selector))
              | None => ret rv
              end) s1 = (Ok (rv ++ rh)%list, s2)
             /\ Forall2 hidden_report (default [] (ui_hidden ui)) rh
             /\ core s2 = core s1).
  { destruct (ui_hidden ui) as [sels|]; simpl.
    - destruct (collect_one_each hidden_report (checkHidden env page)
                  (checkHidden_report page) sels s1)
        as (rh & s2 & Hc & Hrh & Hc2).
      exists rh, s2. split; [|split; assumption].
      rewrite collect_acc. now rewrite Hc.
    - exists [], s1. split; [unfold ret; now rewrite app_nil_r|].
      split; [constructor | reflexivity]. }
  destruct Hh as (rh & s2 & Hh & Hrh & Hc2).
  rewrite (bind_ok _ _ _ _ _ Hh).
  exists rv, rh, s2. split; [exact Hrv|]. split; [exact Hrh|].
  split; [congruence|].
  destruct (truthy_pattern (ui_url ui)) as [p|]; [|reflexivity].
  cbv zeta. unfold push, checkUrl, bind, observe.
  destruct (patternTest env false p (pageUrl env page (world s2)) s2)
    as [[matches|e] s3]; [|reflexivity].
  unfold ret, url_report. now rewrite <- app_assoc.
Qed.

(** C9 (amended): verifying a UI expectation pushes exactly one result for
    every selector listed under [visible], then one for every selector
    listed under [hidden]; neither loop throws.  When the lookup of the
    element fails, the [hidden] check passes with "is not present" and the
    [visible] check fails with "not found"; when the element is reported
    not visible, the [hidden] check passes and the [visible] check fails as
    well.  These results are returned, followed by one for the URL pattern
    if there is one, when the test of that pattern returns; a URL pattern
    given as a string that is not a regular expression makes
    [verifyUiExpectations] throw the SyntaxError, and the results of the
    selectors are lost. *)
Theorem verifyUiExpectations_results_and_absent_elements
    (page : Page) (ui : UiExpectation) (s : St) :
  (exists rv rh s2,
     Forall2 visible_report (default [] (ui_visible ui)) rv
     /\ Forall2 hidden_report (default [] (ui_hidden ui)) rh
     /\ core s2 = core s
     /\ verifyUiExpectations env page ui s
        = match truthy_pattern (ui_url ui) with
          | None => (Ok (rv ++ rh)%list, s2)
          | Some p =>
              let url := pageUrl env page (world s2) in
              match patternTest env false p url s2 with
              | (Ok matches, s3) =>
                  (Ok (rv ++ rh ++ [url_report p url matches])%list, s3)
              | (Throw e, s3) => (Throw e, s3)
              end
          end)
  /\ (forall source e,
        truthy_pattern (ui_url ui) = Some (PatString source) ->
        regexSyntaxError env source = Some e ->
        exists s', verifyUiExpectations env page ui s = (Throw e, s'))
  /\ (forall selector e w,
        isVisible env page selector (world s) = (Throw e, w) ->
        checkHidden env page selector s
        = (Ok {| passed := true;
                 message := "Element " ++ selector ++ " is not present";
                 vtype := v_ui; expected := None; actual := None |},
           {| core := core s; world := w |})
        /\ checkVisible env page selector s
           = (Ok {| passed := false;
                    message := "Element " ++ selector ++ " not found";
                    vtype := v_ui; expected := None; actual := None |},
              {| core := core s; world := w |}))
  /\ (forall selector w,
        isVisible env page selector (world s) = (Ok false, w) ->
        (exists r, checkHidden env page selector s
                   = (Ok r, {| core := core s; world := w |})
                   /\ passed r = true)
        /\ (exists r, checkVisible env page selector s
                      = (Ok r, {| core := core s; world := w |})
                      /\ passed r = false)).
Proof.
  split; [apply verifyUiExpectations_shape|]. split; [|split].
  - intros source e Hp He.
    destruct (verifyUiExpectations_shape page ui s)
      as (rv & rh & s2 & _ & _ & _ & ->).
    rewrite Hp. cbv zeta. unfold patternTest, testPattern. rewrite He.
    exists s2. reflexivity.
  - intros selector e w H.
    unfold checkHidden, checkVisible, try_catch, bind, call. rewrite H.
    split; reflexivity.
  - intros selector w H.
    unfold checkHidden, checkVisible, try_catch, bind, call. rewrite H.
    split; eexists; (split; [reflexivity|]); reflexivity.
Qed.

(** *** Schema matching *)






(** *** Setup steps *)

Lemma executeSetup_app page (pre post : list SetupStep) s :
  executeSetup env config page (pre ++ post) s =
  match executeSetup env config page pre s with
  | (Ok _, s') => executeSetup env config page post s'
  | (Throw e, s') => (Throw e, s')
  end.
Proof. unfold executeSetup. apply for_of_app. Qed.

(** C7: in a sequence of setup steps, once the steps before it have run,
    a step whose calls throw is skipped when it is marked optional, and the
    remaining steps are executed from the state it left; when it is not
    marked optional the error propagates out of [executeSetup] and none of
    the remaining steps is executed. *)
Theorem executeSetup_optional_swallowed_required_propagates
    (page : Page) (pre : list SetupStep) (step : SetupStep)
    (rest : list SetupStep) (s s0 s1 : St) (e : Thrown) :
  executeSetup env config page pre s = (Ok tt, s0) ->
  runSetupStep env config page step s0 = (Throw e, s1) ->
  executeSetup env config page (pre ++ step :: rest) s =
  if truthy_bool (step_optional step)
  then executeSetup env config page rest s1
  else (Throw e, s1).
Proof.
  intros Hpre Hstep. rewrite executeSetup_app, Hpre.
  unfold executeSetup. simpl. unfold bind at 1, try_catch at 1.
  rewrite Hstep. destruct (truthy_bool (step_optional step)); reflexivity.
Qed.

(** The error of a required step ends that attempt at the action: it comes
    out of the first half of [exploreAction]'s [try] block before the
    action itself is performed. *)
Lemma required_setup_failure_aborts_attempt page action task schema steps
    snapshot (s s0 s2 : St) w1 e :
  findMatchingSchema env config action page s = (Ok (Some schema), s0) ->
  schema_setup schema = Some steps ->
  captureAllStates env (world s0) = (Ok snapshot, w1) ->
  executeSetup env config page steps {| core := core s0; world := w1 |}
    = (Throw e, s2) ->
  performAndVerify env config page action task s = (Throw e, s2).
Proof.
  intros Hschema Hsteps Hcapture Hsetup. unfold performAndVerify.
  rewrite (bind_ok _ _ _ _ _ Hschema).
  rewrite (bind_ok _ _ s0 snapshot {| core := core s0; world := w1 |})
    by (unfold call; now rewrite Hcapture).
  simpl. rewrite Hsteps. simpl.
  now rewrite (bind_throw _ _ _ _ _ Hsetup).
Qed.

(** *** Verification of a schema's expectations *)

Lemma run_checks_app {B} (l1 l2 : list (Crawl B)) : forall s,
  run_checks (l1 ++ l2) s
  = match run_checks l1 s with
    | (Ok a, s1) =>
        match run_checks l2 s1 with
        | (Ok b, s2) => (Ok (a ++ b)%list, s2)
        | (Throw e, s2) => (Throw e, s2)
        end
    | (Throw e, s1) => (Throw e, s1)
    end.
Proof.
  induction l1 as [|check l1 IH]; intros s; cbn [app run_checks].
  - unfold ret. cbv beta iota.
    destruct (run_checks l2 s) as [[b|e] s2]; reflexivity.
  - unfold bind. destruct (check s) as [[r|e] s1]; [|reflexivity].
    rewrite IH. destruct (run_checks l1 s1) as [[a|e] s2]; [|reflexivity].
    unfold ret.
    destruct (run_checks l2 s2) as [[b|e] s3]; reflexivity.
Qed.

Lemma collect_push_run {A B} (check : A -> Crawl B) (l : list A) : forall s,
  collect l [] (fun x => push (check x)) s = run_checks (map check l) s.
Proof.
  induction l as [|x l IH]; intros s; [reflexivity|].
  rewrite collect_cons. cbn [map run_checks]. unfold push, bind.
  destruct (check x s) as [[r|e] s1]; [|reflexivity].
  cbn [ret]. rewrite IH. now destruct (run_checks (map check l) s1) as [[rs|e] s2].
Qed.

Lemma run_checks_one {B} (check : Crawl B) s :
  run_checks [check] s = push check s.
Proof.
  cbn [run_checks]. unfold push, bind.
  now destruct (check s) as [[r|e] s1].
Qed.

Lemma verifyExpectation_run page e s :
  verifyExpectation env page e s = run_checks (checks_of env page e) s.
Proof.
  unfold verifyExpectation, checks_of. cbv zeta.
  rewrite run_checks_app. unfold bind at 1.
  (* database *)
  assert (Hdb :
    (match exp_database e with
     | Some database =>
         match adapters_get env "supabase" with
         | Some verify =>
             push (call (verify (DbChange_toString (db_change database))
                           (ExpectsDatabase database)))
         | None => ret []
         end
     | None => ret []
     end) s
    = run_checks
        (match exp_database e, adapters_get env "supabase" with
         | Some database, Some verify =>
             [call (verify (DbChange_toString (db_change database))
                      (ExpectsDatabase database))]
         | _, _ => []
         end) s).
  { destruct (exp_database e) as [d|]; [|reflexivity].
    destruct (adapters_get env "supabase"); [|reflexivity].
    now rewrite run_checks_one. }
  rewrite Hdb. clear Hdb.
  destruct (run_checks _ s) as [[r_db|err] s1]; [|reflexivity].
  (* ui *)
  rewrite run_checks_app. unfold bind at 1.
  assert (Hui :
    (match exp_ui e with
     | Some ui => verifyUiExpectations env page ui
     | None => ret []
     end) s1
    = run_checks
        (match exp_ui e with
         | Some ui =>
             map (checkVisible env page) (default [] (ui_visible ui))
             ++ map (checkHidden env page) (default [] (ui_hidden ui))
             ++ match truthy_pattern (ui_url ui) with
                | Some p => [checkUrl env page p]
                | None => []
                end
         | None => []
         end)%list s1).
  { destruct (exp_ui e) as [ui|]; [|reflexivity].
    unfold verifyUiExpectations. cbv zeta. rewrite run_checks_app.
    unfold bind at 1.
    assert (Hv : (match ui_visible ui with
                  | Some selectors =>
                      collect selectors []
                        (fun selector => push (checkVisible env page selector))
                  | None => ret []
                  end) s1
                 = run_checks
                     (map (checkVisible env page) (default [] (ui_visible ui)))
                     s1).
    { destruct (ui_visible ui); [apply collect_push_run | reflexivity]. }
    rewrite Hv. clear Hv.
    destruct (run_checks _ s1) as [[rv|err] s2]; [|reflexivity].
    rewrite run_checks_app. unfold bind at 1.
    assert (Hh : (match ui_hidden ui with
                  | Some selectors =>
                      collect selectors rv
                        (fun selector => push (checkHidden env page selector))
                  | None => ret rv
                  end) s2
                 = match run_checks
                           (map (checkHidden env page)
                              (default [] (ui_hidden ui))) s2 with
                   | (Ok rh, s3) => (Ok (rv ++ rh)%list, s3)
                   | (Throw err, s3) => (Throw err, s3)
                   end).
    { destruct (ui_hidden ui) as [sels|]; cbn [default].
      - now rewrite collect_acc, collect_push_run.
      - cbn. unfold ret. now rewrite app_nil_r. }
    rewrite Hh. clear Hh.
    destruct (run_checks _ s2) as [[rh|err] s3]; [|reflexivity].
    destruct (truthy_pattern (ui_url ui)) as [p|].
    - rewrite run_checks_one. unfold bind.
      destruct (push (checkUrl env page p) s3) as [[ru|err] s4];
        [|reflexivity].
      unfold ret. now rewrite app_assoc.
    - cbn. unfold bind, ret. now rewrite !app_nil_r. }
  rewrite Hui. clear Hui.
  destruct (run_checks _ s1) as [[r_ui|err] s2]; [|reflexivity].
  rewrite run_checks_app.
  (* api *)
  assert (Hapi : forall s0 : St,
    run_checks (match exp_api e with
                | Some _ => [ret apiNotImplemented]
                | None => []
                end) s0
    = (Ok (match exp_api e with
           | Some _ => [apiNotImplemented]
           | None => []
           end), s0)).
  { intros s0. now destruct (exp_api e). }
  rewrite Hapi.
  (* service *)
  unfold bind at 1.
  assert (Hsvc :
    (match exp_service e with
     | Some service =>
         match adapters_get env (svc_adapter service) with
         | Some verify =>
             push (call (verify (svc_action service)
                           (ExpectsRecord (svc_expects service))))
         | None => ret []
         end
     | None => ret []
     end) s2
    = run_checks
        (match exp_service e with
         | Some service =>
             match adapters_get env (svc_adapter service) with
             | Some verify =>
                 [call (verify (svc_action service)
                          (ExpectsRecord (svc_expects service)))]
             | None => []
             end
         | None => []
         end) s2).
  { destruct (exp_service e) as [svc|]; [|reflexivity].
    destruct (adapters_get env (svc_adapter svc)); [|reflexivity].
    now rewrite run_checks_one. }
  rewrite Hsvc. clear Hsvc.
  destruct (run_checks _ s2) as [[r_svc|err] s3]; reflexivity.
Qed.

Lemma verifyExpectations_run page pre es : forall s,
  verifyExpectations env es page pre s
  = run_checks (flat_map (checks_of env page) es) s.
Proof.
  unfold verifyExpectations.
  induction es as [|e es IH]; intros s; [reflexivity|].
  rewrite collect_cons. cbn [flat_map]. rewrite run_checks_app.
  rewrite verifyExpectation_run.
  destruct (run_checks (checks_of env page e) s) as [[r|err] s1];
    [|reflexivity].
  now rewrite IH.
Qed.

Lemma run_checks_checked {B} (l : list (Crawl B)) s rs s' :
  checked l s rs s' -> run_checks l s = (Ok rs, s').
Proof.
  induction 1 as [s|check rest s r s1 rs s2 Hc _ IH]; [reflexivity|].
  cbn [run_checks]. unfold bind. now rewrite Hc, IH.
Qed.

Lemma run_checks_throw {B} (before : list (Crawl B)) check after
    s rs s1 e s2 :
  checked before s rs s1 -> check s1 = (Throw e, s2) ->
  run_checks (before ++ check :: after) s = (Throw e, s2).
Proof.
  intros Hb Hc. rewrite run_checks_app, (run_checks_checked _ _ _ _ Hb).
  cbn [run_checks]. unfold bind. now rewrite Hc.
Qed.

Lemma run_checks_cases {B} (l : list (Crawl B)) : forall s,
  (exists rs s', checked l s rs s')
  \/ (exists before check after rs s1 e s2,
        l = (before ++ check :: after)%list
        /\ checked before s rs s1 /\ check s1 = (Throw e, s2)).
Proof.
  induction l as [|check l IH]; intros s.
  - left. exists [], s. constructor.
  - destruct (check s) as [[r|e] s1] eqn:Hc.
    + destruct (IH s1) as [(rs & s' & H)|(b & c & a & rs & s2 & e & s3 & -> & H & Ht)].
      * left. exists (r :: rs), s'. econstructor; eassumption.
      * right. exists (check :: b), c, a, (r :: rs), s2, e, s3.
        split; [reflexivity|]. split; [econstructor; eassumption | exact Ht].
    + right. exists [], check, l, [], s, e, s1.
      split; [reflexivity|]. split; [constructor | exact Hc].
Qed.

(** C1 (amended): the verification of a list of expectations runs their
    individual checks one after the other, in the order of the
    expectations and, within one, in the order database, visible
    selectors, hidden selectors, URL, API, service.  When every check
    returns, the verification returns the results of the checks, one per
    check and each the check's own: a result with [passed = false] stops
    nothing.  When a check throws, its error is not turned into a result:
    it propagates out of [verifyExpectations], the results of the checks
    before it are lost and the checks after it are not run.  One or the
    other happens.  The checks of visible and hidden selectors and of the
    API never throw: the checks that can are the adapters' [verify] calls
    and the URL pattern when it is not a regular expression. *)
Theorem verifyExpectations_results_kept_unless_a_check_throws
    (page : Page) (pre : Snapshot) (es : list ActionExpectation) (s : St) :
  let checks := flat_map (checks_of env page) es in
  (forall rs s',
      checked checks s rs s' ->
      verifyExpectations env es page pre s = (Ok rs, s'))
  /\ (forall before check after rs s1 e s2,
        checks = (before ++ check :: after)%list ->
        checked before s rs s1 ->
        check s1 = (Throw e, s2) ->
        verifyExpectations env es page pre s = (Throw e, s2))
  /\ ((exists rs s', checked checks s rs s')
      \/ (exists before check after rs s1 e s2,
            checks = (before ++ check :: after)%list
            /\ checked before s rs s1 /\ check s1 = (Throw e, s2)))
  /\ (forall selector s0,
        (exists r s1, checkVisible env page selector s0 = (Ok r, s1))
        /\ (exists r s1, checkHidden env page selector s0 = (Ok r, s1)))
  /\ (forall s0 : St,
        (ret apiNotImplemented : Crawl VerificationResult) s0
        = (Ok apiNotImplemented, s0)).
Proof.
  cbv zeta. split; [|split; [|split; [|split; [|reflexivity]]]].
  - intros rs s' H. rewrite verifyExpectations_run.
    now apply run_checks_checked.
  - intros before check after rs s1 e s2 Hl Hb Hc.
    rewrite verifyExpectations_run, Hl. eapply run_checks_throw; eassumption.
  - apply run_checks_cases.
  - intros selector s0. split.
    + destruct (checkVisible_report page selector s0) as (r & s1 & H & _).
      eauto.
    + destruct (checkHidden_report page selector s0) as (r & s1 & H & _).
      eauto.
Qed.

(** *** A candidate action that throws *)

Lemma recover_returns page action task e s :
  recover env config page action task e s
  = (Ok tt,
     snd (backtrack env config page task
            (snd (emit (EvActionError action e) s)))).
Proof.
  unfold recover, bind, try_catch. simpl.
  destruct (backtrack env config page task _) as [[[]|e'] s']; reflexivity.
Qed.

Lemma emit_core ev (s : St) :
  core (snd (emit ev s)) = set_events (events (core s) ++ [ev]) (core s).
Proof. reflexivity. Qed.

(** [recordAndBacktrack] does not touch the visited set or the start
    states, and an error it throws is caught by [exploreAction]. *)
Lemma exploreAction_returns page fromState action task s :
  fst (exploreAction env config page fromState action task s) = Ok tt.
Proof.
  unfold exploreAction, bind at 1. simpl. unfold try_catch.
  destruct (bind _ _ _) as [[[]|e] s1]; [reflexivity|].
  now rewrite recover_returns.
Qed.

(** C2 (amended): when performing a candidate action, or verifying its
    expectations, throws, [exploreAction] still returns normally; the error
    is reported in an [action:error] event and no transition is recorded:
    the visited set, the queue and the graph are left as they were.  The
    reset is attempted (back to the task's URL, then the replay of its
    path) and whatever it throws is swallowed.  The loop over the candidate
    actions then goes on with the next one. *)
Theorem exploreAction_throw_is_reported_and_recovered
    (page : Page) (fromState : AppState) (action : Action)
    (task : ExplorationTask) (s s1 : St) (e : Thrown) :
  performAndVerify env config page action task
    (snd (emit (EvActionStart action (state_id fromState)) s))
    = (Throw e, s1) ->
  let s' := snd (exploreAction env config page fromState action task s) in
  fst (exploreAction env config page fromState action task s) = Ok tt
  /\ s' = snd (backtrack env config page task
                 (snd (emit (EvActionError action e) s1)))
  /\ visited (core s') = visited (core s)
  /\ queue (core s') = queue (core s)
  /\ states (core s') = states (core s)
  /\ startStates (core s') = startStates (core s)
  /\ events (core s')
     = (events (core s)
        ++ [EvActionStart action (state_id fromState); EvActionError action e])%list
  /\ forall rest,
       for_of (action :: rest)
         (fun a => exploreAction env config page fromState a task) s
       = for_of rest
           (fun a => exploreAction env config page fromState a task) s'.
Proof.
  intros Hthrow s'.
  assert (Hs' : s' = snd (backtrack env config page task
                            (snd (emit (EvActionError action e) s1)))).
  { subst s'. unfold exploreAction, bind at 1. cbn [emit update].
    unfold try_catch, bind at 1.
    change {| core := set_events _ (core s); world := world s |}
      with (snd (emit (EvActionStart action (state_id fromState)) s)).
    rewrite Hthrow. now rewrite recover_returns. }
  assert (Hc1 : core s1
                = set_events
                    (events (core s) ++ [EvActionStart action (state_id fromState)])
                    (core s)).
  { pose proof (performAndVerify_core page action task
                  (snd (emit (EvActionStart action (state_id fromState)) s))) as H.
    now rewrite Hthrow in H. }
  assert (Hc : core s'
               = set_events (events (core s1) ++ [EvActionError action e])
                   (core s1)).
  { rewrite Hs', backtrack_core. reflexivity. }
  split; [apply exploreAction_returns|].
  split; [exact Hs'|].
  rewrite Hc, Hc1. simpl.
  repeat split; try reflexivity.
  - now rewrite <- app_assoc.
  - intros rest. simpl. unfold bind at 1.
    pose proof (exploreAction_returns page fromState action task s) as Hok.
    fold s'. destruct (exploreAction env config page fromState action task s)
      as [r s2] eqn:E.
    simpl in Hok. subst r. subst s'. reflexivity.
Qed.

(** *** What exploring an action or a task does to the explorer's fields *)

#[local] Existing Instance on_core_preorder.

#[local] Instance same_nodes_preorder : PreOrder same_nodes.
Proof.
  split.
  - intros c. unfold same_nodes. auto.
  - intros a b c (H1 & H2 & H3) (H4 & H5 & H6). unfold same_nodes.
    repeat split; congruence.
Qed.

Lemma keeps_emit ev : keeps (@on_core W same_nodes) (emit ev).
Proof. apply keeps_update. intros c. unfold same_nodes. auto. Qed.

Lemma keeps_addTransitionToGraph from to action vp vs :
  keeps (@on_core W same_nodes) (addTransitionToGraph from to action vp vs).
Proof.
  intros s. unfold addTransitionToGraph, bind, get, when_some, on_core. simpl.
  destruct (states (core s) !! from) as [node|] eqn:Hn; simpl.
  - unfold same_nodes. simpl. repeat split.
    rewrite dom_insert_L. apply elem_of_dom_2 in Hn.
    apply set_eq. intros k. rewrite elem_of_union, elem_of_singleton.
    split; [intros [->|]; assumption | auto].
  - reflexivity.
Qed.

Lemma keeps_recordAndBacktrack page fromState action task toState vs :
  keeps (@on_core W same_nodes)
    (recordAndBacktrack env config page fromState action task toState vs).
Proof.
  unfold recordAndBacktrack.
  apply keeps_bind; [apply _ | apply keeps_addTransitionToGraph | intros ?].
  apply keeps_bind; [apply _ | apply keeps_emit | intros ?].
  apply keeps_bind; [apply _ | apply keeps_get; apply _ | intros seen].
  apply keeps_bind; [apply _ | | intros ?; apply keeps_backtrack; apply _].
  destruct seen; [apply keeps_ret; apply _|].
  apply keeps_bind; [apply _ | apply keeps_observe; apply _ | intros url].
  apply keeps_update. intros c. unfold same_nodes. auto.
Qed.

Lemma keeps_exploreAction page fromState action task :
  keeps (@on_core W same_nodes)
    (exploreAction env config page fromState action task).
Proof.
  unfold exploreAction.
  apply keeps_bind; [apply _ | apply keeps_emit | intros ?].
  apply keeps_try_catch; [apply _ | |].
  - apply keeps_bind; [apply _ | apply keeps_performAndVerify; apply _ |].
    intros [toState vs]. apply keeps_recordAndBacktrack.
  - intros e. unfold recover.
    apply keeps_bind; [apply _ | apply keeps_emit | intros ?].
    apply keeps_try_catch; [apply _ | apply keeps_backtrack; apply _ |].
    intros ?. apply keeps_ret; apply _.
Qed.

Lemma keeps_runValidators page vp :
  keeps (@on_core W same_nodes) (runValidators env config page vp).
Proof.
  unfold runValidators. cbv zeta.
  apply keeps_bind; [apply _ | | intros issues1].
  { destruct (truthy_bool _); [|apply keeps_ret; apply _].
    apply keeps_bind; [apply _ | apply keeps_call; apply _ | intros r].
    apply keeps_bind; [apply _ | apply keeps_emit | intros ?].
    apply keeps_ret; apply _. }
  apply keeps_bind; [apply _ | | intros issues2].
  { destruct (truthy_bool _); [|apply keeps_ret; apply _].
    apply keeps_bind; [apply _ | apply keeps_call; apply _ | intros r].
    apply keeps_bind; [apply _ | apply keeps_emit | intros ?].
    apply keeps_ret; apply _. }
  apply keeps_bind; [apply _ | apply keeps_observe; apply _ | intros errors].
  apply keeps_bind; [apply _ | | intros issues3; apply keeps_ret; apply _].
  destruct (validators config ≫= console_config) as [cc|];
    [|apply keeps_ret; apply _].
  destruct (console_enabled cc && _); [|apply keeps_ret; apply _].
  apply keeps_bind; [apply _ | | intros issues4].
  { apply keeps_collect; [apply _|]. intros error.
    apply keeps_bind; [apply _ | apply keeps_patternSome; apply _ |].
    intros []; apply keeps_ret; apply _. }
  apply keeps_bind; [apply _ | apply keeps_call; apply _ | intros ?].
  apply keeps_ret; apply _.
Qed.

Lemma takeScreenshot_id page state s :
  match fst (takeScreenshot env config page state s) with
  | Ok state' => state_id state' = state_id state
  | Throw _ => True
  end.
Proof.
  unfold takeScreenshot. destruct (truthy_bool _); [|reflexivity].
  unfold try_catch, bind, call.
  destruct (pageCall env page _ (world s)) as [[[]|e] w]; reflexivity.
Qed.

Lemma addStateToGraph_spec state issues (s : St) :
  let m := <[state_id state :=
               {| node_state := state; node_issues := issues;
                  node_transitions := [] |}]> (states (core s)) in
  addStateToGraph state issues s
  = (Ok tt,
     {| core :=
          if (size m =? 1)%nat
          then set_startStates (startStates (core s) ++ [state_id state])
                 (set_states m (core s))
          else set_states m (core s);
        world := world s |}).
Proof.
  unfold addStateToGraph, bind, update, get, when. simpl.
  destruct (size _ =? 1)%nat; reflexivity.
Qed.

Lemma size_insert_fresh_is_one (m : gmap string StateNode) k v :
  k ∉ dom m -> (size (<[k := v]> m) =? 1)%nat = bool_decide (dom m = ∅).
Proof.
  intros Hk. rewrite map_size_insert_None by (now apply not_elem_of_dom).
  destruct (bool_decide (dom m = ∅)) eqn:E.
  - apply bool_decide_eq_true in E. apply dom_empty_inv_L in E. subst m.
    now rewrite map_size_empty.
  - apply bool_decide_eq_false in E.
    destruct (size m) eqn:Hs; [|reflexivity].
    apply map_size_empty_inv in Hs. subst m. now rewrite dom_empty_L in E.
Qed.

Lemma bind_update {B} f (k : unit -> Crawl B) (s : St) :
  bind (update f) k s = k tt {| core := f (core s); world := world s |}.
Proof. reflexivity. Qed.

Lemma bind_get {A B} (f : Core -> A) (k : A -> Crawl B) (s : St) :
  bind (get f) k s = k (f (core s)) s.
Proof. reflexivity. Qed.

Lemma visitState_effect page task state s :
  visit_effect (state_id state) (core s)
    (core (snd (visitState env config page task state s))).
Proof.
  unfold visitState.
  rewrite bind_update. unfold emit at 1. rewrite bind_update.
  set (s_b := {| core := set_events _ _; world := _ |}).
  pose proof (keeps_takeScreenshot env config eq page state s_b) as Hc.
  pose proof (takeScreenshot_id page state s_b) as Hid.
  unfold on_core in Hc.
  destruct (takeScreenshot env config page state s_b) as [[state'|e] s_c] eqn:Hts;
    simpl in Hc, Hid.
  2:{ rewrite (bind_throw _ _ _ _ _ Hts). simpl. rewrite <- Hc.
      split; [reflexivity | intros _; left; split; reflexivity]. }
  rewrite (bind_ok _ _ _ _ _ Hts).
  pose proof (keeps_runValidators page (task_viewport task) s_c) as Hv.
  unfold on_core in Hv.
  destruct (runValidators env config page (task_viewport task) s_c)
    as [[issues|e] s_d] eqn:Hrv; simpl in Hv; rewrite <- Hc in Hv;
    destruct Hv as (Hv1 & Hv2 & Hv3).
  2:{ rewrite (bind_throw _ _ _ _ _ Hrv). simpl.
      split; [exact Hv1 | intros _; left; split; assumption]. }
  rewrite (bind_ok _ _ _ _ _ Hrv).
  rewrite (bind_ok _ _ _ _ _ (addStateToGraph_spec state' issues s_d)).
  match goal with
  | |- visit_effect _ _ (core (snd (?rest ?s_e))) =>
      assert (Hrest : @on_core W same_nodes s_e (snd (rest s_e)));
      [| set (s_f := snd (rest s_e)) in *; clearbody s_f ]
  end.
  { apply keeps_bind; [apply _ | apply keeps_emit | intros ?].
    apply keeps_bind; [apply _ | apply keeps_call; apply _ | intros actions].
    apply keeps_for_of; [apply _ | intros act]. apply keeps_exploreAction. }
  destruct Hrest as (Hr1 & Hr2 & Hr3). simpl in Hr1, Hr2, Hr3.
  simpl in Hv1, Hv2, Hv3. unfold visit_effect.
  split.
  { rewrite Hr1. destruct (size _ =? 1)%nat; simpl; exact Hv1. }
  intros Hfresh.
  assert (Hfresh' : state_id state' ∉ dom (states (core s_d))).
  { rewrite Hid. rewrite Hv3. exact Hfresh. }
  rewrite (size_insert_fresh_is_one _ _ _ Hfresh') in Hr1, Hr2, Hr3.
  rewrite Hid in *. rewrite Hv3 in Hr1, Hr2, Hr3.
  repeat case_bool_decide; try contradiction;
    simpl in Hr1, Hr2, Hr3; rewrite dom_insert_L in Hr3;
    right; split; congruence.
Qed.

Lemma try_catch_ignore_state {A} (m : Crawl A) (a : A) s :
  snd (try_catch m (fun _ => ret a) s) = snd (m s).
Proof. unfold try_catch. now destruct (m s) as [[x|e] s1]. Qed.

Lemma try_finally_state {A} (m : Crawl A) f s :
  snd (try_finally m f s) = snd (f (snd (m s))).
Proof.
  unfold try_finally. destruct (m s) as [r s1]. simpl.
  now destruct (f s1) as [[[]|e] s2].
Qed.

(** Exploring a task either leaves the explorer's fields untouched (the
    task was discarded, or an error came before the dedup check) or visits
    a state that was not visited before. *)
Lemma exploreTask_effect task s :
  core (snd (exploreTask env config task s)) = core s
  \/ exists id, (id ∉ visited (core s))
                /\ visit_effect id (core s)
                     (core (snd (exploreTask env config task s))).
Proof.
  unfold exploreTask.
  destruct (call (newPage env) s) as [[page|e] s1] eqn:Hp;
    pose proof (call_core (newPage env) s) as Hc1; rewrite Hp in Hc1;
    simpl in Hc1.
  2:{ rewrite (bind_throw _ _ _ _ _ Hp). left. exact Hc1. }
  rewrite (bind_ok _ _ _ _ _ Hp).
  rewrite try_finally_state, call_core, try_catch_ignore_state.
  pose proof (reachState_core page task s1) as Hc2.
  destruct (reachState env config page task s1) as [[state|e] s2] eqn:Hr;
    simpl in Hc2.
  2:{ rewrite (bind_throw _ _ _ _ _ Hr). left. simpl. congruence. }
  rewrite (bind_ok _ _ _ _ _ Hr), bind_get.
  destruct (bool_decide (state_id state ∈ visited (core s2))) eqn:Hseen.
  - left. simpl. congruence.
  - apply bool_decide_eq_false in Hseen. right. exists (state_id state).
    rewrite Hc2, Hc1 in Hseen. split; [exact Hseen|].
    pose proof (visitState_effect page task state s2) as Hv.
    rewrite Hc2, Hc1 in Hv. exact Hv.
Qed.

(** *** Invariants of the loop *)

Lemma loop_inv_same_nodes c c' :
  same_nodes c c' -> loop_inv config c -> loop_inv config c'.
Proof.
  intros (Hv & Hs & Hd) (H1 & H2 & H3). unfold loop_inv, start_inv in *.
  rewrite Hv, Hs, Hd. auto.
Qed.

Lemma visit_effect_same_nodes id c c1 c2 :
  visit_effect id c c1 -> same_nodes c1 c2 -> visit_effect id c c2.
Proof.
  intros (Hv & Hg) (H1 & H2 & H3). unfold visit_effect.
  rewrite H1, H2, H3. auto.
Qed.

Lemma size_visited_fresh (v : gset string) id :
  id ∉ v -> size ({[ id ]} ∪ v) = S (size v).
Proof.
  intros Hid. rewrite size_union by set_solver. now rewrite size_singleton.
Qed.

Lemma loop_inv_visit id c c' :
  id ∉ visited c -> Z.of_nat (size (visited c)) < statesCap config ->
  visit_effect id c c' -> loop_inv config c -> loop_inv config c'.
Proof.
  intros Hid Hcap (Hv & Hg) (H1 & H2 & H3). unfold loop_inv.
  assert (Hfresh : id ∉ dom (states c)) by (intros Hin; apply Hid, H1, Hin).
  specialize (Hg Hfresh).
  rewrite Hv, size_visited_fresh by assumption.
  split; [|split; [lia|]].
  - destruct Hg as [[Hd _]|[Hd _]]; rewrite Hd; set_solver.
  - unfold start_inv in *.
    destruct Hg as [[Hd Hs]|[Hd Hs]]; rewrite Hd, Hs; [assumption|].
    right. split; [set_solver|].
    destruct H3 as [[He Hn]|[Hne [id0 Hn]]].
    + rewrite bool_decide_eq_true_2 by assumption. rewrite Hn. now exists id.
    + rewrite bool_decide_eq_false_2 by assumption. now exists id0.
Qed.

(** One turn of the loop: either the visited set, the graph nodes and the
    start states are as before, or the cap was not reached and a new state
    was visited. *)
Lemma loop_step_effect s :
  same_nodes (core s) (core (state_after (loop_step env config s)))
  \/ (Z.of_nat (size (visited (core s))) < statesCap config
      /\ exists id, (id ∉ visited (core s))
                    /\ visit_effect id (core s)
                         (core (state_after (loop_step env config s)))).
Proof.
  unfold loop_step.
  destruct (queue (core s)) as [|task rest] eqn:Hq; simpl.
  { left. reflexivity. }
  destruct (depthCap config <? task_depth task); simpl.
  { left. unfold same_nodes. auto. }
  destruct (statesCap config <=? Z.of_nat (size (visited (core s)))) eqn:Hcap;
    simpl.
  { left. unfold same_nodes. auto. }
  apply Z.leb_gt in Hcap.
  destruct ((exploreTask env config task;; progress) (shift s rest))
    as [r s'] eqn:Hrun. simpl.
  assert (Hsn : same_nodes
                  (core (snd (exploreTask env config task (shift s rest))))
                  (core s')).
  { unfold bind in Hrun.
    destruct (exploreTask env config task (shift s rest)) as [[[]|e] s1].
    - unfold progress in Hrun. rewrite bind_get in Hrun.
      pose proof (keeps_emit
        (EvProgress (size (visited (core s1))) (length (queue (core s1)))
           (length (getAllIssues (core s1)))) s1) as Hk.
      rewrite Hrun in Hk. exact Hk.
    - injection Hrun as _ <-. reflexivity. }
  destruct (exploreTask_effect task (shift s rest)) as [Hsame|(id & Hid & Hve)].
  - left. rewrite Hsame in Hsn.
    etransitivity; [|exact Hsn]. unfold same_nodes. auto.
  - right. split; [exact Hcap|]. exists id. split; [exact Hid|].
    eapply visit_effect_same_nodes; [|exact Hsn]. exact Hve.
Qed.

Lemma loop_inv_step s :
  loop_inv config (core s) ->
  loop_inv config (core (state_after (loop_step env config s))).
Proof.
  intros Hinv. destruct (loop_step_effect s) as [H|(Hcap & id & Hid & H)].
  - eapply loop_inv_same_nodes; eassumption.
  - eapply loop_inv_visit; eassumption.
Qed.

Lemma loop_inv_entry w : loop_inv config (core (entry env config w)).
Proof.
  assert (H : same_nodes new_core (core (entry env config w))).
  { unfold entry.
    apply (keeps_bind (@on_core W same_nodes)); [apply keeps_emit | intros ?].
    unfold explore_start, enqueueStartTasks.
    apply keeps_bind; [apply _ | apply keeps_call; apply _ | intros ?].
    apply keeps_for_of; [apply _ | intros url].
    apply keeps_for_of; [apply _ | intros vp].
    apply keeps_update. intros c. unfold same_nodes. auto. }
  eapply loop_inv_same_nodes; [exact H|].
  unfold loop_inv, start_inv. cbn [visited states startStates new_core].
  rewrite dom_empty_L, size_empty. repeat split; [set_solver | lia | auto].
Qed.

Lemma loop_head_inv s0 s :
  loop_inv config (core s0) -> loop_head env config s0 s ->
  loop_inv config (core s).
Proof.
  intros H0 Hh. induction Hh as [|s s' Hh IH Hs|s t s' Hh IH Hs]; [assumption| |].
  - pose proof (loop_inv_step s IH) as H. now rewrite Hs in H.
  - pose proof (loop_inv_step s IH) as H. now rewrite Hs in H.
Qed.

Lemma depthCap_configured d :
  limit maxDepth config = Some d -> d <> 0 -> depthCap config = d.
Proof.
  intros H Hd. unfold depthCap, num_or. rewrite H.
  destruct (d =? 0) eqn:E; [apply Z.eqb_eq in E; contradiction | reflexivity].
Qed.

Lemma statesCap_configured m :
  limit maxStates config = Some m -> m <> 0 -> statesCap config = m.
Proof.
  intros H Hm. unfold statesCap, num_or. rewrite H.
  destruct (m =? 0) eqn:E; [apply Z.eqb_eq in E; contradiction | reflexivity].
Qed.

Lemma explored_within_depth s task r s' :
  loop_step env config s = Explored task r s' ->
  task_depth task <= depthCap config.
Proof.
  unfold loop_step. destruct (queue (core s)) as [|t rest]; [discriminate|].
  destruct (depthCap config <? task_depth t) eqn:Hd; [discriminate|].
  destruct (statesCap config <=? _); [discriminate|].
  destruct ((exploreTask env config t;; progress) (shift s rest)).
  intros H. injection H as <- _ _. now apply Z.ltb_ge in Hd.
Qed.


(** C4: a depth limit and a state limit that are configured and not [0]
    are enforced throughout a run.  At every head of the loop, with
    [maxDepth = d] the task handed to [exploreTask], if any, has a depth of
    at most [d], and a task deeper than [d] at the front of the queue is
    dropped without being explored; with [maxStates = m] the visited set
    holds at most [m] entries (none if [m] is negative), before and after
    the turn.  A limit that is not configured is [10] for the depth and
    [500] for the states.  A limit configured as [0] is not enforced:
    [maxDepth || 10] and [maxStates || 500] replace it by the default, so
    that with [maxDepth = 0] a task of any depth up to [10] at the front of
    the queue is explored as long as the state limit in force is not
    reached. *)
Theorem caps_enforced_unless_configured_zero (w : W) (s : St) :
  loop_head env config (entry env config w) s ->
  (forall d, limit maxDepth config = Some d -> d <> 0 ->
     (forall task r s',
         loop_step env config s = Explored task r s' -> task_depth task <= d)
     /\ (forall task rest,
           queue (core s) = task :: rest -> d < task_depth task ->
           loop_step env config s = Skipped (shift s rest)))
  /\ (forall m, limit maxStates config = Some m -> m <> 0 ->
        Z.of_nat (size (visited (core s))) <= Z.max 0 m
        /\ Z.of_nat
             (size (visited (core (state_after (loop_step env config s)))))
           <= Z.max 0 m)
  /\ (limit maxDepth config = None ->
      forall task r s',
        loop_step env config s = Explored task r s' -> task_depth task <= 10)
  /\ (limit maxStates config = None ->
      Z.of_nat (size (visited (core s))) <= 500
      /\ Z.of_nat
           (size (visited (core (state_after (loop_step env config s)))))
         <= 500)
  /\ (limit maxDepth config = Some 0 ->
      forall task rest,
        queue (core s) = task :: rest ->
        task_depth task <= 10 ->
        Z.of_nat (size (visited (core s))) < statesCap config ->
        exists r s', loop_step env config s = Explored task r s')
  /\ (limit maxStates config = Some 0 -> statesCap config = 500).
Proof.
  intros Hh.
  pose proof (loop_head_inv _ _ (loop_inv_entry w) Hh) as Hinv.
  pose proof (loop_inv_step s Hinv) as Hinv'.
  destruct Hinv as (_ & Hv & _). destruct Hinv' as (_ & Hv' & _).
  split; [|split; [|split; [|split; [|split]]]].
  - intros d Hd Hz. rewrite <- (depthCap_configured d Hd Hz). split.
    + intros task r s'. apply explored_within_depth.
    + intros task rest Hq Hdeep. unfold loop_step. rewrite Hq.
      now rewrite (proj2 (Z.ltb_lt _ _) Hdeep).
  - intros m Hm Hz. rewrite <- (statesCap_configured m Hm Hz). now split.
  - intros Hn task r s' Hs. apply explored_within_depth in Hs.
    unfold depthCap, num_or in Hs. now rewrite Hn in Hs.
  - intros Hn. unfold statesCap, num_or in Hv, Hv'. rewrite Hn in Hv, Hv'.
    split; lia.
  - intros Hz task rest Hq Hdepth Hcap. unfold loop_step. rewrite Hq.
    unfold depthCap, num_or. rewrite Hz. cbn [Z.eqb].
    rewrite (proj2 (Z.ltb_ge _ _) Hdepth), (proj2 (Z.leb_gt _ _) Hcap).
    destruct ((exploreTask env config task;; progress) (shift s rest))
      as [r s'].
    now exists r, s'.
  - intros Hz. unfold statesCap, num_or. now rewrite Hz.
Qed.

(** C10: throughout a run, [graph.startStates] has at most one entry; it
    is empty as long as the graph is; once it holds an id it keeps holding
    exactly that id; and the turn of the loop that adds the first state to
    the graph leaves that state as the only node and its id as the only
    start state.  Nothing here depends on the start URLs or viewports
    configured. *)
Theorem startStates_is_the_first_state_added (w : W) (s : St) :
  loop_head env config (entry env config w) s ->
  let s' := state_after (loop_step env config s) in
  (length (startStates (core s)) <= 1)%nat
  /\ (length (startStates (core s')) <= 1)%nat
  /\ (dom (states (core s)) = ∅ -> startStates (core s) = [])
  /\ (forall id, startStates (core s) = [id] -> startStates (core s') = [id])
  /\ (dom (states (core s)) = ∅ -> dom (states (core s')) <> ∅ ->
      exists id, dom (states (core s')) = {[ id ]}
                 /\ startStates (core s') = [id]).
Proof.
  intros Hh s'.
  pose proof (loop_head_inv _ _ (loop_inv_entry w) Hh) as Hinv.
  pose proof (loop_inv_step s Hinv) as Hinv'. fold s' in Hinv'.
  assert (Hlen : forall c, start_inv c -> (length (startStates c) <= 1)%nat).
  { intros c [[_ ->]|[_ [id ->]]]; simpl; lia. }
  split; [apply Hlen, Hinv|]. split; [apply Hlen, Hinv'|].
  destruct Hinv as (Hdom & _ & Hstart).
  split.
  { intros He. destruct Hstart as [[_ H]|[H _]]; [exact H | contradiction]. }
  pose proof (loop_step_effect s) as Heff. fold s' in Heff. clearbody s'.
  destruct Heff as [(Hv & Hs & Hd)|(Hcap & id & Hid & Hv & Hg)].
  - split.
    + intros id Hid. congruence.
    + intros He Hne. rewrite Hd in Hne. contradiction.
  - assert (Hfresh : id ∉ dom (states (core s)))
      by (intros Hin; apply Hid, Hdom, Hin).
    specialize (Hg Hfresh). split.
    + intros id0 Hid0.
      destruct Hg as [[_ Hs]|[_ Hs]]; [congruence|].
      destruct Hstart as [[_ H]|[Hne _]]; [congruence|].
      rewrite bool_decide_eq_false_2 in Hs by assumption. congruence.
    + intros He Hne.
      destruct Hg as [[Hd _]|[Hd Hs]]; [rewrite Hd in Hne; contradiction|].
      exists id. rewrite Hd, Hs, He.
      rewrite bool_decide_eq_true_2 by reflexivity.
      destruct Hstart as [[_ ->]|[H _]]; [|contradiction].
      split; [set_solver | reflexivity].
Qed.

(** *** Termination of the loop *)


(** A turn that explores a task either leaves the visited set and the
    queue (already shifted) as they were, or visits one more state. *)
Lemma explore_turn_effect task s1 :
  let s2 := snd ((exploreTask env config task ;; progress) s1) in
  (visited (core s2) = visited (core s1) /\ queue (core s2) = queue (core s1))
  \/ exists id, (id ∉ visited (core s1))
                /\ visited (core s2) = {[ id ]} ∪ visited (core s1).
Proof.
  intros s2.
  assert (Hp : forall s : St,
             visited (core (snd (progress s))) = visited (core s)
             /\ queue (core (snd (progress s))) = queue (core s)).
  { intros s. split; reflexivity. }
  assert (Hs2 : visited (core s2)
                = visited (core (snd (exploreTask env config task s1)))
                /\ queue (core s2)
                   = queue (core (snd (exploreTask env config task s1)))).
  { subst s2. unfold bind.
    destruct (exploreTask env config task s1) as [[[]|e] s]; simpl;
      [apply Hp | split; reflexivity]. }
  destruct Hs2 as [Hv Hq]. rewrite Hv, Hq.
  destruct (exploreTask_effect task s1) as [Hsame|(id & Hid & Hvis & _)].
  - left. rewrite Hsame. split; reflexivity.
  - right. exists id. split; assumption.
Qed.

Lemma explore_loop_terminates_aux : forall n m s,
  (Z.to_nat (statesCap config - Z.of_nat (size (visited (core s)))) <= n)%nat ->
  (length (queue (core s)) <= m)%nat ->
  exists fuel r s',
    explore_loop env config fuel s = Some (r, s')
    /\ ends_at_empty_queue_or_cap config r s'.
Proof.
  induction n as [n IHn] using lt_wf_ind.
  induction m as [|m IHm]; intros s Hn Hm.
  - (* the queue is empty *)
    exists 1%nat, (Ok tt), s. simpl. unfold loop_step.
    destruct (queue (core s)) as [|t rest] eqn:Hq; [|simpl in Hm; lia].
    split; [reflexivity|]. intros _. now left.
  - destruct (queue (core s)) as [|task rest] eqn:Hq.
    { exists 1%nat, (Ok tt), s. simpl. unfold loop_step. rewrite Hq.
      split; [reflexivity|]. intros _. now left. }
    simpl in Hm.
    destruct (depthCap config <? task_depth task) eqn:Hdepth.
    { (* continue *)
      destruct (IHm (shift s rest)) as (fuel & r & s' & Hrun & Hend);
        [exact Hn | simpl; lia |].
      exists (S fuel), r, s'. split; [|exact Hend].
      simpl. unfold loop_step. rewrite Hq, Hdepth. exact Hrun. }
    destruct (statesCap config <=? Z.of_nat (size (visited (core s)))) eqn:Hcap.
    { (* break *)
      exists 1%nat, (Ok tt), (shift s rest). simpl. unfold loop_step.
      rewrite Hq, Hdepth, Hcap. split; [reflexivity|].
      intros _. right. apply Z.leb_le in Hcap. exact Hcap. }
    apply Z.leb_gt in Hcap.
    pose proof (explore_turn_effect task (shift s rest)) as Heff.
    destruct ((exploreTask env config task;; progress) (shift s rest))
      as [r s2] eqn:Hturn. simpl in Heff.
    destruct r as [[]|e].
    2:{ exists 1%nat, (Throw e), s2. simpl. unfold loop_step.
        rewrite Hq, Hdepth. rewrite (proj2 (Z.leb_gt _ _) Hcap), Hturn.
        split; [reflexivity|]. intros H. discriminate. }
    assert (Hnext : exists fuel r s',
               explore_loop env config fuel s2 = Some (r, s')
               /\ ends_at_empty_queue_or_cap config r s').
    { destruct Heff as [[Hv Hqq]|(id & Hid & Hv)].
      - apply IHm; [rewrite Hv; exact Hn | rewrite Hqq; simpl; lia].
      - destruct n as [|n']; [lia|].
        apply (IHn n' ltac:(lia) (length (queue (core s2)))); [|lia].
        rewrite Hv, size_visited_fresh by exact Hid. simpl in *. lia. }
    destruct Hnext as (fuel & r & s' & Hrun & Hend).
    exists (S fuel), r, s'. split; [|exact Hend].
    simpl. unfold loop_step.
    rewrite Hq, Hdepth. rewrite (proj2 (Z.leb_gt _ _) Hcap), Hturn. exact Hrun.
Qed.






End ExplorerProps.

(** ** Properties of the broken-links validator *)

Section BrokenLinksProps.
Import BrokenLinks.
Context {Net : Type}.
Variable fetch : Request -> Net -> FetchOutcome * Net.
Variable parseURL : string -> option (string * string).
Variable regexSyntaxError : string -> option Thrown.
Variable regexMatch : string -> bool -> string -> bool.
Variable regexTest : RegExp -> string -> Net -> bool * Net.
Variable config : BrokenLinksValidatorConfig.





End BrokenLinksProps.

(** * Further properties of the explorer *)

Section ExplorerMore.
Context {W Page Snapshot : Type}.
Variable env : Env W Page Snapshot.
Variable config : ExplorerConfig.

Abbreviation St := (ExState W).
Abbreviation Crawl := (@M St).

#[local] Existing Instance on_core_preorder.

(** ** Every update [exploreTask] makes to the explorer's fields

    A relation that is kept by each kind of update is kept by the whole
    exploration of a task. *)
Section AnyUpdate.
Variable task : ExplorationTask.
Context (R : Core -> Core -> Prop) `{!PreOrder R}.
Hypothesis R_event : forall c ev, R c (set_events (events c ++ [ev]) c).
Hypothesis R_visit :
  forall c id, R c (set_visited ({[ id ]} ∪ visited c) c).
Hypothesis R_node :
  forall c state issues,
    R c (set_states
           (<[state_id state :=
                {| node_state := state; node_issues := issues;
                   node_transitions := [] |}]> (states c)) c).
Hypothesis R_start :
  forall c id, R c (set_startStates (startStates c ++ [id]) c).
Hypothesis R_transition :
  forall c from node t,
    states c !! from = Some node -> tr_fromState t = from ->
    R c (set_states (<[from := push_transition t node]> (states c)) c).
Hypothesis R_push :
  forall c child,
    child_of task child -> R c (set_queue (queue c ++ [child]) c).

Lemma any_emit ev : keeps (@on_core W R) (emit ev).
Proof. apply keeps_update. intros c. apply R_event. Qed.

Lemma any_addTransitionToGraph from to action vp vs :
  keeps (@on_core W R) (addTransitionToGraph from to action vp vs).
Proof.
  intros s. unfold addTransitionToGraph, bind, get, when_some, on_core. simpl.
  destruct (states (core s) !! from) as [node|] eqn:Hn; simpl.
  - now apply R_transition.
  - reflexivity.
Qed.

Lemma any_recordAndBacktrack page fromState action toState vs :
  keeps (@on_core W R)
    (recordAndBacktrack env config page fromState action task toState vs).
Proof.
  unfold recordAndBacktrack.
  apply keeps_bind; [apply _ | apply any_addTransitionToGraph | intros ?].
  apply keeps_bind; [apply _ | apply any_emit | intros ?].
  apply keeps_bind; [apply _ | apply keeps_get; apply _ | intros seen].
  apply keeps_bind; [apply _ | | intros ?; apply keeps_backtrack; apply _].
  destruct seen; [apply keeps_ret; apply _|].
  apply keeps_bind; [apply _ | apply keeps_observe; apply _ | intros url].
  apply keeps_update. intros c. apply R_push.
  unfold child_of. simpl. repeat split. now exists action.
Qed.

Lemma any_exploreAction page fromState action :
  keeps (@on_core W R) (exploreAction env config page fromState action task).
Proof.
  unfold exploreAction.
  apply keeps_bind; [apply _ | apply any_emit | intros ?].
  apply keeps_try_catch; [apply _ | |].
  - apply keeps_bind; [apply _ | apply keeps_performAndVerify; apply _ |].
    intros [toState vs]. apply any_recordAndBacktrack.
  - intros e. unfold recover.
    apply keeps_bind; [apply _ | apply any_emit | intros ?].
    apply keeps_try_catch; [apply _ | apply keeps_backtrack; apply _ |].
    intros ?. apply keeps_ret; apply _.
Qed.

Lemma any_runValidators page vp :
  keeps (@on_core W R) (runValidators env config page vp).
Proof.
  unfold runValidators. cbv zeta.
  apply keeps_bind; [apply _ | | intros issues1].
  { destruct (truthy_bool _); [|apply keeps_ret; apply _].
    apply keeps_bind; [apply _ | apply keeps_call; apply _ | intros r].
    apply keeps_bind; [apply _ | apply any_emit | intros ?].
    apply keeps_ret; apply _. }
  apply keeps_bind; [apply _ | | intros issues2].
  { destruct (truthy_bool _); [|apply keeps_ret; apply _].
    apply keeps_bind; [apply _ | apply keeps_call; apply _ | intros r].
    apply keeps_bind; [apply _ | apply any_emit | intros ?].
    apply keeps_ret; apply _. }
  apply keeps_bind; [apply _ | apply keeps_observe; apply _ | intros errors].
  apply keeps_bind; [apply _ | | intros issues3; apply keeps_ret; apply _].
  destruct (validators config ≫= console_config) as [cc|];
    [|apply keeps_ret; apply _].
  destruct (console_enabled cc && _); [|apply keeps_ret; apply _].
  apply keeps_bind; [apply _ | | intros issues4].
  { apply keeps_collect; [apply _|]. intros error.
    apply keeps_bind; [apply _ | apply keeps_patternSome; apply _ |].
    intros []; apply keeps_ret; apply _. }
  apply keeps_bind; [apply _ | apply keeps_call; apply _ | intros ?].
  apply keeps_ret; apply _.
Qed.

Lemma any_addStateToGraph state issues :
  keeps (@on_core W R) (addStateToGraph state issues).
Proof.
  intros s. rewrite addStateToGraph_spec. unfold on_core. simpl.
  destruct (size _ =? 1)%nat.
  - etransitivity; [apply R_node|].
    exact (R_start (set_states _ (core s)) _).
  - apply R_node.
Qed.

Lemma any_visitState page state :
  keeps (@on_core W R) (visitState env config page task state).
Proof.
  unfold visitState.
  apply keeps_bind; [apply _ | | intros ?].
  { apply keeps_update. intros c. apply R_visit. }
  apply keeps_bind; [apply _ | apply any_emit | intros ?].
  apply keeps_bind; [apply _ | apply keeps_takeScreenshot; apply _ | intros st].
  apply keeps_bind; [apply _ | apply any_runValidators | intros issues].
  apply keeps_bind; [apply _ | apply any_addStateToGraph | intros ?].
  apply keeps_bind; [apply _ | apply any_emit | intros ?].
  apply keeps_bind; [apply _ | apply keeps_call; apply _ | intros actions].
  apply keeps_for_of; [apply _ | intros act]. apply any_exploreAction.
Qed.

Lemma any_exploreTask : keeps (@on_core W R) (exploreTask env config task).
Proof.
  unfold exploreTask.
  apply keeps_bind; [apply _ | apply keeps_call; apply _ | intros page].
  apply keeps_try_finally; [apply _ | | apply keeps_call; apply _].
  apply keeps_try_catch; [apply _ | | intros ?; apply keeps_ret; apply _].
  apply keeps_bind; [apply _ | apply keeps_reachState; apply _ | intros state].
  apply keeps_bind; [apply _ | apply keeps_get; apply _ | intros seen].
  destruct seen; [apply keeps_ret; apply _ | apply any_visitState].
Qed.

(** The turn of the loop that explores [task], once it is taken off the
    queue. *)
Lemma any_turn : keeps (@on_core W R) (exploreTask env config task ;; progress).
Proof.
  apply keeps_bind; [apply _ | apply any_exploreTask | intros ?].
  unfold progress.
  apply keeps_bind; [apply _ | apply keeps_get; apply _ | intros c].
  apply any_emit.
Qed.

End AnyUpdate.

(** ** Invariants of the run

    [I] holds at the head of the loop and [J task] while [task] is being
    explored: if every update keeps [J task], every turn keeps [I]. *)
Section LoopInvariant.
Variable I : Core -> Prop.
Variable J : ExplorationTask -> Core -> Prop.
Hypothesis I_drop :
  forall c task rest, queue c = task :: rest -> I c -> I (set_queue rest c).
Hypothesis I_take :
  forall c task rest,
    queue c = task :: rest -> I c -> J task (set_queue rest c).
Hypothesis J_done : forall task c, J task c -> I c.
Hypothesis J_event :
  forall task c ev, J task c -> J task (set_events (events c ++ [ev]) c).
Hypothesis J_visit :
  forall task c id,
    J task c -> J task (set_visited ({[ id ]} ∪ visited c) c).
Hypothesis J_node :
  forall task c state issues,
    J task c ->
    J task (set_states
              (<[state_id state :=
                   {| node_state := state; node_issues := issues;
                      node_transitions := [] |}]> (states c)) c).
Hypothesis J_start :
  forall task c id,
    J task c -> J task (set_startStates (startStates c ++ [id]) c).
Hypothesis J_transition :
  forall task c from node t,
    states c !! from = Some node -> tr_fromState t = from ->
    J task c ->
    J task (set_states (<[from := push_transition t node]> (states c)) c).
Hypothesis J_push :
  forall task c child,
    child_of task child -> J task c ->
    J task (set_queue (queue c ++ [child]) c).

Lemma invariant_step s :
  I (core s) -> I (core (state_after (loop_step env config s))).
Proof.
  intros HI. unfold loop_step.
  destruct (queue (core s)) as [|task rest] eqn:Hq; simpl; [exact HI|].
  destruct (depthCap config <? task_depth task); simpl;
    [now apply (I_drop _ task)|].
  destruct (statesCap config <=? _); simpl; [now apply (I_drop _ task)|].
  destruct ((exploreTask env config task;; progress) (shift s rest))
    as [r s'] eqn:Hturn. simpl.
  apply (J_done task).
  assert (PreOrder (fun c c' : Core => J task c -> J task c')).
  { split; [intros c H; exact H | intros a b c Hab Hbc H; auto]. }
  pose proof (any_turn task (fun c c' => J task c -> J task c')
                (J_event task) (J_visit task) (J_node task) (J_start task)
                (fun c from node t Hn Ht => J_transition task c from node t Hn Ht)
                (fun c child Hc => J_push task c child Hc)
                (shift s rest)) as Hk.
  unfold on_core in Hk. rewrite Hturn in Hk. apply Hk.
  now apply I_take.
Qed.

Lemma invariant_loop_head s0 s :
  I (core s0) -> loop_head env config s0 s -> I (core s).
Proof.
  intros H0 Hh. induction Hh as [|s s' Hh IH Hs|s t s' Hh IH Hs]; [assumption| |].
  - pose proof (invariant_step s IH) as H. now rewrite Hs in H.
  - pose proof (invariant_step s IH) as H. now rewrite Hs in H.
Qed.

End LoopInvariant.

Lemma entry_queue_at_depth_zero w :
  Forall (fun t => task_depth t = 0 /\ task_path t = [])
    (queue (core (entry env config w))).
Proof.
  set (P := fun t : ExplorationTask => task_depth t = 0 /\ task_path t = []).
  set (R := fun c c' : Core => Forall P (queue c) -> Forall P (queue c')).
  assert (HR : PreOrder R).
  { split; [intros c H; exact H | intros a b c Hab Hbc H; apply Hbc, Hab, H]. }
  assert (H : @on_core W R {| core := new_core; world := w |}
                (entry env config w)).
  { unfold entry.
    apply (keeps_bind (@on_core W R));
      [unfold emit; apply keeps_update; intros c Hc; exact Hc | intros ?].
    unfold explore_start, enqueueStartTasks.
    apply keeps_bind; [apply _ | apply keeps_call; apply _ | intros ?].
    apply keeps_for_of; [apply _ | intros url].
    apply keeps_for_of; [apply _ | intros vp].
    apply keeps_update. intros c Hc. cbn.
    apply Forall_app. split; [exact Hc|]. repeat constructor. }
  apply H. constructor.
Qed.

Lemma level_order_tail d t q : level_order d (t :: q) -> level_order d q.
Proof.
  intros [Hs Hb]. split.
  - now apply StronglySorted_inv in Hs.
  - now apply Forall_inv_tail in Hb.
Qed.

Lemma level_order_breadth_first d q : level_order d q -> breadth_first q.
Proof.
  destruct q as [|t q]; [constructor|]. intros [Hs Hb]. split; [exact Hs|].
  pose proof (Forall_inv Hb) as Ht. cbv beta in Ht.
  apply StronglySorted_inv in Hs as [_ Hle].
  constructor; [lia|].
  apply Forall_inv_tail in Hb.
  rewrite List.Forall_forall in *. intros x Hx.
  specialize (Hb x Hx). specialize (Hle x Hx). cbv beta in *. lia.
Qed.

Lemma level_order_push d q child :
  task_depth child = d + 1 -> level_order d q -> level_order d (q ++ [child]).
Proof.
  intros Hd [Hs Hb]. split.
  - clear -Hs Hb Hd. induction Hs as [|a l Hs IH Ha]; cbn.
    + repeat constructor.
    + constructor.
      * apply IH. now apply Forall_inv_tail in Hb.
      * apply Forall_app. split; [exact Ha|].
        constructor; [|constructor].
        apply Forall_inv in Hb. cbv beta in Hb. lia.
  - apply Forall_app. split; [exact Hb|]. constructor; [lia|constructor].
Qed.

(** X1: every task waiting in the queue has a depth equal to the number of
    actions on its path, at every head of the loop of a run of [explore]:
    start tasks are at depth 0 with an empty path and [exploreAction] queues
    [path ++ [action]] at [depth + 1]. *)
Theorem queued_depth_is_path_length w s :
  loop_head env config (entry env config w) s ->
  Forall depth_is_path_length (queue (core s)).
Proof.
  apply (invariant_loop_head
           (fun c => Forall depth_is_path_length (queue c))
           (fun task c =>
              depth_is_path_length task
              /\ Forall depth_is_path_length (queue c))).
  - intros c task rest Hq H. cbn. rewrite Hq in H.
    now apply Forall_inv_tail in H.
  - intros c task rest Hq H. cbn. rewrite Hq in H. split.
    + now apply Forall_inv in H.
    + now apply Forall_inv_tail in H.
  - intros task c [_ H]. exact H.
  - intros task c ev H. exact H.
  - intros task c id H. exact H.
  - intros task c state issues H. exact H.
  - intros task c id H. exact H.
  - intros task c from node t _ _ H. exact H.
  - intros task c child (Hd & (a & Hp) & _) [Ht H]. split; [exact Ht|]. cbn.
    apply Forall_app. split; [exact H|]. constructor; [|constructor].
    unfold depth_is_path_length in *. rewrite Hd, Hp, Ht, length_app. cbn. lia.
  - eapply Forall_impl; [apply entry_queue_at_depth_zero|].
    intros t [Hd Hp]. unfold depth_is_path_length. now rewrite Hd, Hp.
Qed.

(** X2: the queue is processed breadth first: at every head of the loop the
    queued tasks are in order of depth and at most one level deeper than the
    task at the front. *)
Theorem queue_is_breadth_first w s :
  loop_head env config (entry env config w) s ->
  breadth_first (queue (core s)).
Proof.
  apply (invariant_loop_head
           (fun c => breadth_first (queue c))
           (fun task c => level_order (task_depth task) (queue c))).
  - intros c task rest Hq H. cbn. rewrite Hq in H. cbn in H.
    eapply level_order_breadth_first, level_order_tail, H.
  - intros c task rest Hq H. cbn. rewrite Hq in H. cbn in H.
    eapply level_order_tail, H.
  - intros task c H. eapply level_order_breadth_first, H.
  - intros task c ev H. exact H.
  - intros task c id H. exact H.
  - intros task c state issues H. exact H.
  - intros task c id H. exact H.
  - intros task c from node t _ _ H. exact H.
  - intros task c child (Hd & _) H. cbn. now apply level_order_push.
  - apply (level_order_breadth_first 0). split.
    + pose proof (entry_queue_at_depth_zero w) as H.
      induction H as [|t l [Ht _] Hl IH]; constructor; [exact IH|].
      eapply Forall_impl; [exact Hl|]. intros x [Hx _]. cbv beta. lia.
    + eapply Forall_impl; [apply entry_queue_at_depth_zero|].
      intros t [Hd _]. cbv beta. lia.
Qed.

(** X3: the graph stays well formed: every node is stored under the id of its
    own state and every transition is stored in the node of the state it
    leaves. *)
Theorem graph_stays_well_formed s0 s :
  graph_wf (core s0) -> loop_head env config s0 s -> graph_wf (core s).
Proof.
  apply (invariant_loop_head graph_wf (fun _ => graph_wf)).
  - intros c task rest _ H. exact H.
  - intros c task rest _ H. exact H.
  - intros task c H. exact H.
  - intros task c ev H. exact H.
  - intros task c id H. exact H.
  - intros task c state issues H. unfold graph_wf in *. cbn.
    apply map_Forall_insert_2; [|exact H]. split; [reflexivity|constructor].
  - intros task c id H. exact H.
  - intros task c from node t Hn Ht H. unfold graph_wf in *. cbn.
    apply map_Forall_insert_2; [|exact H].
    destruct (H from node Hn) as [Hid Htr]. split; [exact Hid|].
    unfold push_transition. cbn. apply Forall_app. split; [exact Htr|].
    constructor; [exact Ht|constructor].
  - intros task c child _ H. exact H.
Qed.

(** X4: a run only adds: between two heads of the loop the visited set and the
    graph's node ids only grow, and the event log and the start states are
    only extended at their end. *)
Theorem run_only_grows s0 s :
  loop_head env config s0 s -> grows (core s0) (core s).
Proof.
  assert (Hrefl : forall c, grows c c).
  { intros c. repeat split; try reflexivity; exists []; now rewrite app_nil_r. }
  intros Hh.
  refine (invariant_loop_head (grows (core s0)) (fun _ => grows (core s0))
            _ _ _ _ _ _ _ _ _ s0 s (Hrefl _) Hh).
  - intros c task rest _ H. exact H.
  - intros c task rest _ H. exact H.
  - intros task c H. exact H.
  - intros task c ev (Hv & Hd & [l Hl] & Hs). repeat split; try assumption.
    cbn. exists (l ++ [ev])%list. rewrite Hl. now rewrite app_assoc.
  - intros task c id (Hv & Hd & He & Hs). repeat split; try assumption.
    cbn. set_solver.
  - intros task c state issues (Hv & Hd & He & Hs).
    repeat split; try assumption. cbn. rewrite dom_insert_L. set_solver.
  - intros task c id (Hv & Hd & He & [l Hl]). repeat split; try assumption.
    cbn. exists (l ++ [id])%list. rewrite Hl. now rewrite app_assoc.
  - intros task c from node t _ _ (Hv & Hd & He & Hs).
    repeat split; try assumption. cbn. rewrite dom_insert_L. set_solver.
  - intros task c child _ H. exact H.
Qed.

(** ** [replayPath] *)

Lemma replayPath_unfold page action rest s :
  replayPath env config page (action :: rest) s =
  match replay_step env config page action s with
  | (Ok _, s') => replayPath env config page rest s'
  | (Throw _, s') => (Ok tt, s')
  end.
Proof.
  cbn [replayPath]. unfold replay_step, bind, try_catch.
  destruct (executeAction env config page action s) as [[[]|e] s1];
    [|reflexivity].
  destruct (call _ s1) as [[[]|e] s2]; reflexivity.
Qed.

Lemma replayPath_returns page path s :
  exists s',
    replayPath env config page path s = (Ok tt, s') /\ core s' = core s.
Proof.
  revert s. induction path as [|action rest IH]; intros s.
  - exists s. split; reflexivity.
  - rewrite replayPath_unfold.
    assert (Hc : @on_core W eq s
                   (snd (replay_step env config page action s))).
    { unfold replay_step.
      apply (keeps_bind (@on_core W eq));
        [apply keeps_executeAction; apply _ | intros ?].
      apply keeps_call; apply _. }
    unfold on_core in Hc.
    destruct (replay_step env config page action s) as [[[]|e] s1];
      cbn [snd] in Hc.
    + destruct (IH s1) as (s' & Hr & Hs'). exists s'.
      split; [exact Hr | congruence].
    + exists s1. split; [reflexivity | now symmetry].
Qed.

(** X5: [replayPath] swallows every error of the replayed actions: it never
    throws, whatever the page does, and touches none of the explorer's own
    fields. *)
Theorem replayPath_never_throws page path s :
  fst (replayPath env config page path s) = Ok tt
  /\ core (snd (replayPath env config page path s)) = core s.
Proof.
  destruct (replayPath_returns page path s) as (s' & -> & Hc).
  split; [reflexivity | exact Hc].
Qed.

(** X6: the first action that fails ends the replay: the actions before it have
    been performed, the ones after it are not attempted, and the caller is
    not told. *)
Theorem replayPath_stops_at_first_failure page pre action post s s1 e s2 :
  for_of pre (replay_step env config page) s = (Ok tt, s1) ->
  replay_step env config page action s1 = (Throw e, s2) ->
  replayPath env config page (pre ++ action :: post) s = (Ok tt, s2).
Proof.
  revert s. induction pre as [|a pre IH]; intros s Hpre Hact.
  - cbn in Hpre. injection Hpre as ->. cbn [app].
    rewrite replayPath_unfold, Hact. reflexivity.
  - cbn [app]. rewrite replayPath_unfold. cbn [for_of] in Hpre.
    unfold bind in Hpre.
    destruct (replay_step env config page a s) as [[[]|e'] s']; [|discriminate].
    now apply IH.
Qed.

(** A path whose actions all succeed is replayed in full. *)
Lemma replayPath_all_succeed page path s s' :
  for_of path (replay_step env config page) s = (Ok tt, s') ->
  replayPath env config page path s = (Ok tt, s').
Proof.
  revert s. induction path as [|a path IH]; intros s H.
  - exact H.
  - rewrite replayPath_unfold. cbn [for_of] in H. unfold bind in H.
    destruct (replay_step env config page a s) as [[[]|e'] s1]; [|discriminate].
    now apply IH.
Qed.

(** ** [exploreAction]: the successful path *)

Lemma backtrack_outcome page task s :
  match goto env page (task_url task)
          {| goto_timeout := None; goto_waitUntil := wu_load |} (world s) with
  | (Ok _, _) => fst (backtrack env config page task s) = Ok tt
  | (Throw e, _) => fst (backtrack env config page task s) = Throw e
  end.
Proof.
  unfold backtrack, bind, call.
  destruct (goto env page _ _ (world s)) as [[[]|e] w1]; [|reflexivity].
  destruct (replayPath_returns page (task_path task)
              {| core := core s; world := w1 |}) as (s' & -> & _).
  reflexivity.
Qed.

(** X7: when performing the action and verifying its expectations succeeds,
    [exploreAction] leaves the visited set and the start states alone,
    appends the transition to the node of [fromState] if there is one,
    queues a child task exactly when the state reached is not visited yet,
    and logs the start and the completion of the action.  The way back is
    inside the [try]: if its navigation throws, the [catch] block logs an
    error for the action that has just been reported as complete, and the
    transition stays. *)
Theorem exploreAction_success_bookkeeping
    page fromState action task s toState vs s1 :
  performAndVerify env config page action task
    (snd (emit (EvActionStart action (state_id fromState)) s))
  = (Ok (toState, vs), s1) ->
  let c := core s in
  let c' := core (snd (exploreAction env config page fromState action task s)) in
  let t := {| tr_fromState := state_id fromState;
              tr_toState := state_id toState; tr_action := action;
              tr_viewport := task_viewport task; tr_verifications := vs |} in
  let child := {| task_url := pageUrl env page (world s1);
                  task_path := (task_path task ++ [action])%list;
                  task_depth := task_depth task + 1;
                  task_viewport := task_viewport task |} in
  visited c' = visited c
  /\ startStates c' = startStates c
  /\ states c' = match states c !! state_id fromState with
                 | Some node =>
                     <[state_id fromState := push_transition t node]> (states c)
                 | None => states c
                 end
  /\ queue c' = (if bool_decide (state_id toState ∈ visited c) then queue c
                 else (queue c ++ [child])%list)
  /\ events c' =
       (events c
       ++ [EvActionStart action (state_id fromState);
           EvActionComplete
             {| ar_action := action; ar_fromState := state_id fromState;
                ar_toState := state_id toState; ar_success := true;
                ar_verifications := vs |}]
       ++ match fst (goto env page (task_url task)
                       {| goto_timeout := None; goto_waitUntil := wu_load |}
                       (world s1)) with
          | Ok _ => []
          | Throw e => [EvActionError action e]
          end)%list.
Proof.
  intros Hperf c c' t child.
  pose proof (performAndVerify_core env config page action task
                (snd (emit (EvActionStart action (state_id fromState)) s))) as Hc1.
  rewrite Hperf in Hc1. cbn [snd] in Hc1. rewrite emit_core in Hc1.
  subst c'. unfold exploreAction, emit. rewrite bind_update.
  unfold try_catch. unfold emit in Hperf. cbn [snd update] in Hperf.
  rewrite (bind_ok _ _ _ _ _ Hperf).
  unfold recordAndBacktrack, addTransitionToGraph. cbv zeta.
  destruct s1 as [c1 w1]. cbn [core world] in *. subst c1.
  assert (Hend : forall s2 : St,
    world s2 = w1 ->
    let s3 := snd (match backtrack env config page task s2 with
                   | (Ok a, s') => (Ok a, s')
                   | (Throw e, s') => recover env config page action task e s'
                   end) in
    core s3 =
    set_events
      (events (core s2) ++
       match fst (goto env page (task_url task)
                    {| goto_timeout := None; goto_waitUntil := wu_load |} w1)
       with Ok _ => [] | Throw e => [EvActionError action e] end)%list
      (core s2)).
  { intros s2 Hw. cbv zeta.
    pose proof (backtrack_outcome page task s2) as Ho.
    pose proof (backtrack_core env config page task s2) as Hb.
    rewrite Hw in Ho.
    destruct (goto env page (task_url task) _ w1) as [[[]|e] w2];
      destruct (backtrack env config page task s2) as [[[]|e'] s'];
      cbn [fst snd] in *; try discriminate.
    - rewrite Hb, app_nil_r. now destruct (core s2).
    - injection Ho as ->. rewrite recover_returns. cbn [snd].
      rewrite backtrack_core, emit_core, Hb. reflexivity. }
  cbv zeta in Hend.
  unfold bind, get, when_some, emit, update, observe, ret.
  cbn [core world states visited set_events set_states set_queue].
  fold c.
  destruct (states c !! state_id fromState) as [node|] eqn:Hn;
    cbn [core world states visited queue events set_events set_states set_queue];
    destruct (bool_decide (state_id toState ∈ visited c)) eqn:Hseen;
    cbn [core world states visited queue events set_events set_states set_queue];
    match goal with
    | |- context [backtrack env config page task ?s2] =>
        rewrite (Hend s2 eq_refl)
    end;
    subst c; destruct (core s); cbn; rewrite <- ?app_assoc;
    repeat split; reflexivity.
Qed.

(** ** [exploreTask]: what gets out of it *)

Lemma try_catch_swallow (m : Crawl unit) (s : St) :
  fst (try_catch m (fun _ => ret tt) s) = Ok tt.
Proof. unfold try_catch. now destruct (m s) as [[[]|e] s1]. Qed.

(** X8: only opening and closing the page can make [exploreTask] throw: errors
    of the navigation, the fingerprint, the validators, the discovery and
    the actions are all swallowed by its [catch]. *)
Theorem exploreTask_errors_only_from_page_lifecycle task s e :
  fst (exploreTask env config task s) = Throw e ->
  fst (newPage env (world s)) = Throw e
  \/ exists page w, fst (pageCall env page PClose w) = Throw e.
Proof.
  unfold exploreTask, bind, call at 1.
  destruct (newPage env (world s)) as [[page|e0] w1];
    [|intros H; left; cbn in *; congruence].
  set (s1 := {| core := core s; world := w1 |}).
  unfold try_finally.
  match goal with |- context [try_catch ?m ?h s1] =>
    pose proof (try_catch_swallow m s1) as Hb;
    destruct (try_catch m h s1) as [r s2]
  end.
  cbn [fst] in Hb. subst r. unfold call. intros H. right.
  exists page, (world s2).
  destruct (pageCall env page PClose (world s2)) as [[[]|e2] w2];
    [discriminate | exact H].
Qed.


(** ** [explore]: the run as a whole *)

#[local] Instance grows_preorder : PreOrder grows.
Proof.
  split.
  - intros c. repeat split; try reflexivity; exists []; now rewrite app_nil_r.
  - intros a b c (Hv & Hd & [l1 He] & [l2 Hs]) (Hv' & Hd' & [l1' He'] & [l2' Hs']).
    repeat split; [set_solver | set_solver | |].
    + exists (l1 ++ l1')%list. now rewrite He', He, app_assoc.
    + exists (l2 ++ l2')%list. now rewrite Hs', Hs, app_assoc.
Qed.

Lemma grows_queue c q : grows c (set_queue q c).
Proof.
  repeat split; try reflexivity; exists []; cbn; now rewrite app_nil_r.
Qed.

Lemma grows_event c ev : grows c (set_events (events c ++ [ev]) c).
Proof.
  repeat split; try reflexivity; [now exists [ev] | exists []].
  cbn. now rewrite app_nil_r.
Qed.

Lemma grows_step s :
  grows (core s) (core (state_after (loop_step env config s))).
Proof.
  apply (invariant_step (grows (core s)) (fun _ => grows (core s)));
    try reflexivity.
  - intros c task rest _ H. etransitivity; [exact H | apply grows_queue].
  - intros c task rest _ H. etransitivity; [exact H | apply grows_queue].
  - intros task c H. exact H.
  - intros task c ev H. etransitivity; [exact H | apply grows_event].
  - intros task c id (Hv & Hd & He & Hs). repeat split; try assumption.
    cbn. set_solver.
  - intros task c state issues (Hv & Hd & He & Hs).
    repeat split; try assumption. cbn. rewrite dom_insert_L. set_solver.
  - intros task c id (Hv & Hd & He & [l Hl]). repeat split; try assumption.
    cbn. exists (l ++ [id])%list. rewrite Hl. now rewrite app_assoc.
  - intros task c from node t _ _ (Hv & Hd & He & Hs).
    repeat split; try assumption. cbn. rewrite dom_insert_L. set_solver.
  - intros task c child _ H. etransitivity; [exact H | apply grows_queue].
Qed.

Lemma explore_loop_grows fuel : forall s r s',
  explore_loop env config fuel s = Some (r, s') -> grows (core s) (core s').
Proof.
  induction fuel as [|fuel IH]; intros s r s' H; [discriminate|].
  cbn [explore_loop] in H. pose proof (grows_step s) as Hg.
  destruct (loop_step env config s) as [s1|s1|t r0 s1]; cbn in Hg.
  - injection H as _ <-. exact Hg.
  - etransitivity; [exact Hg | eapply IH, H].
  - destruct r0 as [[]|e].
    + etransitivity; [exact Hg | eapply IH, H].
    + injection H as _ <-. exact Hg.
Qed.

Lemma explore_start_grows s :
  grows (core s) (core (snd (explore_start env config s))).
Proof.
  change (@on_core W grows s (snd (explore_start env config s))).
  unfold explore_start, enqueueStartTasks.
  apply keeps_bind; [apply _ | apply keeps_call; apply _ | intros ?].
  apply keeps_for_of; [apply _ | intros url].
  apply keeps_for_of; [apply _ | intros vp].
  apply keeps_update. intros c. apply grows_queue.
Qed.

(** X10: [explore] always comes to an end, and whatever happens it reports and
    cleans up: the event log starts with the start event and ends with the
    completion event, or with the error event carrying the error of the run;
    [cleanup] is the last thing done, and an error of [cleanup] replaces the
    outcome of the run. *)
Theorem explore_reports_and_cleans_up s :
  exists fuel r s3,
    explore env config fuel s
    = Some (match fst (cleanup env (world s3)) with
            | Ok _ => r
            | Throw e => Throw e
            end,
            {| core := core s3; world := snd (cleanup env (world s3)) |})
    /\ exists l,
         events (core s3)
         = (events (core s) ++ EvStart :: l
            ++ [match r with Ok _ => EvComplete | Throw e => EvError e end])%list.
Proof.
  set (s0 := snd (emit EvStart s)).
  assert (Hfin : forall (r : Res unit) (s2 : St),
    try_finally
      (match r with Ok _ => ret tt | Throw e => emit (EvError e) ;; throw e end)
      (call (cleanup env)) s2
    = (match fst (cleanup env (world s2)) with
       | Ok _ => r
       | Throw e => Throw e
       end,
       {| core := match r with
                  | Ok _ => core s2
                  | Throw e => set_events (events (core s2) ++ [EvError e]) (core s2)
                  end;
          world := snd (cleanup env (world s2)) |})).
  { intros [[]|e] s2; unfold try_finally, call, bind, emit, update, throw, ret;
      cbn [core world]; destruct (cleanup env (world s2)) as [[[]|e'] w'];
      reflexivity. }
  pose proof (explore_start_grows s0) as (_ & _ & [l1 Hl1] & _).
  assert (Hs0 : events (core s0) = (events (core s) ++ [EvStart])%list)
    by reflexivity.
  destruct (explore_start env config s0) as [[[]|e] s1] eqn:Hstart;
    cbn [snd] in Hl1.
  - destruct (explore_loop_terminates_aux env config _ _ s1 (le_n _) (le_n _))
      as (fuel & r & s2 & Hrun & _).
    pose proof (explore_loop_grows _ _ _ _ Hrun) as (_ & _ & [l2 Hl2] & _).
    destruct r as [[]|e].
    + exists fuel, (Ok tt), (snd (emit EvComplete s2)).
      unfold explore. cbv zeta. fold s0. rewrite Hstart, Hrun.
      change (emit EvComplete s2)
        with (@Ok unit tt, snd (@emit W EvComplete s2)).
      cbv beta iota. rewrite (Hfin (Ok tt)). split; [reflexivity|].
      exists (l1 ++ l2)%list. unfold emit, update.
      cbn [snd core events set_events].
      rewrite Hl2, Hl1, Hs0. rewrite <- !app_assoc. reflexivity.
    + exists fuel, (Throw e),
        {| core := set_events (events (core s2) ++ [EvError e]) (core s2);
           world := world s2 |}.
      unfold explore. cbv zeta. fold s0. rewrite Hstart, Hrun.
      rewrite (Hfin (Throw e)). split; [reflexivity|].
      exists (l1 ++ l2)%list. cbn [core events set_events].
      rewrite Hl2, Hl1, Hs0. rewrite <- !app_assoc. reflexivity.
  - exists 0%nat, (Throw e),
      {| core := set_events (events (core s1) ++ [EvError e]) (core s1);
         world := world s1 |}.
    unfold explore. cbv zeta. fold s0. rewrite Hstart.
    rewrite (Hfin (Throw e)). split; [reflexivity|].
    exists l1. cbn [core events set_events].
    rewrite Hl1, Hs0. rewrite <- !app_assoc. reflexivity.
Qed.

(** ** [buildResult] *)

Lemma spread_set_elem seen l x :
  x ∈ spread_set seen l <-> x ∈ l /\ x ∉ seen.
Proof.
  revert seen. induction l as [|y l IH]; intros seen; cbn.
  - split; [intros H; inversion H | intros [H _]; inversion H].
  - case_bool_decide as Hy.
    + rewrite IH, elem_of_cons. split; [tauto|].
      intros [[->|Hx] Hn]; [contradiction | tauto].
    + rewrite !elem_of_cons, IH, not_elem_of_cons. split.
      * intros [->|[Hx [_ Hn]]]; tauto.
      * intros [[->|Hx] Hn]; [tauto|].
        destruct (decide (x = y)); tauto.
Qed.

Lemma spread_set_NoDup seen l : NoDup (spread_set seen l).
Proof.
  revert seen. induction l as [|y l IH]; intros seen; cbn; [constructor|].
  case_bool_decide; [apply IH|].
  constructor; [|apply IH]. rewrite spread_set_elem, not_elem_of_cons. tauto.
Qed.

Lemma spread_set_length seen l : (length (spread_set seen l) <= length l)%nat.
Proof.
  revert seen. induction l as [|y l IH]; intros seen; cbn; [lia|].
  case_bool_decide; cbn; [specialize (IH seen) | specialize (IH (y :: seen))];
    lia.
Qed.

Lemma fold_left_count {A} (f : A -> nat) l n :
  fold_left (fun sum a => sum + f a)%nat l n
  = (n + length (concat (map (fun a => repeat tt (f a)) l)))%nat.
Proof.
  revert n. induction l as [|a l IH]; intros n; cbn; [lia|].
  rewrite IH, length_app, repeat_length. lia.
Qed.

Lemma filter_passed_split (l : list VerificationResult) :
  (length (filter (fun v => passed v) l)
   + length (filter (fun v => negb (passed v)) l) = length l)%nat.
Proof.
  induction l as [|v l IH]; [reflexivity|].
  rewrite !filter_cons.
  destruct (passed v) eqn:E; cbn [negb]; repeat case_decide;
    cbn [length] in *; try lia; exfalso; cbn in *; tauto.
Qed.

(** X11: the summary of [buildResult] adds up: every verification is counted as
    passed or as failed, never both; the number of actions is the number of
    transitions in the graph; the URLs covered are the URLs of the graph's
    states, each listed once, so there are at most as many as states. *)
Theorem buildResult_summary_adds_up c :
  let r := buildResult c in
  (verificationsPassed r + verificationsFailed r
   = length (getAllVerifications c))%nat
  /\ actionsPerformed r
     = length (concat (map (fun kv => node_transitions (snd kv))
                         (map_to_list (states c))))
  /\ NoDup (urlsCovered r)
  /\ (forall u, u ∈ urlsCovered r <->
                exists id node, states c !! id = Some node
                                /\ state_url (node_state node) = u)
  /\ (length (urlsCovered r) <= statesExplored r)%nat.
Proof.
  cbv zeta. unfold buildResult. cbn.
  split; [apply filter_passed_split|]. split; [|split; [|split]].
  - rewrite fold_left_count. cbn.
    induction (map_to_list (states c)) as [|kv l IH]; [reflexivity|].
    cbn. rewrite !length_app, repeat_length, IH. reflexivity.
  - apply spread_set_NoDup.
  - intros u. rewrite spread_set_elem. split.
    + intros [Hu _]. apply list_elem_of_fmap in Hu as (node & -> & Hn).
      apply list_elem_of_fmap in Hn as ([id node'] & -> & Hkv).
      apply elem_of_map_to_list in Hkv. eauto.
    + intros (id & node & Hl & <-). split; [|apply not_elem_of_nil].
      apply list_elem_of_fmap. exists node. split; [reflexivity|].
      apply list_elem_of_fmap. exists (id, node). split; [reflexivity|].
      now apply elem_of_map_to_list.
  - etransitivity; [apply spread_set_length|].
    now rewrite !length_map, length_map_to_list.
Qed.



(** ** [resolveTestData] *)

Lemma substring_all s : String.substring 0 (String.length s) s = s.
Proof. induction s as [|c s IH]; [reflexivity|]. cbn. now rewrite IH. Qed.

Lemma substring_split n : forall s,
  (n <= String.length s)%nat ->
  String.append (String.substring 0 n s)
    (String.substring n (String.length s - n) s) = s.
Proof.
  induction n as [|n IH]; intros s Hn.
  - rewrite Nat.sub_0_r, substring_all. now destruct s.
  - destruct s as [|c s]; cbn in *; [lia|].
    change (String c (String.append (String.substring 0 n s)
                        (String.substring n (String.length s - n) s))
            = String c s).
    f_equal. apply IH. lia.
Qed.

Lemma substring_tail_length n : forall s,
  (n <= String.length s)%nat ->
  String.length (String.substring n (String.length s - n) s)
  = (String.length s - n)%nat.
Proof.
  induction n as [|n IH]; intros s Hn.
  - now rewrite Nat.sub_0_r, substring_all.
  - destruct s as [|c s]; cbn in *; [lia|]. apply IH. lia.
Qed.

Lemma prefix_length p : forall s,
  String.prefix p s = true -> (String.length p <= String.length s)%nat.
Proof.
  induction p as [|c p IH]; intros s H; cbn; [lia|].
  destruct s as [|d s]; cbn in *; [discriminate|].
  destruct (Ascii.ascii_dec c d); [|discriminate].
  specialize (IH s H). lia.
Qed.

Lemma take_word_length s :
  (String.length (fst (take_word s)) + String.length (snd (take_word s))
   = String.length s)%nat.
Proof.
  induction s as [|c s IH]; [reflexivity|]. cbn.
  destruct (is_word_char c); [|cbn; lia].
  destruct (take_word s) as [w r]. cbn in *. lia.
Qed.

Lemma match_placeholder_length s key len :
  match_placeholder s = Some (key, len) ->
  (1 <= len <= String.length s)%nat.
Proof.
  unfold match_placeholder.
  destruct (String.prefix placeholder_prefix s) eqn:Hp; [|discriminate].
  apply prefix_length in Hp. change (String.length placeholder_prefix) with 11%nat in Hp.
  pose proof (take_word_length
                (String.substring 11 (String.length s - 11) s)) as Hw.
  rewrite substring_tail_length in Hw by exact Hp.
  destruct (take_word _) as [k after]. cbn [fst snd] in Hw.
  destruct (String.eqb k ""); [discriminate|].
  destruct (String.prefix "}}" after) eqn:Ha; [|discriminate].
  apply prefix_length in Ha. cbn in Ha.
  intros [= <- <-]. lia.
Qed.

Lemma replace_placeholders_no_keys table value : forall skip (s : St),
  (skip <= String.length value)%nat ->
  Forall (fun key => table !! key = None /\ inheritedMember env key = None)
    (placeholder_keys value) ->
  replace_placeholders env table skip value s
  = (Ok (String.substring skip (String.length value - skip) value), s).
Proof.
  induction value as [|c rest IH]; intros skip s Hskip Hkeys.
  - cbn in Hskip. now replace skip with 0%nat by lia.
  - cbn [replace_placeholders]. cbn [placeholder_keys] in Hkeys.
    destruct skip as [|k].
    + destruct (match_placeholder (String c rest)) as [[key len]|] eqn:Hm.
      * apply match_placeholder_length in Hm as Hlen.
        apply Forall_cons in Hkeys as [[Hown Hinh] Hkeys].
        unfold replacement. rewrite Hown, Hinh.
        unfold bind at 1, ret at 1.
        destruct len as [|l]; [lia|]. cbn [String.length] in Hlen.
        unfold bind. rewrite IH by (cbn; lia || exact Hkeys).
        unfold ret. f_equal. f_equal.
        rewrite ?Nat.sub_0_r, ?substring_all.
        replace (S l - 1)%nat with l by lia.
        exact (substring_split (S l) (String c rest) (proj2 Hlen)).
      * unfold bind. rewrite IH by (lia || exact Hkeys).
        unfold ret. f_equal. f_equal.
        rewrite !Nat.sub_0_r, !substring_all. reflexivity.
    + cbn [String.length] in Hskip.
      assert (Hrest : Forall
                (fun key => table !! key = None
                            /\ inheritedMember env key = None)
                (placeholder_keys rest)).
      { destruct (match_placeholder (String c rest)) as [[key len]|];
          [now apply Forall_cons in Hkeys | exact Hkeys]. }
      rewrite IH by (lia || exact Hrest). reflexivity.
Qed.

(** X13: text in which no placeholder names a property of the test data,
    its own or one that an object inherits ([toString], [constructor],
    ...), goes through [resolveTestData] unchanged and calls no generator:
    a placeholder with an unknown key is left as written. *)
Theorem resolveTestData_leaves_other_text table value s :
  testData config = Some table ->
  Forall (fun key => table !! key = None /\ inheritedMember env key = None)
    (placeholder_keys value) ->
  resolveTestData env config value s = (Ok value, s).
Proof.
  intros Ht Hkeys. unfold resolveTestData. rewrite Ht.
  rewrite replace_placeholders_no_keys by (lia || exact Hkeys).
  now rewrite Nat.sub_0_r, substring_all.
Qed.

End ExplorerMore.

(** * Further properties of the link checker *)

Section BrokenLinksMore.
Import BrokenLinks.
Context {Net : Type}.
Variable fetch : Request -> Net -> FetchOutcome * Net.
Variable parseURL : string -> option (string * string).
Variable regexSyntaxError : string -> option Thrown.
Variable regexMatch : string -> bool -> string -> bool.
Variable regexTest : RegExp -> string -> Net -> bool * Net.
Variable config : BrokenLinksValidatorConfig.

Lemma fetchLink_link l (st : @VState Net) :
  link (fst (fetchLink fetch config l st)) = l.
Proof.
  unfold fetchLink.
  destruct (fetch (request config l HEAD) (net st)) as [[r|e] n1];
    [|reflexivity].
  destruct (resp_status r =? 405); [|reflexivity].
  destruct (fetch (request config l GET) n1) as [[r'|e'] n2]; reflexivity.
Qed.

Lemma fetchLink_cached l (st : @VState Net) :
  checkedUrls (snd (fetchLink fetch config l st))
  = <[href l := fst (fetchLink fetch config l st)]> (checkedUrls st).
Proof.
  unfold fetchLink.
  destruct (fetch (request config l HEAD) (net st)) as [[r|e] n1];
    [|reflexivity].
  destruct (resp_status r =? 405); [|reflexivity].
  destruct (fetch (request config l GET) n1) as [[r'|e'] n2]; reflexivity.
Qed.

(** X14: once a link has been checked, every link with the same URL is answered
    from the cache: no request is made, and the status, the error (a
    timeout included) and the redirects are those of the first check, under
    the new link.  After [clearCache] the next check asks the network
    again. *)
Theorem checkLink_answers_repeats_from_cache l l' (st : @VState Net) :
  href l' = href l ->
  let r1 := fst (checkLink fetch config l st) in
  let st1 := snd (checkLink fetch config l st) in
  checkLink fetch config l' st1 = (withLink r1 l', st1)
  /\ checkLink fetch config l' (clearCache st1)
     = fetchLink fetch config l' (clearCache st1).
Proof.
  intros Hh r1 st1. split.
  - subst r1 st1.
    destruct (checkedUrls st !! href l) as [cached|] eqn:Hc.
    + assert (E : checkLink fetch config l st = (withLink cached l, st))
        by (unfold checkLink; now rewrite Hc).
      rewrite E. cbn [fst snd]. unfold checkLink. now rewrite Hh, Hc.
    + assert (E : checkLink fetch config l st = fetchLink fetch config l st)
        by (unfold checkLink; now rewrite Hc).
      rewrite E. unfold checkLink.
      rewrite Hh, fetchLink_cached, lookup_insert_eq. reflexivity.
  - unfold checkLink, clearCache. cbn [checkedUrls].
    now rewrite lookup_empty.
Qed.

Lemma status_and_true st c :
  status_and st c = true <-> exists v, st = Some v /\ v <> 0 /\ c v = true.
Proof.
  unfold status_and. destruct st as [v|].
  - rewrite andb_true_iff, negb_true_iff, Z.eqb_neq. split.
    + intros [H1 H2]. eauto.
    + intros (v' & [= <-] & H1 & H2). auto.
  - split; [discriminate | intros (v & H & _); discriminate].
Qed.

(** X15: [resultToIssue] gives no issue exactly for a status from 200 to 399,
    whatever the error recorded.  Otherwise the issue is a network issue on
    the link's selector, its rule is one of six and fixes its severity, and
    only a status of 500 or more, without an error, is critical. *)
Theorem resultToIssue_classification r vp :
  (resultToIssue config r vp = None
   <-> exists v, status r = Some v /\ 200 <= v < 400)
  /\ forall i, resultToIssue config r vp = Some i ->
       issue_type i = i_network
       /\ issue_viewport i = Some vp
       /\ issue_elements i = Some [selector (link r)]
       /\ In (issue_rule i, issue_severity i)
            [("link-timeout", moderate); ("link-connection-error", serious);
             ("broken-link-404", serious);
             ("broken-link-server-error", critical);
             ("broken-link-client-error", moderate);
             ("link-unknown-status", minor)]
       /\ (issue_severity i = critical ->
           truthy_str (error r) = None
           /\ exists v, status r = Some v /\ 500 <= v).
Proof.
  unfold resultToIssue. cbv zeta.
  destruct (status_and (status r) (fun v => (200 <=? v) && (v <? 400)))
    eqn:Hok.
  - apply status_and_true in Hok as (v & Hv & _ & Hr).
    apply andb_true_iff in Hr as [H1 H2].
    apply Z.leb_le in H1. apply Z.ltb_lt in H2.
    split; [|discriminate]. split; [|reflexivity]. intros _. eauto.
  - split.
    + split.
      * destruct (truthy_str (error r)) as [err|];
          [destruct (String.eqb err "Timeout")
          |destruct (bool_decide (status r = Some 404));
           [|destruct (status_and (status r) (fun v => 500 <=? v));
             [|destruct (status_and (status r) (fun v => 400 <=? v))]]];
          discriminate.
      * intros (v & Hv & Hr). exfalso.
        assert (H : status_and (status r)
                      (fun v => (200 <=? v) && (v <? 400)) = true).
        { apply status_and_true. exists v. split; [exact Hv|].
          split; [lia|]. apply andb_true_iff.
          split; [apply Z.leb_le | apply Z.ltb_lt]; lia. }
        congruence.
    + intros i.
      destruct (truthy_str (error r)) as [err|] eqn:He.
      * destruct (String.eqb err "Timeout"); intros [= <-]; cbn;
          repeat split; auto 10; discriminate.
      * destruct (bool_decide (status r = Some 404));
          [intros [= <-]; cbn; repeat split; auto 10; discriminate|].
        destruct (status_and (status r) (fun v => 500 <=? v)) eqn:H5.
        { intros [= <-]; cbn. repeat split; auto 10.
          apply status_and_true in H5 as (v & Hv & _ & Hr).
          apply Z.leb_le in Hr. eauto. }
        destruct (status_and (status r) (fun v => 400 <=? v));
          intros [= <-]; cbn; repeat split; auto 10; discriminate.
Qed.

(** ** The worker pool *)

Lemma pick_some {A} i (l : list A) :
  l <> [] ->
  exists x l', pick i l = Some (x, l') /\ Permutation l (x :: l').
Proof.
  intros Hne. unfold pick.
  assert (Hlt : (i mod length l < length l)%nat).
  { apply Nat.mod_upper_bound. destruct l; [contradiction | discriminate]. }
  set (k := (i mod length l)%nat) in *.
  destruct (lookup_lt_is_Some_2 l k Hlt) as [x Hx]. rewrite Hx.
  exists x, (take k l ++ drop (S k) l)%list. split; [reflexivity|].
  rewrite <- (take_drop_middle l k x Hx) at 1.
  symmetry. apply Permutation_middle.
Qed.

Lemma pick_nil {A} i : pick i (@nil A) = None.
Proof. unfold pick. now rewrite lookup_nil. Qed.

(** The links of a pool: checked, in flight and waiting. *)
Lemma takeNext_links (p : @Pool Net) :
  (map job_link (pool_inflight (takeNext p)) ++ pool_queue (takeNext p))%list
  = (map job_link (pool_inflight p) ++ pool_queue p)%list
  /\ pool_results (takeNext p) = pool_results p
  /\ (length (pool_inflight (takeNext p)) <= S (length (pool_inflight p)))%nat
  /\ (pool_queue (takeNext p) = [] \/ pool_inflight (takeNext p) <> []).
Proof.
  unfold takeNext. destruct (pool_queue p) as [|l rest] eqn:Hq.
  - rewrite Hq. repeat split; [lia | now left].
  - cbn. rewrite map_app, <- app_assoc. cbn. rewrite length_app. cbn.
    repeat split; [lia | right]. now destruct (pool_inflight p).
Qed.

Lemma settle_links i (p : @Pool Net) :
  pool_inflight p <> [] ->
  let p' := settle fetch config i p in
  Permutation
    (map link (pool_results p') ++ map job_link (pool_inflight p')
       ++ pool_queue p')
    (map link (pool_results p) ++ map job_link (pool_inflight p)
       ++ pool_queue p)
  /\ (length (pool_inflight p') <= length (pool_inflight p))%nat
  /\ (length (pool_inflight p') + length (pool_queue p')
      = length (pool_inflight p) + length (pool_queue p) - 1)%nat
  /\ (pool_queue p' = [] \/ pool_inflight p' <> []).
Proof.
  intros Hne. cbv zeta. unfold settle.
  destruct (pick_some i (pool_inflight p) Hne) as (job & others & -> & Hperm).
  set (res := match job_cached job with
              | Some cached => (withLink cached (job_link job), pool_state p)
              | None => fetchLink fetch config (job_link job) (pool_state p)
              end).
  assert (Hl : link (fst res) = job_link job).
  { subst res. destruct (job_cached job); [reflexivity|].
    apply fetchLink_link. }
  destruct res as [result st']. cbn [fst] in Hl.
  match goal with |- context [takeNext ?q] =>
    destruct (takeNext_links q) as (Hk & Hr & Hn & Hc); set (p' := takeNext q) in *
  end.
  cbn [pool_queue pool_inflight pool_results] in *.
  pose proof (Permutation_length Hperm) as Hlen. cbn in Hlen.
  assert (Hsum : (length (pool_inflight p') + length (pool_queue p')
                  = length others + length (pool_queue p))%nat).
  { apply (f_equal (@length _)) in Hk.
    rewrite !length_app, !length_map in Hk. exact Hk. }
  split; [|split; [lia | split; [lia | exact Hc]]].
  rewrite Hr, Hk, map_app. cbn. rewrite Hl, <- app_assoc. cbn.
  rewrite Hperm. cbn.
  reflexivity.
Qed.

Lemma settle_idle i (p : @Pool Net) :
  pool_inflight p = [] -> settle fetch config i p = p.
Proof. intros H. unfold settle. now rewrite H, pick_nil. Qed.

Lemma settleAll_inflight n : forall schedule (p : @Pool Net),
  (length (pool_inflight (settleAll fetch config n schedule p))
   <= length (pool_inflight p))%nat.
Proof.
  induction n as [|n IH]; intros schedule p; cbn [settleAll]; [lia|].
  etransitivity; [apply IH|].
  destruct (pool_inflight p) as [|j js] eqn:Hi.
  - rewrite settle_idle by exact Hi. rewrite Hi. cbn. lia.
  - rewrite <- Hi. apply settle_links. rewrite Hi. discriminate.
Qed.

Lemma settleAll_links n : forall schedule (p : @Pool Net),
  pool_queue p = [] \/ pool_inflight p <> [] ->
  let p' := settleAll fetch config n schedule p in
  Permutation
    (map link (pool_results p') ++ map job_link (pool_inflight p')
       ++ pool_queue p')
    (map link (pool_results p) ++ map job_link (pool_inflight p)
       ++ pool_queue p)
  /\ (length (pool_inflight p') + length (pool_queue p')
      = length (pool_inflight p) + length (pool_queue p) - n)%nat.
Proof.
  induction n as [|n IH]; intros schedule p Hc; cbn [settleAll].
  - split; [reflexivity | lia].
  - destruct (pool_inflight p) as [|j js] eqn:Hi.
    + destruct Hc as [Hq|Hne]; [|contradiction].
      rewrite settle_idle by exact Hi.
      destruct (IH (tail schedule) p (or_introl Hq)) as [Hp Hn].
      rewrite Hi, Hq in *. cbn in *. split; [exact Hp | lia].
    + assert (Hne : pool_inflight p <> []) by (rewrite Hi; discriminate).
      destruct (settle_links (hd O schedule) p Hne) as (Hp & _ & Hn & Hc').
      destruct (IH (tail schedule) _ Hc') as [Hp' Hn'].
      rewrite <- Hi. split; [now rewrite Hp', Hp | lia].
Qed.

Lemma start_workers k : forall (p : @Pool Net),
  let p' := Nat.iter k takeNext p in
  (map job_link (pool_inflight p') ++ pool_queue p')%list
  = (map job_link (pool_inflight p) ++ pool_queue p)%list
  /\ pool_results p' = pool_results p
  /\ (length (pool_inflight p') <= length (pool_inflight p) + k)%nat
  /\ ((1 <= k)%nat -> pool_queue p' = [] \/ pool_inflight p' <> []).
Proof.
  induction k as [|k IH]; intros p; cbv zeta.
  - cbn. repeat split; [lia | intros H; exfalso; lia].
  - rewrite Nat.iter_succ. destruct (IH p) as (Hk & Hr & Hn & _).
    destruct (takeNext_links (Nat.iter k takeNext p)) as (Hk' & Hr' & Hn' & Hc).
    cbv zeta in *.
    split; [now rewrite Hk', Hk|]. split; [now rewrite Hr', Hr|].
    split; [lia | intros _; exact Hc].
Qed.

Lemma checkLinks_links links concurrency schedule (st : @VState Net) :
  (1 <= concurrency)%nat ->
  Permutation
    (map link
       (fst (checkLinksWithConcurrency fetch config links concurrency
               schedule st)))
    links.
Proof.
  intros Hc. unfold checkLinksWithConcurrency. cbv zeta. cbn [fst].
  set (init := {| pool_queue := links; pool_inflight := [];
                  pool_results := []; pool_state := st |}).
  set (workers := Nat.min concurrency (length links)).
  destruct (start_workers workers init) as (Hk & Hr & _ & Hw).
  assert (Hready : pool_queue (Nat.iter workers takeNext init) = []
                   \/ pool_inflight (Nat.iter workers takeNext init) <> []).
  { destruct links as [|l links'] eqn:Hl.
    - left. subst workers. rewrite Nat.min_0_r. reflexivity.
    - apply Hw. subst workers. cbn [length]. lia. }
  destruct (settleAll_links (length links) schedule _ Hready) as [Hp Hn].
  set (final := settleAll fetch config (length links) schedule _) in *.
  assert (Hsum : (length (pool_inflight (Nat.iter workers takeNext init))
                  + length (pool_queue (Nat.iter workers takeNext init))
                  = length links)%nat).
  { apply (f_equal (@length _)) in Hk.
    rewrite !length_app, !length_map in Hk. exact Hk. }
  assert (Hi : pool_inflight final = []) by (apply length_zero_iff_nil; lia).
  assert (Hq : pool_queue final = []) by (apply length_zero_iff_nil; lia).
  rewrite Hi, Hq in Hp. cbn in Hp. rewrite app_nil_r in Hp.
  rewrite Hp, Hr, Hk. reflexivity.
Qed.

(** X16: with at least one worker every link is checked exactly once, whatever
    the order in which the requests settle: there are as many results as
    links, and the results are those of the links given, each once. *)
Theorem pool_checks_every_link_once links concurrency schedule
    (st : @VState Net) :
  (1 <= concurrency)%nat ->
  let results :=
    fst (checkLinksWithConcurrency fetch config links concurrency
           schedule st) in
  Permutation (map link results) links /\ length results = length links.
Proof.
  intros Hc results. pose proof (checkLinks_links links _ schedule st Hc) as H.
  split; [exact H|]. apply Permutation_length in H.
  now rewrite length_map in H.
Qed.

(** X17: the pool never has more requests in flight than its concurrency, at any
    point of any schedule. *)
Theorem pool_inflight_within_concurrency links concurrency schedule
    (st : @VState Net) k :
  (length
     (pool_inflight
        (settleAll fetch config k schedule
           (Nat.iter (Nat.min concurrency (length links)) takeNext
              {| pool_queue := links; pool_inflight := [];
                 pool_results := []; pool_state := st |})))
   <= concurrency)%nat.
Proof.
  etransitivity; [apply settleAll_inflight|].
  destruct (start_workers (Nat.min concurrency (length links))
              {| pool_queue := links; pool_inflight := [];
                 pool_results := []; pool_state := st |}) as (_ & _ & Hn & _).
  cbn in Hn. lia.
Qed.

(** ** [validate] *)




(** ** [generateReport] *)

Lemma spread_set_snoc l : forall seen x,
  spread_set seen (l ++ [x])
  = (spread_set seen l
     ++ if bool_decide (x ∈ (seen ++ l)%list) then [] else [x])%list.
Proof.
  induction l as [|y l IH]; intros seen x; cbn.
  - rewrite app_nil_r. now case_bool_decide.
  - case_bool_decide as Hy.
    + rewrite IH. f_equal.
      rewrite (bool_decide_ext (x ∈ (seen ++ l)%list) (x ∈ (seen ++ y :: l)%list));
        [reflexivity|].
      rewrite !elem_of_app, elem_of_cons.
      split; [tauto|]. intros [H|[->|H]]; tauto.
    + cbn. rewrite IH. do 2 f_equal.
      rewrite (bool_decide_ext (x ∈ ((y :: seen) ++ l)%list) (x ∈ (seen ++ y :: l)%list));
        [reflexivity|].
      rewrite !elem_of_app, !elem_of_cons. tauto.
Qed.

Lemma with_rule_snoc rule l i :
  with_rule rule (l ++ [i])
  = (with_rule rule l
     ++ if String.eqb (issue_rule i) rule then [i] else [])%list.
Proof. unfold with_rule. now rewrite List.filter_app. Qed.

Lemma with_rule_nil rule l :
  rule ∉ map issue_rule l -> with_rule rule l = [].
Proof.
  induction l as [|i l IH]; intros Hn; [reflexivity|]. cbn in *.
  apply not_elem_of_cons in Hn as [Hne Hn].
  destruct (String.eqb_spec (issue_rule i) rule) as [E|_]; [congruence|].
  now apply IH.
Qed.

Lemma addToRule_spec i l : forall byRule,
  NoDup (map fst byRule) ->
  Forall (fun kv => snd kv = with_rule (fst kv) l) byRule ->
  (issue_rule i ∉ map fst byRule -> with_rule (issue_rule i) l = []) ->
  Forall (fun kv => snd kv = with_rule (fst kv) (l ++ [i]))
    (addToRule (issue_rule i) i byRule)
  /\ map fst (addToRule (issue_rule i) i byRule)
     = (map fst byRule
        ++ if bool_decide (issue_rule i ∈ map fst byRule) then []
           else [issue_rule i])%list.
Proof.
  induction byRule as [|[r g] rest IH]; intros Hnd Hall Hnew.
  - cbn. split; [|reflexivity]. constructor; [|constructor]. cbn.
    rewrite with_rule_snoc, String.eqb_refl, Hnew; [reflexivity|].
    apply not_elem_of_nil.
  - cbn [addToRule]. cbn [map fst] in *.
    apply NoDup_cons in Hnd as [Hr Hnd].
    apply Forall_cons in Hall as [Hg Hall]. cbn [fst snd] in Hg.
    destruct (String.eqb_spec r (issue_rule i)) as [E|Hne].
    + subst r. split.
      * constructor.
        { cbn. now rewrite with_rule_snoc, String.eqb_refl, Hg. }
        apply Forall_forall. intros [k g'] Hin.
        rewrite Forall_forall in Hall. specialize (Hall _ Hin). cbn in *.
        rewrite with_rule_snoc.
        destruct (String.eqb_spec (issue_rule i) k) as [E|_];
          [|now rewrite app_nil_r].
        subst k. exfalso. apply Hr.
        exact (list_elem_of_fmap_2 fst rest _ Hin).
      * cbn. rewrite bool_decide_eq_true_2 by (apply elem_of_cons; now left).
        now rewrite app_nil_r.
    + destruct (IH Hnd Hall) as [IH1 IH2].
      { intros Hn. apply Hnew. apply not_elem_of_cons. split; [congruence|exact Hn]. }
      split.
      * constructor; [|exact IH1]. cbn. rewrite with_rule_snoc, Hg.
        destruct (String.eqb_spec (issue_rule i) r) as [E|_];
          [congruence | now rewrite app_nil_r].
      * cbn. rewrite IH2. f_equal. f_equal.
        rewrite (bool_decide_ext (issue_rule i ∈ map fst rest)
                   (issue_rule i ∈ r :: map fst rest)); [reflexivity|].
        rewrite elem_of_cons.
        split; [tauto | intros [E|H]; [congruence | exact H]].
Qed.

Lemma groupByRule_snoc l i :
  groupByRule (l ++ [i]) = addToRule (issue_rule i) i (groupByRule l).
Proof. unfold groupByRule. now rewrite fold_left_app. Qed.

Lemma groupByRule_spec l :
  map fst (groupByRule l) = spread_set [] (map issue_rule l)
  /\ Forall (fun kv => snd kv = with_rule (fst kv) l) (groupByRule l).
Proof.
  induction l as [|i l [IHk IHg]] using rev_ind.
  - split; [reflexivity | constructor].
  - rewrite groupByRule_snoc.
    destruct (addToRule_spec i l (groupByRule l)) as [Hg Hk];
      [rewrite IHk; apply spread_set_NoDup | exact IHg | |].
    + intros Hn. apply with_rule_nil. intros Hin. apply Hn.
      rewrite IHk. apply spread_set_elem. split; [exact Hin|].
      apply not_elem_of_nil.
    + split; [|exact Hg].
      rewrite Hk, IHk, map_app. cbn [map]. rewrite spread_set_snoc.
      f_equal. cbn [app].
      rewrite (bool_decide_ext (issue_rule i ∈ spread_set [] (map issue_rule l))
                 (issue_rule i ∈ map issue_rule l)); [reflexivity|].
      rewrite spread_set_elem. split; [tauto|].
      intros H. split; [exact H | apply not_elem_of_nil].
Qed.

Lemma addToRule_count rule i byRule :
  list_sum (map (fun kv => length (snd kv)) (addToRule rule i byRule))
  = S (list_sum (map (fun kv => length (snd kv)) byRule)).
Proof.
  induction byRule as [|[r g] rest IH]; [reflexivity|]. cbn [addToRule].
  destruct (String.eqb r rule); simpl; rewrite ?IH, ?length_app; simpl; lia.
Qed.

(** X19: the report groups the link issues by rule: the rules come in the order
    of their first issue, each once; the group of a rule holds exactly the
    link issues with that rule, in their order, and is never empty; so the
    counts of the summary add up to the number of link issues. *)
Theorem generateReport_groups_by_rule issues :
  let linkIssues := List.filter isLinkIssue issues in
  let byRule := groupByRule linkIssues in
  map fst byRule = spread_set [] (map issue_rule linkIssues)
  /\ NoDup (map fst byRule)
  /\ Forall (fun kv => snd kv = with_rule (fst kv) linkIssues
                       /\ snd kv <> []) byRule
  /\ list_sum (map (fun kv => length (snd kv)) byRule) = length linkIssues.
Proof.
  intros l byRule. destruct (groupByRule_spec l) as [Hk Hg]. fold byRule in Hk, Hg.
  split; [exact Hk|]. split; [rewrite Hk; apply spread_set_NoDup|]. split.
  - apply Forall_forall. intros [k g] Hin.
    rewrite Forall_forall in Hg. specialize (Hg _ Hin). cbn [fst snd] in *.
    split; [exact Hg|]. subst g.
    assert (Hkin : k ∈ map issue_rule l).
    { pose proof (list_elem_of_fmap_2 fst byRule _ Hin) as H.
      change (fst <$> byRule) with (map fst byRule) in H.
      rewrite Hk in H. now apply spread_set_elem in H. }
    apply list_elem_of_fmap in Hkin as (i & -> & Hi).
    intros Hnil. apply list_elem_of_In in Hi.
    assert (Hf : In i (with_rule (issue_rule i) l)).
    { apply filter_In. split; [exact Hi | apply String.eqb_refl]. }
    rewrite Hnil in Hf. contradiction.
  - subst byRule. clear. induction l as [|i l IH] using rev_ind;
      [reflexivity|].
    rewrite groupByRule_snoc, addToRule_count, IH, length_app. cbn. lia.
Qed.

(** X20: the severity shown for a rule is the worst of its issues. *)
Theorem worst_is_the_maximum severities :
  severities <> [] ->
  In (worst severities) severities
  /\ Forall (fun s => (severity_rank s <= severity_rank (worst severities))%nat)
       severities.
Proof.
  intros Hne.
  assert (Hhas : forall s, has_severity s severities = true <-> In s severities).
  { intros s. unfold has_severity. rewrite existsb_exists. split.
    - intros (x & Hx & E). destruct s, x; try discriminate; exact Hx.
    - intros H. exists s. split; [exact H | now destruct s]. }
  assert (Hnot : forall s, has_severity s severities = false -> ~ In s severities).
  { intros s H Hin. apply Hhas in Hin. congruence. }
  unfold worst.
  destruct (has_severity critical severities) eqn:H3.
  { split; [now apply Hhas|]. apply List.Forall_forall. intros [] _; cbn; lia. }
  destruct (has_severity serious severities) eqn:H2.
  { split; [now apply Hhas|]. apply List.Forall_forall.
    intros [] Hs; cbn; try lia. now apply Hnot in H3. }
  destruct (has_severity moderate severities) eqn:H1.
  { split; [now apply Hhas|]. apply List.Forall_forall.
    intros [] Hs; cbn; try lia; [now apply Hnot in H3 | now apply Hnot in H2]. }
  assert (Hall : forall s, In s severities -> s = minor).
  { intros [] Hs; [now apply Hnot in H3 | now apply Hnot in H2
                  | now apply Hnot in H1 | reflexivity]. }
  split.
  - destruct severities as [|s l]; [contradiction|].
    left. apply Hall. now left.
  - apply List.Forall_forall. intros s Hs. rewrite (Hall s Hs). cbn. lia.
Qed.

Lemma append_cons c s t :
  String.append (String c s) t = String c (String.append s t).
Proof. reflexivity. Qed.

Lemma append_inj_l p x y : String.append p x = String.append p y -> x = y.
Proof.
  induction p as [|c p IH]; [exact id|].
  rewrite !append_cons. intros [= H]. exact (IH H).
Qed.

(** X21: the report says that no broken links were found exactly when none of
    the issues is a link issue (a network issue whose rule starts with
    [broken-link] or [link-]); other issues are not reported on. *)
Theorem generateReport_nothing_found issues :
  generateReport issues
  = "# Broken Links Report" ++ nl ++ nl ++ "No broken links found."
  <-> Forall (fun i => isLinkIssue i = false) issues.
Proof.
  unfold generateReport. cbv zeta.
  assert (Hnil : List.filter isLinkIssue issues = []
                 <-> Forall (fun i => isLinkIssue i = false) issues).
  { induction issues as [|i l IH]; cbn.
    - split; [constructor | reflexivity].
    - destruct (isLinkIssue i) eqn:E.
      + split; [discriminate | intros H; apply Forall_inv in H; congruence].
      + rewrite IH. split; [now constructor | apply Forall_inv_tail]. }
  rewrite <- Hnil.
  destruct (List.filter isLinkIssue issues) as [|i l]; cbn [length Nat.eqb].
  - split; reflexivity.
  - split; [|discriminate]. intros E. exfalso.
    do 3 apply append_inj_l in E.
    change ("## Summary") with (String "#" "# Summary") in E.
    change ("No broken links found.")
      with (String "N" "o broken links found.") in E.
    rewrite append_cons in E. discriminate E.
Qed.

End BrokenLinksMore.

(** * The escaping of the report writers *)

Section EscapeProps.
Import Cli.

Lemma append_assoc_l a b c :
  String.append a (String.append b c) = String.append (String.append a b) c.
Proof.
  induction a as [|d a IH]; [reflexivity|]. rewrite !append_cons.
  now rewrite IH.
Qed.

Lemma replaceAll_append c text a b :
  replaceAll c text (String.append a b)
  = String.append (replaceAll c text a) (replaceAll c text b).
Proof.
  induction a as [|d a IH]; [reflexivity|].
  rewrite append_cons. cbn [replaceAll].
  destruct (Ascii.eqb d c).
  - now rewrite IH, append_assoc_l.
  - now rewrite append_cons, IH.
Qed.

Lemma escape_each_eq str :
  escapeXml str = escape_each xml_entity str
  /\ escapeHtml str = escape_each html_entity str.
Proof.
  unfold escapeXml, escapeHtml.
  induction str as [|c rest [IHx IHh]]; [split; reflexivity|].
  cbn [escape_each replaceAll]. unfold html_entity, xml_entity.
  destruct (Ascii.eqb c "&") eqn:E1.
  { apply Ascii.eqb_eq in E1 as ->. rewrite ?replaceAll_append, IHx, IHh.
    split; reflexivity. }
  cbn [replaceAll].
  destruct (Ascii.eqb c "<") eqn:E2.
  { apply Ascii.eqb_eq in E2 as ->. rewrite ?replaceAll_append, IHx, IHh.
    split; reflexivity. }
  cbn [replaceAll].
  destruct (Ascii.eqb c ">") eqn:E3.
  { apply Ascii.eqb_eq in E3 as ->. rewrite ?replaceAll_append, IHx, IHh.
    split; reflexivity. }
  cbn [replaceAll].
  destruct (Ascii.eqb c quot) eqn:E4.
  { apply Ascii.eqb_eq in E4 as ->. rewrite ?replaceAll_append, IHx, IHh.
    split; reflexivity. }
  cbn [replaceAll].
  destruct (Ascii.eqb c apos) eqn:E5.
  { apply Ascii.eqb_eq in E5 as ->. rewrite ?replaceAll_append, IHx, IHh.
    split; reflexivity. }
  cbn [replaceAll]. rewrite IHx, IHh. split; reflexivity.
Qed.

Lemma chars_append a b :
  list_ascii_of_string (String.append a b)
  = (list_ascii_of_string a ++ list_ascii_of_string b)%list.
Proof.
  induction a as [|c a IH]; [reflexivity|]. rewrite append_cons. cbn.
  now rewrite IH.
Qed.

Lemma entity_chars c d :
  has_char c (xml_entity d) ->
  c <> "<"%char /\ c <> ">"%char /\ c <> quot /\ c <> apos.
Proof.
  unfold xml_entity, has_char.
  destruct (Ascii.eqb d "&") eqn:E1;
    [|destruct (Ascii.eqb d "<") eqn:E2;
      [|destruct (Ascii.eqb d ">") eqn:E3;
        [|destruct (Ascii.eqb d quot) eqn:E4;
          [|destruct (Ascii.eqb d apos) eqn:E5]]]];
    cbn; intros H;
    repeat (destruct H as [<-|H]; [repeat split; discriminate|]);
    try contradiction.
  destruct H as [<-|[]].
  apply Ascii.eqb_neq in E2, E3, E4, E5. auto.
Qed.

(** X22: the chain of replacements of [escapeXml] and of [escapeHtml] amounts to
    one pass over the text: the ampersands of the entities put in by an
    earlier replacement are not escaped again by a later one.  So the
    escaped text holds no angle bracket and no double quote, and for
    [escapeXml] no apostrophe either. *)
Theorem escape_is_one_pass_and_safe str :
  escapeXml str = escape_each xml_entity str
  /\ escapeHtml str = escape_each html_entity str
  /\ (forall c, has_char c (escapeXml str) ->
        c <> "<"%char /\ c <> ">"%char /\ c <> quot /\ c <> apos)
  /\ (forall c, has_char c (escapeHtml str) ->
        c <> "<"%char /\ c <> ">"%char /\ c <> quot).
Proof.
  destruct (escape_each_eq str) as [Hx Hh].
  split; [exact Hx|]. split; [exact Hh|]. rewrite Hx, Hh. clear.
  unfold has_char. split; intros c.
  - induction str as [|d rest IH]; [intros []|]. cbn [escape_each].
    rewrite chars_append, in_app_iff. intros [H|H]; [|now apply IH].
    now apply (entity_chars c d).
  - induction str as [|d rest IH]; [intros []|]. cbn [escape_each].
    rewrite chars_append, in_app_iff. intros [H|H]; [|now apply IH].
    unfold html_entity in H. destruct (Ascii.eqb d apos) eqn:E.
    + apply Ascii.eqb_eq in E as ->. destruct H as [<-|[]].
      repeat split; discriminate.
    + destruct (entity_chars c d H) as (H1 & H2 & H3 & _). auto.
Qed.

End EscapeProps.

(** ** The models at work on the simulated application *)

Example includes_substring : includes "form button.primary" "button" = true.
Proof. reflexivity. Qed.

Example includes_missing : includes "a.nav" "button" = false.
Proof. reflexivity. Qed.

Example slice0_negative : slice0 (-1) [1; 2; 3] = [1; 2].
Proof. reflexivity. Qed.

Example slice0_beyond : slice0 50 [1; 2; 3] = [1; 2; 3].
Proof. reflexivity. Qed.

Example zero_is_the_default : num_or (Some 0) 10 = 10 /\ num_or (Some 2) 10 = 2.
Proof. split; reflexivity. Qed.

Example resolveTestData_placeholders :
  fst (resolveTestData (Sim.env [])
         {| baseUrl := "http://app/"; startUrls := None; actionSchemas := None;
            testData :=
              Some (<["title" := TDValue (PrimStr "Song")]>
                      (<["n" := TDValue (PrimNum "7")]>
                         (<["when" := TDGenerator]> ∅)));
            validators := None; exploration := None; ignore := None;
            output := None |}
         "{{testData.title}} {{testData.n}} {{testData.when}} {{testData.other}} {{testData.}}"
         Sim.start)
  = Ok "Song 7 generated {{testData.other}} {{testData.}}".
Proof. vm_compute. reflexivity. Qed.

(** Test data that is an empty object still has the members every object
    inherits. *)
Example resolveTestData_inherited_members :
  let C := {| baseUrl := "http://app/"; startUrls := None;
              actionSchemas := None; testData := Some ∅; validators := None;
              exploration := None; ignore := None; output := None |} in
  fst (resolveTestData (Sim.env []) C
         "{{testData.toString}} {{testData.constructor}} {{testData.title}}"
         Sim.start)
  = Ok "[object Undefined] [object Object] {{testData.title}}"
  /\ fst (resolveTestData (Sim.env []) C "{{testData.valueOf}}" Sim.start)
     = Throw (ErrorObj "TypeError"
                "Cannot convert undefined or null to object").
Proof. vm_compute. split; reflexivity. Qed.

Example crawl_of_three_states :
  match explore (Sim.env [Sim.next]) (Sim.config (Some 5) (Some 3) []) 20
          Sim.start with
  | Some (r, s) =>
      (is_ok r, elements (visited (core s)), startStates (core s),
       length (queue (core s)))
  | None => (false, [], [], O)
  end
  = (true, ["s1"; "s2"; "s0"], ["s0"], O).
Proof. vm_compute. reflexivity. Qed.

Example links_settling_out_of_order :
  match BrokenLinks.validate Sim.fetch Sim.parseURL Sim.syntaxError
          Sim.matches Sim.testPlain BrokenLinks.DEFAULT_CONFIG "http://app/"
          [Sim.link "missing"; Sim.link "slow"; Sim.link "fine"]
          desktop [1; 1; 0]%nat Sim.no_links_checked with
  | (Ok result, _) => map issue_rule (vr_issues result)
  | (Throw _, _) => []
  end
  = ["link-timeout"; "broken-link-404"].
Proof. vm_compute. reflexivity. Qed.

(** An ignore pattern that is not a regular expression. *)
Example links_with_malformed_ignore_pattern :
  fst (BrokenLinks.validate Sim.fetch Sim.parseURL Sim.syntaxError
         Sim.matches Sim.testPlain (Sim.ignoring [PatString "("])
         "http://app/" [Sim.link "missing"] desktop [0]%nat
         Sim.no_links_checked)
  = Throw (ErrorObj "SyntaxError"
             "Invalid regular expression: /(/: Unterminated group").
Proof. vm_compute. reflexivity. Qed.

(** ** The properties at work on the simulated application *)

(** The start page, visited once, is dequeued again: the second visit is
    discarded. *)
Lemma exploreTask_visited_state_discards_task_witness :
  let E := Sim.env [] in
  let s := Sim.seen in
  let w1 := snd (newPage E (world s)) in
  let s2 := snd (reachState E Sim.cfg tt Sim.task0
                   {| core := core s; world := w1 |}) in
  let state := Sim.fingerprint desktop (world s2) in
  newPage E (world s) = (Ok tt, w1)
  /\ reachState E Sim.cfg tt Sim.task0 {| core := core s; world := w1 |}
     = (Ok state, s2)
  /\ state_id state ∈ visited (core s)
  /\ exploreTask E Sim.cfg Sim.task0 s = call (pageCall E tt PClose) s2
  /\ core (snd (exploreTask E Sim.cfg Sim.task0 s)) = core s.
Proof.
  cbv zeta.
  assert (H1 : newPage (Sim.env []) (world Sim.seen)
               = (Ok tt, snd (newPage (Sim.env []) (world Sim.seen))))
    by reflexivity.
  assert (H2 : reachState (Sim.env []) Sim.cfg tt Sim.task0
                 {| core := core Sim.seen;
                    world := snd (newPage (Sim.env []) (world Sim.seen)) |}
               = (Ok (Sim.fingerprint desktop
                        (world (snd (reachState (Sim.env []) Sim.cfg tt Sim.task0
                           {| core := core Sim.seen;
                              world := snd (newPage (Sim.env []) (world Sim.seen)) |})))),
                  snd (reachState (Sim.env []) Sim.cfg tt Sim.task0
                         {| core := core Sim.seen;
                            world := snd (newPage (Sim.env []) (world Sim.seen)) |})))
    by (vm_compute; reflexivity).
  assert (H3 : state_id (Sim.fingerprint desktop
                        (world (snd (reachState (Sim.env []) Sim.cfg tt Sim.task0
                           {| core := core Sim.seen;
                              world := snd (newPage (Sim.env []) (world Sim.seen)) |}))))
               ∈ visited (core Sim.seen))
    by (vm_compute; reflexivity).
  exact (conj H1 (conj H2 (conj H3
           (exploreTask_visited_state_discards_task (Sim.env []) Sim.cfg
              Sim.task0 Sim.seen tt _ _ _ H1 H2 H3)))).
Defined.

(** Two database expectations, the first of which makes the adapter
    throw: the verification returns no result at all, not even for the
    second expectation. *)
Lemma adapter_throw_aborts_verification :
  verifyExpectations (Sim.env [])
    [Sim.expect_db ch_delete; Sim.expect_db ch_insert] tt tt Sim.start
  = (Throw (ErrorObj "Error" "connection lost"),
     {| core := new_core; world := Sim.logged "verify" Sim.fresh |})
  /\ forall results s',
       verifyExpectations (Sim.env [])
         [Sim.expect_db ch_delete; Sim.expect_db ch_insert] tt tt Sim.start
       <> (Ok results, s').
Proof.
  assert (H : verifyExpectations (Sim.env [])
                [Sim.expect_db ch_delete; Sim.expect_db ch_insert] tt tt Sim.start
              = (Throw (ErrorObj "Error" "connection lost"),
                 {| core := new_core; world := Sim.logged "verify" Sim.fresh |}))
    by (vm_compute; reflexivity).
  split; [exact H|]. intros results s'. rewrite H. discriminate.
Qed.

(** With an adapter that always answers, the failed check ([delete] is
    reported as not passed) is followed by the second expectation's own
    result. *)
Lemma verifyExpectations_results_kept_unless_a_check_throws_witness :
  let E := Sim.env_with Sim.steady_verify [] in
  let es := [Sim.expect_db ch_delete; Sim.expect_db ch_insert] in
  let r1 := {| passed := false; message := "rows checked for delete";
               vtype := v_database; expected := None; actual := None |} in
  let r2 := {| passed := true; message := "rows checked for insert";
               vtype := v_database; expected := None; actual := None |} in
  let s' := {| core := new_core;
               world := Sim.logged "verify" (Sim.logged "verify" Sim.fresh) |} in
  checked (flat_map (checks_of E tt) es) Sim.start [r1; r2] s'
  /\ verifyExpectations E es tt tt Sim.start = (Ok [r1; r2], s').
Proof.
  cbv zeta.
  assert (H : checked
                (flat_map (checks_of (Sim.env_with Sim.steady_verify []) tt)
                   [Sim.expect_db ch_delete; Sim.expect_db ch_insert])
                Sim.start
                [ {| passed := false; message := "rows checked for delete";
                     vtype := v_database; expected := None; actual := None |};
                  {| passed := true; message := "rows checked for insert";
                     vtype := v_database; expected := None; actual := None |} ]
                {| core := new_core;
                   world := Sim.logged "verify"
                              (Sim.logged "verify" Sim.fresh) |}).
  { apply (checked_cons _ _ _ _
             {| core := new_core; world := Sim.logged "verify" Sim.fresh |});
      [reflexivity|].
    apply (checked_cons _ _ _ _
             {| core := new_core;
                world := Sim.logged "verify" (Sim.logged "verify" Sim.fresh) |});
      [reflexivity|].
    apply checked_nil. }
  split; [exact H|].
  exact (proj1 (verifyExpectations_results_kept_unless_a_check_throws
                  (Sim.env_with Sim.steady_verify []) tt tt
                  [Sim.expect_db ch_delete; Sim.expect_db ch_insert] Sim.start)
           _ _ H).
Defined.

(** The start page offers one action, whose element cannot be found: the
    error is reported in an event, and the node of the start page has no
    transition. *)
Lemma failed_action_records_no_transition :
  last (events (core (snd (exploreTask (Sim.env [Sim.boom]) Sim.cfg
                             Sim.task0 Sim.start))))
  = Some (EvActionError Sim.boom (ErrorObj "TimeoutError" "element not found"))
  /\ node_transitions
       <$> (states (core (snd (exploreTask (Sim.env [Sim.boom]) Sim.cfg
                                 Sim.task0 Sim.start))) !! "s0")
     = Some [].
Proof. vm_compute. split; reflexivity. Qed.

Lemma exploreAction_throw_is_reported_and_recovered_witness :
  let E := Sim.env [Sim.boom] in
  let from := Sim.fingerprint desktop Sim.fresh in
  let e := ErrorObj "TimeoutError" "element not found" in
  let s1 := snd (performAndVerify E Sim.cfg tt Sim.boom Sim.task0
                   (snd (emit (EvActionStart Sim.boom (state_id from)) Sim.start))) in
  performAndVerify E Sim.cfg tt Sim.boom Sim.task0
    (snd (emit (EvActionStart Sim.boom (state_id from)) Sim.start))
  = (Throw e, s1)
  /\ fst (exploreAction E Sim.cfg tt from Sim.boom Sim.task0 Sim.start) = Ok tt
  /\ states (core (snd (exploreAction E Sim.cfg tt from Sim.boom Sim.task0 Sim.start)))
     = states (core Sim.start).
Proof.
  cbv zeta.
  assert (H : performAndVerify (Sim.env [Sim.boom]) Sim.cfg tt Sim.boom Sim.task0
                (snd (emit (EvActionStart Sim.boom
                              (state_id (Sim.fingerprint desktop Sim.fresh)))
                        Sim.start))
              = (Throw (ErrorObj "TimeoutError" "element not found"),
                 snd (performAndVerify (Sim.env [Sim.boom]) Sim.cfg tt Sim.boom
                        Sim.task0
                        (snd (emit (EvActionStart Sim.boom
                                      (state_id (Sim.fingerprint desktop Sim.fresh)))
                                Sim.start)))))
    by (vm_compute; reflexivity).
  split; [exact H|].
  pose proof (exploreAction_throw_is_reported_and_recovered
                (Sim.env [Sim.boom]) Sim.cfg tt
                (Sim.fingerprint desktop Sim.fresh) Sim.boom Sim.task0
                Sim.start _ _ H) as T.
  cbv zeta in T. split; [exact (proj1 T) | exact (proj1 (proj2 (proj2 (proj2 (proj2 T)))))].
Defined.

(** With [maxDepth = 0] the cap in force is the default [10]: the task of
    depth [1] queued by the first turn is explored by the second. *)
Lemma zero_maxDepth_lets_deeper_tasks_through :
  exists s task r s',
    loop_head (Sim.env [Sim.next]) (Sim.config (Some 0) (Some 3) [])
      (entry (Sim.env [Sim.next]) (Sim.config (Some 0) (Some 3) []) Sim.fresh) s
    /\ loop_step (Sim.env [Sim.next]) (Sim.config (Some 0) (Some 3) []) s
       = Explored task r s'
    /\ limit maxDepth (Sim.config (Some 0) (Some 3) []) = Some 0
    /\ task_depth task = 1.
Proof.
  set (E := Sim.env [Sim.next]). set (C := Sim.config (Some 0) (Some 3) []).
  exists (state_after (loop_step E C (entry E C Sim.fresh))),
    {| task_url := "http://app/"; task_path := [Sim.next]; task_depth := 1;
       task_viewport := desktop |},
    (Ok tt),
    (state_after (loop_step E C (state_after (loop_step E C (entry E C Sim.fresh))))).
  split; [|split; [|split]].
  - apply (head_explored E C _ (entry E C Sim.fresh) Sim.task0).
    + apply head_start.
    + vm_compute. reflexivity.
  - vm_compute. reflexivity.
  - reflexivity.
  - reflexivity.
Qed.

(** The crawl after its first turn: the start page has been visited and the
    page behind its one button is queued. *)
Lemma sim_first_turn :
  loop_head (Sim.env [Sim.next]) Sim.cfg
    (entry (Sim.env [Sim.next]) Sim.cfg Sim.fresh)
    (state_after
       (loop_step (Sim.env [Sim.next]) Sim.cfg
          (entry (Sim.env [Sim.next]) Sim.cfg Sim.fresh))).
Proof.
  apply (head_explored _ _ _ (entry (Sim.env [Sim.next]) Sim.cfg Sim.fresh)
           Sim.task0).
  - apply head_start.
  - vm_compute. reflexivity.
Qed.

(** After its second turn the page behind the button has been visited too,
    and the task at the front of the queue is two clicks deep. *)
Lemma sim_second_turn :
  loop_head (Sim.env [Sim.next]) Sim.cfg
    (entry (Sim.env [Sim.next]) Sim.cfg Sim.fresh)
    (state_after
       (loop_step (Sim.env [Sim.next]) Sim.cfg
          (state_after
             (loop_step (Sim.env [Sim.next]) Sim.cfg
                (entry (Sim.env [Sim.next]) Sim.cfg Sim.fresh))))).
Proof.
  apply (head_explored _ _ _
           (state_after
              (loop_step (Sim.env [Sim.next]) Sim.cfg
                 (entry (Sim.env [Sim.next]) Sim.cfg Sim.fresh)))
           {| task_url := "http://app/"; task_path := [Sim.next];
              task_depth := 1; task_viewport := desktop |}).
  - exact sim_first_turn.
  - vm_compute. reflexivity.
Qed.

(** With [maxStates = 0] the limit in force is the default [500]: the
    three pages that the depth limit leaves within reach are all
    visited. *)
Lemma zero_maxStates_lets_states_be_visited :
  exists s',
    explore_loop (Sim.env [Sim.next]) (Sim.config (Some 2) (Some 0) []) 20
      (entry (Sim.env [Sim.next]) (Sim.config (Some 2) (Some 0) []) Sim.fresh)
    = Some (Ok tt, s')
    /\ limit maxStates (Sim.config (Some 2) (Some 0) []) = Some 0
    /\ size (visited (core s')) = 3%nat.
Proof.
  eexists. split; [vm_compute; reflexivity|]. split; reflexivity.
Qed.

(** The run with [maxDepth = 2] and [maxStates = 10], at the head of its
    third turn: two states are visited, and the task explored is two
    clicks deep. *)
Lemma caps_enforced_unless_configured_zero_witness :
  let E := Sim.env [Sim.next] in
  let s0 := entry E Sim.cfg Sim.fresh in
  let s2 := state_after
              (loop_step E Sim.cfg (state_after (loop_step E Sim.cfg s0))) in
  loop_head E Sim.cfg s0 s2
  /\ size (visited (core s2)) = 2%nat
  /\ (exists task r s',
        loop_step E Sim.cfg s2 = Explored task r s' /\ task_depth task = 2)
  /\ (forall task r s',
        loop_step E Sim.cfg s2 = Explored task r s' -> task_depth task <= 2)
  /\ Z.of_nat (size (visited (core s2))) <= Z.max 0 10
  /\ Z.of_nat (size (visited (core (state_after (loop_step E Sim.cfg s2)))))
     <= Z.max 0 10.
Proof.
  cbv zeta.
  pose proof (caps_enforced_unless_configured_zero
                (Sim.env [Sim.next]) Sim.cfg Sim.fresh
                (state_after
                   (loop_step (Sim.env [Sim.next]) Sim.cfg
                      (state_after
                         (loop_step (Sim.env [Sim.next]) Sim.cfg
                            (entry (Sim.env [Sim.next]) Sim.cfg Sim.fresh)))))
                sim_second_turn) as (Hd & Hm & _).
  split; [exact sim_second_turn|].
  split; [vm_compute; reflexivity|].
  split; [eexists _, _, _; split; [vm_compute; reflexivity | reflexivity]|].
  split; [exact (proj1 (Hd 2 eq_refl ltac:(lia)))|].
  exact (Hm 10 eq_refl ltac:(lia)).
Defined.





Lemma startStates_is_the_first_state_added_witness :
  let E := Sim.env [Sim.next] in
  let s' := state_after (loop_step E Sim.cfg (entry E Sim.cfg Sim.fresh)) in
  loop_head E Sim.cfg (entry E Sim.cfg Sim.fresh) (entry E Sim.cfg Sim.fresh)
  /\ (length (startStates (core s')) <= 1)%nat
  /\ (dom (states (core (entry E Sim.cfg Sim.fresh))) = ∅ ->
      dom (states (core s')) <> ∅ ->
      exists id, dom (states (core s')) = {[ id ]}
                 /\ startStates (core s') = [id]).
Proof.
  cbv zeta.
  pose proof (startStates_is_the_first_state_added
                (Sim.env [Sim.next]) Sim.cfg Sim.fresh _
                (head_start _ _ _)) as T.
  cbv zeta in T. destruct T as (_ & Hl & _ & _ & Hf).
  split; [apply head_start|]. split; [exact Hl | exact Hf].
Defined.

(** Three setup steps, the second of which clicks an element that is not
    there. *)
Lemma executeSetup_optional_swallowed_required_propagates_witness :
  let E := Sim.env [] in
  let e := ErrorObj "TimeoutError" "no such element" in
  let s0 := {| core := new_core; world := Sim.logged "setup-click" Sim.fresh |} in
  executeSetup E Sim.cfg tt [Sim.click_step "#menu" false] Sim.start = (Ok tt, s0)
  /\ runSetupStep E Sim.cfg tt (Sim.click_step "#absent" true) s0 = (Throw e, s0)
  /\ runSetupStep E Sim.cfg tt (Sim.click_step "#absent" false) s0 = (Throw e, s0)
  /\ executeSetup E Sim.cfg tt
       ([Sim.click_step "#menu" false]
        ++ Sim.click_step "#absent" true :: [Sim.click_step "#save" false])
       Sim.start
     = executeSetup E Sim.cfg tt [Sim.click_step "#save" false] s0
  /\ executeSetup E Sim.cfg tt
       ([Sim.click_step "#menu" false]
        ++ Sim.click_step "#absent" false :: [Sim.click_step "#save" false])
       Sim.start
     = (Throw e, s0).
Proof.
  cbv zeta.
  assert (H0 : executeSetup (Sim.env []) Sim.cfg tt
                 [Sim.click_step "#menu" false] Sim.start
               = (Ok tt, {| core := new_core;
                            world := Sim.logged "setup-click" Sim.fresh |}))
    by (vm_compute; reflexivity).
  assert (H1 : runSetupStep (Sim.env []) Sim.cfg tt (Sim.click_step "#absent" true)
                 {| core := new_core; world := Sim.logged "setup-click" Sim.fresh |}
               = (Throw (ErrorObj "TimeoutError" "no such element"),
                  {| core := new_core;
                     world := Sim.logged "setup-click" Sim.fresh |}))
    by (vm_compute; reflexivity).
  assert (H2 : runSetupStep (Sim.env []) Sim.cfg tt (Sim.click_step "#absent" false)
                 {| core := new_core; world := Sim.logged "setup-click" Sim.fresh |}
               = (Throw (ErrorObj "TimeoutError" "no such element"),
                  {| core := new_core;
                     world := Sim.logged "setup-click" Sim.fresh |}))
    by (vm_compute; reflexivity).
  split; [exact H0|]. split; [exact H1|]. split; [exact H2|]. split.
  - exact (executeSetup_optional_swallowed_required_propagates (Sim.env [])
             Sim.cfg tt _ (Sim.click_step "#absent" true)
             [Sim.click_step "#save" false] _ _ _ _ H0 H1).
  - exact (executeSetup_optional_swallowed_required_propagates (Sim.env [])
             Sim.cfg tt _ (Sim.click_step "#absent" false)
             [Sim.click_step "#save" false] _ _ _ _ H0 H2).
Defined.

Lemma verifyUiExpectations_results_and_absent_elements_witness :
  let E := Sim.env [] in
  isVisible E tt "#gone" (world Sim.start)
  = (Throw (ErrorObj "Error" "page closed"), Sim.fresh)
  /\ checkHidden E tt "#gone" Sim.start
     = (Ok {| passed := true; message := "Element #gone is not present";
              vtype := v_ui; expected := None; actual := None |},
        Sim.start)
  /\ checkVisible E tt "#gone" Sim.start
     = (Ok {| passed := false; message := "Element #gone not found";
              vtype := v_ui; expected := None; actual := None |},
        Sim.start).
Proof.
  cbv zeta.
  assert (H : isVisible (Sim.env []) tt "#gone" (world Sim.start)
              = (Throw (ErrorObj "Error" "page closed"), Sim.fresh))
    by reflexivity.
  split; [exact H|].
  exact (proj1 (proj2 (proj2 (verifyUiExpectations_results_and_absent_elements
                                (Sim.env []) tt
                                (Sim.expect_ui [] None) Sim.start)))
           "#gone" _ _ H).
Defined.

(** One selector to find and a URL pattern that is not a regular
    expression: no result comes back, not even the selector's. *)
Lemma malformed_url_pattern_loses_selector_results :
  verifyUiExpectations (Sim.env []) tt
    (Sim.expect_ui ["#shown"] (Some (PatString "("))) Sim.start
  = (Throw (ErrorObj "SyntaxError"
              "Invalid regular expression: /(/: Unterminated group"),
     Sim.start)
  /\ forall results s',
       verifyUiExpectations (Sim.env []) tt
         (Sim.expect_ui ["#shown"] (Some (PatString "("))) Sim.start
       <> (Ok results, s').
Proof.
  assert (H : verifyUiExpectations (Sim.env []) tt
                (Sim.expect_ui ["#shown"] (Some (PatString "("))) Sim.start
              = (Throw (ErrorObj "SyntaxError"
                          "Invalid regular expression: /(/: Unterminated group"),
                 Sim.start))
    by (vm_compute; reflexivity).
  split; [exact H|]. intros results s'. rewrite H. discriminate.
Qed.


(** ** The further properties at work on the simulated application *)

Lemma queued_depth_is_path_length_witness :
  let E := Sim.env [Sim.next] in
  let s := state_after (loop_step E Sim.cfg (entry E Sim.cfg Sim.fresh)) in
  loop_head E Sim.cfg (entry E Sim.cfg Sim.fresh) s
  /\ Forall depth_is_path_length (queue (core s)).
Proof.
  cbv zeta. split; [exact sim_first_turn|].
  exact (queued_depth_is_path_length (Sim.env [Sim.next]) Sim.cfg Sim.fresh _
           sim_first_turn).
Defined.

Lemma queue_is_breadth_first_witness :
  let E := Sim.env [Sim.next] in
  let s := state_after (loop_step E Sim.cfg (entry E Sim.cfg Sim.fresh)) in
  loop_head E Sim.cfg (entry E Sim.cfg Sim.fresh) s
  /\ breadth_first (queue (core s)).
Proof.
  cbv zeta. split; [exact sim_first_turn|].
  exact (queue_is_breadth_first (Sim.env [Sim.next]) Sim.cfg Sim.fresh _
           sim_first_turn).
Defined.

Lemma graph_stays_well_formed_witness :
  let E := Sim.env [Sim.next] in
  let s0 := entry E Sim.cfg Sim.fresh in
  let s := state_after (loop_step E Sim.cfg s0) in
  graph_wf (core s0) /\ loop_head E Sim.cfg s0 s /\ graph_wf (core s).
Proof.
  cbv zeta.
  assert (H0 : graph_wf (core (entry (Sim.env [Sim.next]) Sim.cfg Sim.fresh))).
  { unfold graph_wf.
    replace (states (core (entry (Sim.env [Sim.next]) Sim.cfg Sim.fresh)))
      with (∅ : gmap string StateNode) by (vm_compute; reflexivity).
    apply map_Forall_empty. }
  split; [exact H0|]. split; [exact sim_first_turn|].
  exact (graph_stays_well_formed (Sim.env [Sim.next]) Sim.cfg _ _ H0
           sim_first_turn).
Defined.

Lemma run_only_grows_witness :
  let E := Sim.env [Sim.next] in
  let s0 := entry E Sim.cfg Sim.fresh in
  let s := state_after (loop_step E Sim.cfg s0) in
  loop_head E Sim.cfg s0 s /\ grows (core s0) (core s).
Proof.
  cbv zeta. split; [exact sim_first_turn|].
  exact (run_only_grows (Sim.env [Sim.next]) Sim.cfg _ _ sim_first_turn).
Defined.

(** Replaying a path of three clicks whose second button is missing: the
    first click is made, the third is not attempted. *)
Lemma replayPath_stops_at_first_failure_witness :
  let E := Sim.env [] in
  let s1 := snd (for_of [Sim.next] (replay_step E Sim.cfg tt) Sim.start) in
  let e := ErrorObj "TimeoutError" "element not found" in
  for_of [Sim.next] (replay_step E Sim.cfg tt) Sim.start = (Ok tt, s1)
  /\ replay_step E Sim.cfg tt Sim.boom s1 = (Throw e, s1)
  /\ replayPath E Sim.cfg tt [Sim.next; Sim.boom; Sim.next] Sim.start
     = (Ok tt, s1).
Proof.
  cbv zeta.
  assert (H1 : for_of [Sim.next] (replay_step (Sim.env []) Sim.cfg tt) Sim.start
               = (Ok tt,
                  snd (for_of [Sim.next] (replay_step (Sim.env []) Sim.cfg tt)
                         Sim.start)))
    by (vm_compute; reflexivity).
  assert (H2 : replay_step (Sim.env []) Sim.cfg tt Sim.boom
                 (snd (for_of [Sim.next] (replay_step (Sim.env []) Sim.cfg tt)
                         Sim.start))
               = (Throw (ErrorObj "TimeoutError" "element not found"),
                  snd (for_of [Sim.next] (replay_step (Sim.env []) Sim.cfg tt)
                         Sim.start)))
    by (vm_compute; reflexivity).
  split; [exact H1|]. split; [exact H2|].
  exact (replayPath_stops_at_first_failure (Sim.env []) Sim.cfg tt
           [Sim.next] Sim.boom [Sim.next] Sim.start _ _ _ H1 H2).
Defined.

(** Clicking the one button of the start page leads to a page not seen
    before. *)
Lemma exploreAction_success_bookkeeping_witness :
  let E := Sim.env [Sim.next] in
  let from := Sim.fingerprint desktop Sim.fresh in
  let s0 := snd (emit (EvActionStart Sim.next (state_id from)) Sim.start) in
  let s1 := snd (performAndVerify E Sim.cfg tt Sim.next Sim.task0 s0) in
  let to := Sim.fingerprint desktop (world s1) in
  let c' := core (snd (exploreAction E Sim.cfg tt from Sim.next Sim.task0
                         Sim.start)) in
  performAndVerify E Sim.cfg tt Sim.next Sim.task0 s0 = (Ok (to, []), s1)
  /\ visited c' = visited (core Sim.start)
  /\ queue c'
     = [ {| task_url := "http://app/"; task_path := [Sim.next];
            task_depth := 1; task_viewport := desktop |} ].
Proof.
  cbv zeta.
  assert (H : performAndVerify (Sim.env [Sim.next]) Sim.cfg tt Sim.next
                Sim.task0
                (snd (emit (EvActionStart Sim.next
                              (state_id (Sim.fingerprint desktop Sim.fresh)))
                        Sim.start))
              = (Ok (Sim.fingerprint desktop
                       (world (snd (performAndVerify (Sim.env [Sim.next])
                                      Sim.cfg tt Sim.next Sim.task0
                                      (snd (emit (EvActionStart Sim.next
                                                    (state_id (Sim.fingerprint desktop Sim.fresh)))
                                              Sim.start))))),
                     []),
                 snd (performAndVerify (Sim.env [Sim.next]) Sim.cfg tt
                        Sim.next Sim.task0
                        (snd (emit (EvActionStart Sim.next
                                      (state_id (Sim.fingerprint desktop Sim.fresh)))
                                Sim.start)))))
    by (vm_compute; reflexivity).
  split; [exact H|].
  pose proof (exploreAction_success_bookkeeping (Sim.env [Sim.next]) Sim.cfg
                tt (Sim.fingerprint desktop Sim.fresh) Sim.next Sim.task0
                Sim.start _ _ _ H) as T.
  cbv zeta in T. destruct T as (Hv & _ & _ & Hq & _).
  split; [exact Hv | exact Hq].
Defined.

(** Closing the page fails: that error is the one [exploreTask] throws. *)
Lemma exploreTask_errors_only_from_page_lifecycle_witness :
  let E := Sim.failing ["close"] [] in
  let e := ErrorObj "Error" "Target closed" in
  fst (exploreTask E Sim.cfg Sim.task0 Sim.start) = Throw e
  /\ (fst (newPage E (world Sim.start)) = Throw e
      \/ exists page w, fst (pageCall E page PClose w) = Throw e).
Proof.
  cbv zeta.
  assert (H : fst (exploreTask (Sim.failing ["close"] []) Sim.cfg Sim.task0
                     Sim.start)
              = Throw (ErrorObj "Error" "Target closed"))
    by (vm_compute; reflexivity).
  split; [exact H|].
  exact (exploreTask_errors_only_from_page_lifecycle
           (Sim.failing ["close"] []) Sim.cfg Sim.task0 Sim.start _ H).
Defined.



(** Test data that is an empty object, and a placeholder that names no
    member an object inherits: the placeholder stays as written. *)
Lemma resolveTestData_leaves_other_text_witness :
  let C := {| baseUrl := "http://app/"; startUrls := None;
              actionSchemas := None; testData := Some ∅; validators := None;
              exploration := None; ignore := None; output := None |} in
  testData C = Some ∅
  /\ Forall (fun key =>
               (∅ : gmap string TestDataValue) !! key = None
               /\ inheritedMember (Sim.env []) key = None)
       (placeholder_keys "Song {{testData.title}}")
  /\ resolveTestData (Sim.env []) C "Song {{testData.title}}" Sim.start
     = (Ok "Song {{testData.title}}", Sim.start).
Proof.
  cbv zeta.
  assert (H : Forall (fun key =>
                        (∅ : gmap string TestDataValue) !! key = None
                        /\ inheritedMember (Sim.env []) key = None)
                (placeholder_keys "Song {{testData.title}}")).
  { vm_compute. repeat constructor. }
  split; [reflexivity|]. split; [exact H|].
  exact (resolveTestData_leaves_other_text (Sim.env [])
           {| baseUrl := "http://app/"; startUrls := None;
              actionSchemas := None; testData := Some ∅; validators := None;
              exploration := None; ignore := None; output := None |}
           ∅ "Song {{testData.title}}" Sim.start eq_refl H).
Defined.

(** The slow link, met a second time under another text. *)
Lemma checkLink_answers_repeats_from_cache_witness :
  let l := Sim.link "slow" in
  let l' := {| BrokenLinks.href := "http://app/slow";
               BrokenLinks.text := "again";
               BrokenLinks.selector := "#again";
               BrokenLinks.isExternal := false |} in
  let first :=
    BrokenLinks.checkLink Sim.fetch BrokenLinks.DEFAULT_CONFIG l
      Sim.no_links_checked in
  BrokenLinks.href l' = BrokenLinks.href l
  /\ BrokenLinks.checkLink Sim.fetch BrokenLinks.DEFAULT_CONFIG l' (snd first)
     = (BrokenLinks.withLink (fst first) l', snd first).
Proof.
  cbv zeta. split; [reflexivity|].
  exact (proj1 (checkLink_answers_repeats_from_cache Sim.fetch
                  BrokenLinks.DEFAULT_CONFIG (Sim.link "slow")
                  {| BrokenLinks.href := "http://app/slow";
                     BrokenLinks.text := "again";
                     BrokenLinks.selector := "#again";
                     BrokenLinks.isExternal := false |}
                  Sim.no_links_checked eq_refl)).
Defined.

(** Three links, two workers. *)
Lemma pool_checks_every_link_once_witness :
  let links := [Sim.link "missing"; Sim.link "slow"; Sim.link "fine"] in
  (1 <= 2)%nat
  /\ Permutation
       (map BrokenLinks.link
          (fst (BrokenLinks.checkLinksWithConcurrency Sim.fetch
                  BrokenLinks.DEFAULT_CONFIG links 2 [1; 0]%nat
                  Sim.no_links_checked)))
       links.
Proof.
  cbv zeta. split; [lia|].
  exact (proj1 (pool_checks_every_link_once Sim.fetch
                  BrokenLinks.DEFAULT_CONFIG
                  [Sim.link "missing"; Sim.link "slow"; Sim.link "fine"]
                  2 [1; 0]%nat Sim.no_links_checked ltac:(lia))).
Defined.

Lemma worst_is_the_maximum_witness :
  [moderate; serious; minor] <> []
  /\ In (BrokenLinks.worst [moderate; serious; minor])
       [moderate; serious; minor].
Proof.
  split; [discriminate|].
  exact (proj1 (worst_is_the_maximum [moderate; serious; minor]
                  ltac:(discriminate))).
Defined.
